(** * Portfolio page: data-driven renderer and theme manager

    A shallow embedding of the page scripts of the portfolio site:
    [PortfolioRenderer] (loading of [data.json], the render pass, the five
    section renderers, navigation generation), [ThemeManager] (theme
    selection, persistence and toggling) and [MobileNav] (the menu of
    small screens).

    The browser is modelled as far as the scripts use it:
    - the document is a tree of elements, text nodes and unparsed markup;
      markup assigned through [innerHTML] stays one opaque node (the HTML
      parser is not modelled), and markup appended with [innerHTML +=]
      records the text that was read back and the text put behind it;
    - [querySelector] returns the first match in document (pre-)order and
      a mutation through the returned reference is an update at that place;
      the selector built from a section id is an id selector when the id
      is an identifier of letters, digits, hyphens and underscores, it is
      no selector at all (a [SyntaxError]) when such an id does not start
      an identifier, and it is outside the model for any other id: the
      script then completes as [Unmodelled], which nothing catches;
    - [document.title] is the text of the first [title] element, which
      the setter creates in the head when there is none; [document.head]
      is the first [head] child of an [html] root;
    - a style declaration holds what the style engine of the browser
      stores for the value assigned, and is left alone when the engine
      rejects the value; the engine is a parameter of the page state;
    - [String.prototype.replace] expands the dollar patterns of its
      replacement; [Object.entries] lists array indices first; a property
      lookup on an object literal reaches [Object.prototype];
    - exceptions abort the running method and are caught where the script
      catches them; the console is a list of diagnostics;
    - [localStorage] holds one optional string under the key [theme];
    - event listeners, the viewport and the [active] class token that the
      navigation glue moves around are not modelled. *)

From Stdlib Require Import String Ascii List Bool Arith NArith Lia.
From Stdlib Require Import Sorted Permutation.
Import ListNotations.
Local Open Scope string_scope.
Local Open Scope list_scope.

Set Implicit Arguments.
Set Warnings "-register-all".

(** ** Strings as JavaScript uses them *)

Module JsString.

(** [s.startsWith(p)]. *)
Definition startsWith (s p : string) : bool := String.prefix p s.

(** [xs.join(sep)] on an array of strings. *)
Fixpoint join (sep : string) (xs : list string) : string :=
  match xs with
  | [] => ""
  | [x] => x
  | x :: rest => x ++ sep ++ join sep rest
  end.

Fixpoint drop (n : nat) (s : string) : string :=
  match n, s with
  | O, _ => s
  | S k, String _ r => drop k r
  | S _, EmptyString => EmptyString
  end.

(** Position of the first occurrence of [pat] in [s]: the pieces before
    and after it.  The empty pattern occurs at position 0. *)
Fixpoint split_first (pat s : string) : option (string * string) :=
  if String.prefix pat s then Some ("", drop (String.length pat) s)
  else match s with
       | EmptyString => None
       | String c r =>
           match split_first pat r with
           | Some (before, after) => Some (String c before, after)
           | None => None
           end
       end.

(** [GetSubstitution] for a string pattern (no capture groups): inside the
    replacement text, [$$] stands for a dollar sign, [$&] for the matched
    text, [$`] for the text before the match and [$'] for the text after
    it; every other character, a lone dollar sign included, stands for
    itself. *)
Fixpoint expand (matched before after rep : string) : string :=
  match rep with
  | EmptyString => EmptyString
  | String "$" (String "$" r) => String "$" (expand matched before after r)
  | String "$" (String "&" r) => matched ++ expand matched before after r
  | String "$" (String "`" r) => before ++ expand matched before after r
  | String "$" (String "'" r) => after ++ expand matched before after r
  | String c r => String c (expand matched before after r)
  end.

(** [s.replace(pat, rep)] with a string pattern: only the first occurrence
    is replaced, by the expansion of [rep]. *)
Definition replace (s pat rep : string) : string :=
  match split_first pat s with
  | Some (before, after) => before ++ expand pat before after rep ++ after
  | None => s
  end.

(** Replacement without the dollar patterns: the text the call site
    writes between the two pieces. *)
Definition replace_literal (s pat rep : string) : string :=
  match split_first pat s with
  | Some (before, after) => before ++ rep ++ after
  | None => s
  end.

Fixpoint has_dollar (s : string) : bool :=
  match s with
  | EmptyString => false
  | String c r => (Ascii.eqb c "$") || has_dollar r
  end.

(** ASCII whitespace, the separator of class tokens. *)
Definition is_space (c : ascii) : bool :=
  match nat_of_ascii c with
  | 9 | 10 | 12 | 13 | 32 => true
  | _ => false
  end.

(** The tokens of a space-separated list ([classList]). *)
Fixpoint tokens_aux (cur : string) (s : string) : list string :=
  match s with
  | EmptyString => if String.eqb cur "" then [] else [cur]
  | String c r =>
      if is_space c
      then (if String.eqb cur "" then tokens_aux "" r
            else cur :: tokens_aux "" r)
      else tokens_aux (cur ++ String c "") r
  end.

Definition tokens (s : string) : list string := tokens_aux "" s.

End JsString.

(** ** The document tree *)

(** Markup handed to [innerHTML].  The HTML parser and serialiser are not
    modelled: [Html text] stands for the nodes parsed from [text], and
    [Reread text suffix] for the nodes parsed from what [innerHTML] reads
    back of the nodes parsed from [text] (their serialisation, which is
    [text] itself only when [text] is balanced markup) followed by
    [suffix]. *)
Inductive markup : Type :=
| Html (text : string)
| Reread (text suffix : string).

Coercion Html : string >-> markup.
Bind Scope string_scope with markup.

Inductive node : Type :=
| Element (tag : string) (attrs : list (string * string)) (children : list node)
| TextNode (data : string)
| Markup (html : markup).

Module Dom.

Fixpoint get_attr (k : string) (a : list (string * string)) : option string :=
  match a with
  | [] => None
  | (k', v) :: r => if String.eqb k k' then Some v else get_attr k r
  end.

Fixpoint set_attr (k v : string) (a : list (string * string))
  : list (string * string) :=
  match a with
  | [] => [(k, v)]
  | (k', v') :: r =>
      if String.eqb k k' then (k, v) :: r else (k', v') :: set_attr k v r
  end.

Definition tag_of (n : node) : option string :=
  match n with Element t _ _ => Some t | _ => None end.

Definition attrs_of (n : node) : list (string * string) :=
  match n with Element _ a _ => a | _ => [] end.

Definition children_of (n : node) : list node :=
  match n with Element _ _ cs => cs | _ => [] end.

Definition is_element (n : node) : bool :=
  match n with Element _ _ _ => true | _ => false end.

(** [el.innerHTML = '']-style wholesale replacement of the children. *)
Definition set_children (cs : list node) (n : node) : node :=
  match n with
  | Element t a _ => Element t a cs
  | _ => n
  end.

(** [el.appendChild(c)] for a fresh node [c]. *)
Definition appendChild (c : node) (n : node) : node :=
  match n with
  | Element t a cs => Element t a (cs ++ [c])
  | _ => n
  end.

(** [el.textContent = s]: every child goes, one text node comes unless
    [s] is empty. *)
Definition text_children (s : string) : list node :=
  if String.eqb s "" then [] else [TextNode s].

Definition set_textContent (s : string) (n : node) : node :=
  set_children (text_children s) n.

(** [el.innerHTML = s]: every child goes, the parsed markup comes.  The
    parser is outside the model: the markup is kept as one [Markup]
    node, which no selector looks into. *)
Definition markup_children (s : string) : list node :=
  if String.eqb s "" then [] else [Markup s].

Definition set_innerHTML (s : string) (n : node) : node :=
  set_children (markup_children s) n.

(** [el.innerHTML += s] on an element whose children are those parsed
    from [text] (the statement before was [el.innerHTML = text]): the
    getter serialises these nodes, [s] is put behind that text and the
    whole is parsed anew.  Of the empty [text] nothing is read back. *)
Definition append_innerHTML (text s : string) (n : node) : node :=
  if String.eqb text "" then set_innerHTML s n
  else set_children [Markup (Reread text s)] n.

(** [el[key] = value] for the reflected properties the scripts set
    ([className] is the [class] attribute). *)
Definition set_prop (k v : string) (n : node) : node :=
  match n with
  | Element t a cs =>
      Element t (set_attr (if String.eqb k "className" then "class" else k) v a) cs
  | _ => n
  end.

(** The simple selectors of the scripts. *)
Inductive selector : Type :=
| ById (id : string)                      (* #id *)
| ByClass (c : string)                    (* .c *)
| ByTag (t : string)                      (* t *)
| ByTagAttr (t k v : string).             (* t[k="v"] *)

Definition has_class (c : string) (a : list (string * string)) : bool :=
  match get_attr "class" a with
  | Some v => existsb (String.eqb c) (JsString.tokens v)
  | None => false
  end.

Definition matches (s : selector) (n : node) : bool :=
  match n with
  | Element t a _ =>
      match s with
      | ById i => match get_attr "id" a with
                  | Some v => String.eqb v i
                  | None => false
                  end
      | ByClass c => has_class c a
      | ByTag t' => String.eqb t t'
      | ByTagAttr t' k v =>
          String.eqb t t' &&
          match get_attr k a with
          | Some v' => String.eqb v' v
          | None => false
          end
      end
  | _ => false
  end.

Section Walk.
Variable P : node -> bool.

(** First node in pre-order, the root included, that satisfies [P]. *)
Fixpoint find (n : node) : option node :=
  if P n then Some n
  else match n with
       | Element _ _ cs =>
           (fix go (l : list node) : option node :=
              match l with
              | [] => None
              | c :: r => match find c with
                          | Some e => Some e
                          | None => go r
                          end
              end) cs
       | _ => None
       end.

Fixpoint find_list (l : list node) : option node :=
  match l with
  | [] => None
  | c :: r => match find c with
              | Some e => Some e
              | None => find_list r
              end
  end.

(** [el.querySelector(sel)]: the descendants only. *)
Definition find_desc (n : node) : option node := find_list (children_of n).

Variable X : Type.
Variable f : node -> node * X.

(** A mutation through the reference [querySelector] returned: [f]
    rewrites the first match in place and reports a result. *)
Fixpoint update (n : node) : option (node * X) :=
  if P n then Some (f n)
  else match n with
       | Element t a cs =>
           match (fix go (l : list node) : option (list node * X) :=
                    match l with
                    | [] => None
                    | c :: r =>
                        match update c with
                        | Some (c', x) => Some (c' :: r, x)
                        | None => match go r with
                                  | Some (r', x) => Some (c :: r', x)
                                  | None => None
                                  end
                        end
                    end) cs with
           | Some (cs', x) => Some (Element t a cs', x)
           | None => None
           end
       | _ => None
       end.

Fixpoint update_list (l : list node) : option (list node * X) :=
  match l with
  | [] => None
  | c :: r =>
      match update c with
      | Some (c', x) => Some (c' :: r, x)
      | None => match update_list r with
                | Some (r', x) => Some (c :: r', x)
                | None => None
                end
      end
  end.

Definition update_desc (n : node) : option (node * X) :=
  match n with
  | Element t a cs =>
      match update_list cs with
      | Some (cs', x) => Some (Element t a cs', x)
      | None => None
      end
  | _ => None
  end.
End Walk.

Section Under.
(** The descendant combinator [A B]: the first node in document order
    that satisfies [B] and has a proper ancestor satisfying [A]. *)
Variables A B : node -> bool.
Variable f : node -> node.

Fixpoint update_under (inside : bool) (n : node) : option node :=
  if inside && B n then Some (f n)
  else match n with
       | Element t a cs =>
           let inside' := inside || A n in
           match (fix go (l : list node) : option (list node) :=
                    match l with
                    | [] => None
                    | c :: r =>
                        match update_under inside' c with
                        | Some c' => Some (c' :: r)
                        | None => match go r with
                                  | Some r' => Some (c :: r')
                                  | None => None
                                  end
                        end
                    end) cs with
           | Some cs' => Some (Element t a cs')
           | None => None
           end
       | _ => None
       end.
End Under.

End Dom.

(** ** Selector text built from data

    The renderer builds one selector from data: [`#${section.id}`].  The
    CSS tokenizer reads [#] followed by name characters as one hash
    token, and the token is an id selector exactly when the characters
    start an identifier; otherwise [querySelector] throws a
    [SyntaxError].  An id with any other character (white space, a
    combinator, a dot, a bracket, a backslash, a character outside
    ASCII) gives a longer selector or an escape: such text is not
    covered. *)

Module Css.

Definition is_letter (c : ascii) : bool :=
  let n := nat_of_ascii c in
  ((65 <=? n)%nat && (n <=? 90)%nat) || ((97 <=? n)%nat && (n <=? 122)%nat).

Definition is_digit (c : ascii) : bool :=
  let n := nat_of_ascii c in ((48 <=? n)%nat && (n <=? 57)%nat)%bool.

(** A letter or the underscore may start a name. *)
Definition name_start (c : ascii) : bool :=
  is_letter c || Ascii.eqb c "_".

Definition name_char (c : ascii) : bool :=
  name_start c || is_digit c || Ascii.eqb c "-".

Fixpoint all_name_chars (s : string) : bool :=
  match s with
  | EmptyString => true
  | String c r => name_char c && all_name_chars r
  end.

(** The characters would start an identifier: a name start, or a hyphen
    followed by a name start or a second hyphen. *)
Definition starts_identifier (s : string) : bool :=
  match s with
  | EmptyString => false
  | String c r =>
      name_start c
      || (Ascii.eqb c "-"
          && match r with
             | EmptyString => false
             | String c' _ => name_start c' || Ascii.eqb c' "-"
             end)
  end.

(** An identifier written without escapes, in ASCII. *)
Definition identifier (s : string) : bool :=
  all_name_chars s && starts_identifier s.

Inductive parsed : Type :=
| IdSelector (id : string)   (* the selector of the element with this id *)
| Invalid                    (* not a selector: SyntaxError *)
| NotCovered.

(** The selector text ["#" ++ id]. *)
Definition hash (id : string) : parsed :=
  if all_name_chars id
  then (if starts_identifier id then IdSelector id else Invalid)
  else NotCovered.

End Css.

(** ** The Data Document

    The shape of [data.json] as the renderer reads it.  A field the code
    tests before use is optional; [section.type] decides the shape of the
    payload. *)

Record contact : Type :=
  { label : string; url : string; icon : string }.

Record link : Type :=
  { link_text : string; link_url : string }.

Record subtitle : Type :=
  { sub_text : string; sub_links : option (list link) }.

Record detail : Type :=
  { detail_text : string;
    detail_link : option link;
    detail_tags : option (list string) }.

Record timeline_item : Type :=
  { item_title : string;
    item_subtitle : option subtitle;
    item_period : option string;
    item_details : option (list detail) }.

Record card : Type :=
  { card_title : string;
    card_content : string;
    card_tags : option (list string) }.

(** [items] of a contact section: a string (the sentinel is ["contacts"])
    or an inline array. *)
Inductive contact_items : Type :=
| ItemsString (s : string)
| ItemsArray (l : list contact).

(** The payload by section type.  [Categories] carries the members of the
    JSON object in the order of the text.  [Other] is a section of any
    other declared type, and carries no payload the renderer reads. *)
Inductive payload : Type :=
| Text (content : option string)
| Timeline (items : option (list timeline_item))
| Categories (items : option (list (string * list string)))
| Cards (items : option (list card))
| Contact (items : option contact_items)
| Other (type : string).

Record section : Type :=
  { id : string; title : string; body : payload }.

Definition section_type (s : section) : string :=
  match body s with
  | Text _ => "text"
  | Timeline _ => "timeline"
  | Categories _ => "categories"
  | Cards _ => "cards"
  | Contact _ => "contact"
  | Other t => t
  end.

Record meta : Type :=
  { meta_title : option string; meta_description : option string }.

Record personal : Type :=
  { name : option string;
    personal_title : option string;
    summary : option string }.

(** [theme.colors.primary], [theme.colors.primaryDark],
    [theme.fonts.primary], [theme.layout.containerWidth]; a value is absent
    when any object on the way to it is. *)
Record theme : Type :=
  { primary : option string;
    primaryDark : option string;
    fonts_primary : option string;
    containerWidth : option string }.

(** [navigation_enabled] is [config?.navigation?.enabled]: absent when any
    object on the way to it is. *)
Record document : Type :=
  { doc_meta : option meta;
    doc_personal : option personal;
    contacts : option (list contact);
    doc_theme : option theme;
    navigation_enabled : option bool;
    sections : option (list section) }.

(** Truthiness of the values the scripts test. *)
Definition truthy_string (s : option string) : bool :=
  match s with
  | Some v => negb (String.eqb v "")
  | None => false
  end.

Definition truthy_bool (b : option bool) : bool :=
  match b with Some true => true | _ => false end.

Definition nonempty {A} (l : option (list A)) : bool :=
  match l with Some (_ :: _) => true | _ => false end.

(** [`${v}`] and [el.innerHTML = v] for a value that may be [undefined]. *)
Definition to_string (s : option string) : string :=
  match s with Some v => v | None => "undefined" end.

(** ** Exceptions, diagnostics and the page state *)

Inductive exn : Type :=
| HttpError (status : nat)      (* thrown by loadData on !response.ok *)
| BodyNotJson                   (* response.json() rejects *)
| FetchFailed                   (* fetch() rejects *)
| TypeError (what : string)
| SyntaxError (selector : string).  (* querySelector on an invalid selector *)

Inductive diag : Type :=
| Warn (msg : string) (e : option exn)
| Err (msg : string) (e : option exn).

(** The page.  The title of the document is the text of its [title]
    element and lives in the tree.  What the style engine of the browser
    makes of a declaration is the browser's: [style_engine property text]
    is the value it stores for a non-empty [text] (trimmed, normalised),
    or nothing when it rejects [text] as a value of [property] and drops
    the assignment. *)
Record world : Type :=
  { root : node;                              (* document.documentElement *)
    style_vars : list (string * string);      (* root.style custom properties *)
    body_font : option string;                (* document.body.style.fontFamily *)
    style_engine : string -> string -> option string;
    console : list diag }.

(** How a piece of script ends.  [Unmodelled] marks an input on which
    the embedding stops: what the browser does there is not described,
    and nothing is stated about the script on such an input. *)
Inductive completion (A : Type) : Type :=
| Normal (a : A)
| Throw (e : exn)
| Unmodelled.
Arguments Throw {A} e.
Arguments Unmodelled {A}.

Definition M (A : Type) : Type := world -> completion A * world.

Definition ret {A} (a : A) : M A := fun w => (Normal a, w).

Definition bind {A B} (m : M A) (k : A -> M B) : M B :=
  fun w => match m w with
           | (Normal a, w') => k a w'
           | (Throw e, w') => (Throw e, w')
           | (Unmodelled, w') => (Unmodelled, w')
           end.

Definition throw {A} (e : exn) : M A := fun w => (Throw e, w).

Definition unmodelled {A} : M A := fun w => (Unmodelled, w).

(** [try { m } catch (e) { h e }]. *)
Definition try_catch {A} (m : M A) (h : exn -> M A) : M A :=
  fun w => match m w with
           | (Normal a, w') => (Normal a, w')
           | (Throw e, w') => h e w'
           | (Unmodelled, w') => (Unmodelled, w')
           end.

Declare Scope js_scope.
Delimit Scope js_scope with js.
Notation "x <- m ;; k" := (bind m (fun x => k))
  (at level 100, m at next level, right associativity) : js_scope.
Notation "m ;; k" := (bind m (fun _ => k))
  (at level 100, right associativity) : js_scope.
Local Open Scope js_scope.

Definition with_root (r : node) (w : world) : world :=
  {| root := r; style_vars := style_vars w; body_font := body_font w;
     style_engine := style_engine w; console := console w |}.

Definition with_console (c : list diag) (w : world) : world :=
  {| root := root w; style_vars := style_vars w; body_font := body_font w;
     style_engine := style_engine w; console := c |}.

Definition log (d : diag) : M unit :=
  fun w => (Normal tt, with_console (console w ++ [d]) w).

Definition get_root : M node := fun w => (Normal (root w), w).

Definition set_root (r : node) : M unit :=
  fun w => (Normal tt, with_root r w).

Fixpoint remove_attr (k : string) (a : list (string * string))
  : list (string * string) :=
  match a with
  | [] => []
  | (k', v) :: r =>
      if String.eqb k k' then remove_attr k r else (k', v) :: remove_attr k r
  end.

Definition with_style_vars (vars : list (string * string)) (w : world)
  : world :=
  {| root := root w; style_vars := vars; body_font := body_font w;
     style_engine := style_engine w; console := console w |}.

Definition with_body_font (f : option string) (w : world) : world :=
  {| root := root w; style_vars := style_vars w; body_font := f;
     style_engine := style_engine w; console := console w |}.

(** [root.style.setProperty(k, v)]: the empty string removes the
    declaration; a value the engine rejects leaves the declaration
    block as it is; otherwise the declaration holds what the engine
    stores. *)
Definition setProperty (k v : string) : M unit :=
  fun w =>
    (Normal tt,
     if String.eqb v "" then with_style_vars (remove_attr k (style_vars w)) w
     else match style_engine w k v with
          | Some stored =>
              with_style_vars (Dom.set_attr k stored (style_vars w)) w
          | None => w
          end).

(** [document.body.style.fontFamily = f], a declaration of
    [font-family] in the same way. *)
Definition set_font (f : string) : M unit :=
  fun w =>
    (Normal tt,
     if String.eqb f "" then with_body_font None w
     else match style_engine w "font-family" f with
          | Some stored => with_body_font (Some stored) w
          | None => w
          end).

(** [forEach] with a callback that may throw. *)
Fixpoint forEach {A} (f : A -> M unit) (l : list A) : M unit :=
  match l with
  | [] => ret tt
  | x :: r => f x ;; forEach f r
  end.

(** ** Objects as the engine enumerates and indexes them *)

Module JsObject.

Definition is_digit (c : ascii) : bool :=
  let n := nat_of_ascii c in ((48 <=? n)%nat && (n <=? 57)%nat)%bool.

Fixpoint all_digits (s : string) : bool :=
  match s with
  | EmptyString => true
  | String c r => is_digit c && all_digits r
  end.

Fixpoint value_aux (acc : N) (s : string) : N :=
  match s with
  | EmptyString => acc
  | String c r => value_aux (acc * 10 + (N_of_ascii c - 48)) r
  end.

(** An array index: the canonical decimal numeral of an integer from 0 to
    2^32 - 2.  (Longer numerals are ordinary names.) *)
Definition array_index (k : string) : option N :=
  match k with
  | EmptyString => None
  | String c r =>
      if all_digits k && (String.eqb k "0" || negb (Ascii.eqb c "0"))
         && (String.length k <=? 10)%nat
      then let v := value_aux 0 k in
           if (v <=? 4294967294)%N then Some v else None
      else None
  end.

Definition is_index (k : string) : bool :=
  match array_index k with Some _ => true | None => false end.

(** Building the object from the members of the JSON text: a repeated
    name keeps its first place and takes the last value. *)
Fixpoint define {V} (k : string) (v : V) (o : list (string * V))
  : list (string * V) :=
  match o with
  | [] => [(k, v)]
  | (k', v') :: r =>
      if String.eqb k k' then (k, v) :: r else (k', v') :: define k v r
  end.

Definition parse {V} (members : list (string * V)) : list (string * V) :=
  fold_left (fun o kv => define (fst kv) (snd kv) o) members [].

Fixpoint insert_index {V} (n : N) (kv : string * V)
         (sorted : list (N * (string * V))) : list (N * (string * V)) :=
  match sorted with
  | [] => [(n, kv)]
  | (m, kv') :: r =>
      if (n <=? m)%N then (n, kv) :: sorted
      else (m, kv') :: insert_index n kv r
  end.

Fixpoint indexed {V} (o : list (string * V)) : list (N * (string * V)) :=
  match o with
  | [] => []
  | kv :: r =>
      match array_index (fst kv) with
      | Some n => insert_index n kv (indexed r)
      | None => indexed r
      end
  end.

(** The order of the indexed entries. *)
Definition index_le {V} (x y : N * (string * V)) : Prop :=
  (fst x <= fst y)%N.

(** [Object.entries(o)]: the array indices in ascending numeric order,
    then the other names in the order of their creation. *)
Definition entries {V} (members : list (string * V)) : list (string * V) :=
  let o := parse members in
  map snd (indexed o) ++ filter (fun kv => negb (is_index (fst kv))) o.

End JsObject.

(** ** The renderer *)

Module PortfolioRenderer.

Import Dom.

(** What [this.renderers[section.type]] evaluates to.  The table is an
    object literal: besides its five own entries the lookup reaches the
    properties of [Object.prototype]. *)
Inductive renderer : Type :=
| TextRenderer | TimelineRenderer | CategoriesRenderer
| CardsRenderer | ContactRenderer.

Inductive inherited : Type :=
| Returns        (* callable, returns when called as a plain function *)
| Throws         (* callable, throws a TypeError on an undefined receiver *)
| NotCallable.   (* an object: calling it throws a TypeError *)

Inductive lookup : Type :=
| Registered (r : renderer)
| Inherited (v : inherited)
| Undefined.

Definition prototype : list (string * inherited) :=
  [ ("constructor", Returns);
    ("toString", Returns);
    ("toLocaleString", Throws);
    ("valueOf", Throws);
    ("hasOwnProperty", Throws);
    ("isPrototypeOf", Throws);
    ("propertyIsEnumerable", Throws);
    ("__defineGetter__", Throws);
    ("__defineSetter__", Throws);
    ("__lookupGetter__", Throws);
    ("__lookupSetter__", Throws);
    ("__proto__", NotCallable) ].

Fixpoint assoc {V} (k : string) (l : list (string * V)) : option V :=
  match l with
  | [] => None
  | (k', v) :: r => if String.eqb k k' then Some v else assoc k r
  end.

Definition renderers (type : string) : lookup :=
  if String.eqb type "text" then Registered TextRenderer
  else if String.eqb type "timeline" then Registered TimelineRenderer
  else if String.eqb type "categories" then Registered CategoriesRenderer
  else if String.eqb type "cards" then Registered CardsRenderer
  else if String.eqb type "contact" then Registered ContactRenderer
  else match assoc type prototype with
       | Some v => Inherited v
       | None => Undefined
       end.

(** *** Utility methods *)

Definition createElement (tag : string)
           (attributes : list (string * option string)) : node :=
  fold_left
    (fun element kv =>
       match snd kv with
       | None => element
       | Some value =>
           if String.eqb (fst kv) "textContent"
           then set_textContent value element
           else if String.eqb (fst kv) "innerHTML"
           then set_innerHTML value element
           else set_prop (fst kv) value element
       end)
    attributes (Element tag [] []).

(** [parent.innerHTML = ''] followed by one [appendChild] per item. *)
Definition refill {A} (mk : A -> node) (items : list A) (parent : node)
  : node :=
  fold_left (fun p x => appendChild (mk x) p) items (set_children [] parent).

(** A mutation of the first match, when there is one. *)
Definition modify (P : node -> bool) (g : node -> node) (r : node) : node :=
  match update P (fun n => (g n, tt)) r with
  | Some (r', _) => r'
  | None => r
  end.

(** The same below an element: [el.querySelector(sel)]. *)
Definition modify_desc (P : node -> bool) (g : node -> node) (n : node)
  : node :=
  match update_desc P (fun c => (g c, tt)) n with
  | Some (n', _) => n'
  | None => n
  end.

(** The selectors [setElementContent] is called with: a simple one, or
    two joined by the descendant combinator (['#about p']). *)
Inductive query : Type :=
| Simple (s : selector)
| Inside (ancestor s : selector).

Definition modify_query (q : query) (g : node -> node) (r : node) : node :=
  match q with
  | Simple s => modify (matches s) g r
  | Inside a b =>
      match update_under (matches a) (matches b) g false r with
      | Some r' => r'
      | None => r
      end
  end.

Definition setElementContent (q : query) (content : option string)
           (isHTML : bool) : M unit :=
  r <- get_root ;;
  if truthy_string content
  then set_root (modify_query q
                   (if isHTML then set_innerHTML (to_string content)
                    else set_textContent (to_string content)) r)
  else ret tt.

Definition target_of (c : contact) : option string :=
  if JsString.startsWith (url c) "http" then Some "_blank" else None.

(** *** Section renderers: each appends to the container *)

Definition section_content (s : section) : option string :=
  match body s with Text c => c | _ => None end.

Definition timeline_items (s : section) : option (list timeline_item) :=
  match body s with Timeline i => i | _ => None end.

Definition categories_items (s : section)
  : option (list (string * list string)) :=
  match body s with Categories i => i | _ => None end.

Definition cards_items (s : section) : option (list card) :=
  match body s with Cards i => i | _ => None end.

Definition contact_section_items (s : section) : option contact_items :=
  match body s with Contact i => i | _ => None end.

Definition renderTextSection (container : node) (s : section) : node :=
  let p := createElement "p" [] in
  let p := set_innerHTML (to_string (section_content s)) p in
  appendChild p container.

Definition dq : string := String (ascii_of_nat 34) EmptyString.

(** [`<a href="${url}" target="_blank">${text}</a>`]. *)
Definition anchorHtml (u t : string) : string :=
  "<a href=" ++ dq ++ u ++ dq ++ " target=" ++ dq ++ "_blank" ++ dq ++ ">"
  ++ t ++ "</a>".

Definition includes (s pat : string) : bool :=
  match JsString.split_first pat s with Some _ => true | None => false end.

Definition renderLinkedText (text : string) (links : list link) : string :=
  fold_left
    (fun result l =>
       let linkHtml := anchorHtml (link_url l) (link_text l) in
       if includes text "(" && includes text ")"
       then JsString.replace result (link_text l) linkHtml
       else JsString.replace result (link_text l) linkHtml)
    links text.

Definition techStack (tags : list string) : string :=
  "Tech Stack: " ++ JsString.join ", " tags.

Definition tags_of (t : option (list string)) : list string :=
  match t with Some l => l | None => [] end.

(** One list entry.  The link comes by [li.innerHTML += s]: the markup
    just assigned is read back and parsed again with the link behind
    it. *)
Definition renderDetail (d : detail) : node :=
  let li := createElement "li" [] in
  let li := set_innerHTML (detail_text d) li in
  let li := match detail_link d with
            | Some l =>
                append_innerHTML (detail_text d)
                  (" (" ++ anchorHtml (link_url l) (link_text l) ++ ")") li
            | None => li
            end in
  if nonempty (detail_tags d)
  then appendChild
         (createElement "em"
            [("textContent", Some (techStack (tags_of (detail_tags d))))])
         (appendChild (createElement "br" []) li)
  else li.

Definition renderTimelineItem (item : timeline_item) : node :=
  let itemDiv := createElement "div" [("className", Some "job")] in
  let itemDiv :=
    appendChild
      (createElement "h3" [("textContent", Some (item_title item))])
      itemDiv in
  let itemDiv :=
    match item_subtitle item with
    | Some st =>
        let h4 := createElement "h4" [] in
        let h4 :=
          match sub_links st with
          | Some (l :: ls) =>
              set_innerHTML (renderLinkedText (sub_text st) (l :: ls)) h4
          | _ => set_textContent (sub_text st) h4
          end in
        appendChild h4 itemDiv
    | None => itemDiv
    end in
  let itemDiv :=
    if truthy_string (item_period item)
    then appendChild
           (createElement "p" [("className", Some "date");
                               ("textContent", item_period item)])
           itemDiv
    else itemDiv in
  match item_details item with
  | Some (d :: ds) =>
      let ul := createElement "ul" [] in
      let ul := fold_left (fun ul d => appendChild (renderDetail d) ul)
                          (d :: ds) ul in
      appendChild ul itemDiv
  | _ => itemDiv
  end.

Definition renderTimelineSection (container : node) (s : section) : node :=
  match timeline_items s with
  | None => container
  | Some items =>
      fold_left (fun c item => appendChild (renderTimelineItem item) c)
                items container
  end.

Definition categoryLine (entry : string * list string) : node :=
  let p := createElement "p" [] in
  set_innerHTML
    ("<strong>" ++ fst entry ++ ":</strong> "
     ++ JsString.join ", " (snd entry)) p.

Definition renderCategoriesSection (container : node) (s : section)
  : node :=
  match categories_items s with
  | None => container
  | Some items =>
      fold_left (fun c entry => appendChild (categoryLine entry) c)
                (JsObject.entries items) container
  end.

Definition renderCard (item : card) : node :=
  let cardDiv := createElement "div" [("className", Some "project")] in
  let cardDiv :=
    appendChild
      (createElement "h3" [("textContent", Some (card_title item))])
      cardDiv in
  let cardDiv :=
    appendChild
      (createElement "p" [("textContent", Some (card_content item))])
      cardDiv in
  if nonempty (card_tags item)
  then let tagP := createElement "p" [] in
       let tagP :=
         appendChild
           (createElement "em"
              [("textContent", Some (techStack (tags_of (card_tags item))))])
           tagP in
       appendChild tagP cardDiv
  else cardDiv.

Definition renderCardsSection (container : node) (s : section) : node :=
  match cards_items s with
  | None => container
  | Some items =>
      fold_left (fun c item => appendChild (renderCard item) c)
                items container
  end.

(** [section.items === 'contacts' ? this.data.contacts : section.items],
    and what [if (contacts) contacts.forEach(...)] finds there. *)
Inductive resolved : Type :=
| ContactList (l : list contact)
| Nothing          (* undefined or the empty string: falsy *)
| NotAnArray.      (* a non-empty string: it has no forEach *)

Definition resolveContacts (d : document) (s : section) : resolved :=
  match contact_section_items s with
  | Some (ItemsString str) =>
      if String.eqb str "contacts"
      then match contacts d with
           | Some l => ContactList l
           | None => Nothing
           end
      else if String.eqb str "" then Nothing else NotAnArray
  | Some (ItemsArray l) => ContactList l
  | None => Nothing
  end.

(** One entry of the contact section: an icon and a labelled link. *)
Definition contactEntry (c : contact) : node :=
  let p := createElement "p" [] in
  let p := appendChild (createElement "i" [("className", Some (icon c))]) p in
  let a := createElement "a" [("href", Some (url c));
                              ("textContent", Some (label c));
                              ("target", target_of c)] in
  appendChild a p.

(** The block the contact renderer builds for a list of contacts. *)
Definition contactLinksDiv (l : list contact) : node :=
  Element "div" [("class", "contact-links")] (map contactEntry l).

Definition renderContactSection (d : document) (container : node)
           (s : section) : node * option exn :=
  let contactLinksDiv :=
    createElement "div" [("className", Some "contact-links")] in
  match resolveContacts d s with
  | ContactList l =>
      let contactLinksDiv :=
        fold_left (fun div c => appendChild (contactEntry c) div)
                  l contactLinksDiv in
      (appendChild contactLinksDiv container, None)
  | Nothing => (appendChild contactLinksDiv container, None)
  | NotAnArray =>
      (container, Some (TypeError "contacts.forEach is not a function"))
  end.

Definition call (r : renderer) (d : document) (container : node)
           (s : section) : node * option exn :=
  match r with
  | TextRenderer => (renderTextSection container s, None)
  | TimelineRenderer => (renderTimelineSection container s, None)
  | CategoriesRenderer => (renderCategoriesSection container s, None)
  | CardsRenderer => (renderCardsSection container s, None)
  | ContactRenderer => renderContactSection d container s
  end.

(** What a renderer appends, read off an empty container. *)
Definition appended (r : renderer) (d : document) (s : section)
  : list node :=
  children_of (fst (call r d (Element "div" [] []) s)).

Definition thrown (r : renderer) (d : document) (s : section)
  : option exn :=
  snd (call r d (Element "div" [] []) s).

(** *** The render pass *)

(** [document.head]: the first [head] child of the root element, when
    that is an [html] element; [null] otherwise.  [append_in_head m cs]
    appends [m] to the first [head] among the children [cs]. *)
Fixpoint append_in_head (m : node) (cs : list node) : option (list node) :=
  match cs with
  | [] => None
  | Element t a k :: r =>
      if String.eqb t "head" then Some (Element t a (k ++ [m]) :: r)
      else option_map (cons (Element t a k)) (append_in_head m r)
  | c :: r => option_map (cons c) (append_in_head m r)
  end.

(** The document after [document.head.appendChild(m)], when there is a
    head. *)
Definition head_append (m : node) (r : node) : option node :=
  match r with
  | Element t a cs =>
      if String.eqb t "html"
      then option_map (Element t a) (append_in_head m cs)
      else None
  | _ => None
  end.

Definition head_appendChild (m : node) : M unit :=
  r <- get_root ;;
  match head_append m r with
  | Some r' => set_root r'
  | None => throw (TypeError "document.head is null")
  end.

(** The document after [document.title = t]: the text becomes the only
    child of the first [title] element of the document; without one, a
    new [title] element holding the text is appended to the head; without
    a head either, nothing happens. *)
Definition retitle (t : string) (r : node) : node :=
  match update (matches (ByTag "title"))
               (fun e => (set_textContent t e, tt)) r with
  | Some (r', _) => r'
  | None =>
      match head_append (set_textContent t (Element "title" [] [])) r with
      | Some r' => r'
      | None => r
      end
  end.

Definition set_title (t : string) : M unit :=
  r <- get_root ;; set_root (retitle t r).

(** [meta[name="description"]]. *)
Definition isDescription : node -> bool :=
  matches (ByTagAttr "meta" "name" "description").

(** The tag [updateMeta] creates for a description. *)
Definition descriptionTag (v : string) : node :=
  let meta := createElement "meta" [] in
  let meta := set_prop "name" "description" meta in
  set_prop "content" v meta.

(** The description branch of [updateMeta]. *)
Definition setDescription (v : string) : M unit :=
  r <- get_root ;;
  match update isDescription
               (fun metaDesc => (set_prop "content" v metaDesc, tt)) r with
  | Some (r', _) => set_root r'
  | None => head_appendChild (descriptionTag v)
  end.

Definition updateMeta (d : document) : M unit :=
  match doc_meta d with
  | None => ret tt
  | Some m =>
      (if truthy_string (meta_title m)
       then set_title (to_string (meta_title m)) else ret tt) ;;
      if truthy_string (meta_description m)
      then setDescription (to_string (meta_description m))
      else ret tt
  end.

(** The document [setDescription] leaves. *)
Definition describe (v : string) (r : node) : node :=
  match update isDescription
               (fun metaDesc => (set_prop "content" v metaDesc, tt)) r with
  | Some (r', _) => r'
  | None =>
      match head_append (descriptionTag v) r with
      | Some r' => r'
      | None => r
      end
  end.

(** One link of the header strip. *)
Definition headerContact (c : contact) : node :=
  let a := createElement "a" [("href", Some (url c));
                              ("className", Some "contact-link");
                              ("target", target_of c)] in
  let a := appendChild (createElement "i" [("className", Some (icon c))]) a in
  appendChild (createElement "span" [("textContent", Some (label c))]) a.

(** One paragraph of the contact block. *)
Definition contactLink (c : contact) : node :=
  let p := createElement "p" [] in
  let p := appendChild (createElement "i" [("className", Some (icon c))]) p in
  let p := appendChild (TextNode " ") p in
  let a := createElement "a" [("href", Some (url c));
                              ("textContent", Some (label c));
                              ("target", target_of c)] in
  appendChild a p.

Definition renderContacts (d : document) : M unit :=
  r <- get_root ;;
  (match contacts d with
   | Some cs =>
       set_root (modify (matches (ById "header-contacts"))
                        (refill headerContact cs) r)
   | None => ret tt
   end) ;;
  r <- get_root ;;
  match contacts d with
  | Some cs =>
      set_root (modify (matches (ById "contact-links"))
                       (refill contactLink cs) r)
  | None => ret tt
  end.

Definition renderHeader (d : document) : M unit :=
  match doc_personal d with
  | None => ret tt
  | Some p =>
      setElementContent (Simple (ByClass "name")) (name p) false ;;
      setElementContent (Simple (ByClass "title")) (personal_title p)
                        false ;;
      setElementContent (Inside (ById "about") (ByTag "p")) (summary p)
                        true ;;
      renderContacts d
  end.

(** The heading step: the container is emptied, an [h2] found in it
    before is relabelled and put back; without one a new [h2] is made. *)
Definition resetContainer (s : section) (container : node) : node :=
  let h2 := find_desc (matches (ByTag "h2")) container in
  let container := set_children [] container in
  match h2 with
  | Some h2 => appendChild (set_textContent (title s) h2) container
  | None =>
      let newH2 := createElement "h2" [("textContent", Some (title s))] in
      appendChild newH2 container
  end.

(** What happens to the container of a section: the new container, the
    diagnostics and the exception thrown, if any. *)
Definition renderContainer (d : document) (s : section) (container : node)
  : node * (list diag * option exn) :=
  let container := resetContainer s container in
  match renderers (section_type s) with
  | Registered r =>
      let (c, e) := call r d container s in (c, ([], e))
  | Inherited Returns => (container, ([], None))
  | Inherited _ =>
      (container, ([], Some (TypeError "renderer is not a function")))
  | Undefined =>
      (container,
       ([Warn ("No renderer found for section type: " ++ section_type s)
              None], None))
  end.

(** What the callback leaves in the container: the heading, then what
    the renderer of the type appended, if there is one. *)
Definition heading_of (s : section) (container : node) : node :=
  match find_desc (matches (ByTag "h2")) container with
  | Some h2 => set_textContent (title s) h2
  | None => createElement "h2" [("textContent", Some (title s))]
  end.

Definition extra (d : document) (s : section) : list node :=
  match renderers (section_type s) with
  | Registered r => appended r d s
  | _ => []
  end.

(** The callback of [renderSections] on one section.  The mount point is
    looked up with the selector [`#${section.id}`]. *)
Definition renderSection (d : document) (s : section) : M unit :=
  match Css.hash (id s) with
  | Css.Invalid => throw (SyntaxError ("#" ++ id s))
  | Css.NotCovered => unmodelled
  | Css.IdSelector i =>
      r <- get_root ;;
      match update (matches (ById i))
                   (fun sectionElement =>
                      match update_desc (matches (ByClass "container"))
                                        (renderContainer d s)
                                        sectionElement with
                      | Some (el, x) => (el, Some x)
                      | None => (sectionElement, None)
                      end) r with
      | Some (r', Some (diags, e)) =>
          set_root r' ;;
          forEach log diags ;;
          match e with
          | Some e => throw e
          | None => ret tt
          end
      | _ => ret tt
      end
  end.

Definition renderSections (d : document) : M unit :=
  match sections d with
  | None => ret tt
  | Some l => forEach (renderSection d) l
  end.

Definition navEntry (s : section) : node :=
  let li := createElement "li" [] in
  let a := createElement "a" [("href", Some ("#" ++ id s)%string);
                              ("className", Some "nav-link");
                              ("textContent", Some (title s))] in
  appendChild a li.

Definition nullData {A} : M A :=
  throw (TypeError "Cannot read properties of null").

Definition generateNavigation (data : option document) : M unit :=
  match data with
  | None => nullData
  | Some d =>
      if negb (truthy_bool (navigation_enabled d))
      then ret tt
      else match sections d with
           | None => ret tt
           | Some l =>
               r <- get_root ;;
               set_root (modify (matches (ByClass "nav-menu"))
                                (refill navEntry l) r)
           end
  end.

Definition applyTheme (data : option document) : M unit :=
  match data with
  | None => nullData
  | Some d =>
      match doc_theme d with
      | None => ret tt
      | Some t =>
          (if truthy_string (primary t)
           then setProperty "--accent-color" (to_string (primary t))
           else ret tt) ;;
          (if truthy_string (primaryDark t)
           then setProperty "--dark-accent-color" (to_string (primaryDark t))
           else ret tt) ;;
          (if truthy_string (fonts_primary t)
           then set_font (to_string (fonts_primary t))
           else ret tt) ;;
          if truthy_string (containerWidth t)
          then setProperty "--container-width" (to_string (containerWidth t))
          else ret tt
      end
  end.

(** [initializeNavigation] registers click and scroll listeners and moves
    the [active] class token between navigation links according to the
    viewport and the URL hash.  Its whole body is guarded, so it never
    throws; listeners, the viewport and that token are outside the markup
    modelled here. *)
Definition initializeNavigation : M unit := ret tt.

Definition renderPortfolio (data : option document) : M unit :=
  match data with
  | None => ret tt
  | Some d =>
      updateMeta d ;;
      renderHeader d ;;
      renderSections d ;;
      generateNavigation data ;;
      initializeNavigation
  end.

(** *** Loading *)

Inductive response_body : Type :=
| NotJson                       (* response.json() rejects *)
| JsonNull                      (* the text [null] *)
| JsonDocument (d : document).

Inductive fetch_result : Type :=
| Rejected                                        (* fetch() rejects *)
| Response (ok : bool) (status : nat) (b : response_body).

(** [loadData]: the value assigned to [this.data]. *)
Definition loadData (f : fetch_result) : M (option document) :=
  try_catch
    (match f with
     | Rejected => throw FetchFailed
     | Response ok status b =>
         if negb ok then throw (HttpError status)
         else match b with
              | NotJson => throw BodyNotJson
              | JsonNull => ret None
              | JsonDocument d => ret (Some d)
              end
     end)
    (fun e => log (Warn "Could not load data.json:" (Some e)) ;; throw e).

Definition load_fails (f : fetch_result) : bool :=
  match f with
  | Rejected => true
  | Response ok _ b =>
      negb ok || match b with NotJson => true | _ => false end
  end.

(** The exception a failing load throws. *)
Definition load_error (f : fetch_result) : exn :=
  match f with
  | Rejected => FetchFailed
  | Response ok status _ => if negb ok then HttpError status else BodyNotJson
  end.

(** [init], run from the constructor with [this.data = null]. *)
Definition init (f : fetch_result) : M unit :=
  try_catch
    (data <- loadData f ;;
     renderPortfolio data ;;
     applyTheme data ;;
     generateNavigation data)
    (fun e => log (Err "Failed to initialize portfolio:" (Some e))).

End PortfolioRenderer.

(** ** The theme manager

    The same class stands in [script.js] and beside the renderer; the two
    copies differ only in a transition style [toggleTheme] sets on the body
    for 300ms, which is not part of the state kept here. *)

Module ThemeManager.

(** [localStorage]: out of reach (every access throws), or holding what
    [getItem('theme')] returns. *)
Inductive storage : Type :=
| Unavailable
| Available (theme : option string).

Record state : Type :=
  { currentTheme : string;                (* this.currentTheme *)
    localStorage : storage;
    prefers_dark : option bool;           (* matchMedia(...).matches *)
    data_theme : option string;           (* <html data-theme> *)
    theme_icon : option string;           (* className of #theme-icon *)
    warnings : list string }.

Definition warn (msg : string) (s : state) : state :=
  {| currentTheme := currentTheme s; localStorage := localStorage s;
     prefers_dark := prefers_dark s; data_theme := data_theme s;
     theme_icon := theme_icon s; warnings := warnings s ++ [msg] |}.

Definition set_current (t : string) (s : state) : state :=
  {| currentTheme := t; localStorage := localStorage s;
     prefers_dark := prefers_dark s; data_theme := data_theme s;
     theme_icon := theme_icon s; warnings := warnings s |}.

Definition setAttribute (t : string) (s : state) : state :=
  {| currentTheme := currentTheme s; localStorage := localStorage s;
     prefers_dark := prefers_dark s; data_theme := Some t;
     theme_icon := theme_icon s; warnings := warnings s |}.

Definition setItem (t : string) (s : state) : state :=
  match localStorage s with
  | Available _ =>
      {| currentTheme := currentTheme s; localStorage := Available (Some t);
         prefers_dark := prefers_dark s; data_theme := data_theme s;
         theme_icon := theme_icon s; warnings := warnings s |}
  | Unavailable => warn "Could not save theme preference:" s
  end.

Definition getDefaultTheme (s : state) : string * state :=
  let fallback (s : state) :=
    match prefers_dark s with
    | Some true => ("dark", s)
    | _ => ("light", s)
    end in
  match localStorage s with
  | Available (Some storedTheme) =>
      if negb (String.eqb storedTheme "") then (storedTheme, s)
      else fallback s
  | Available None => fallback s
  | Unavailable => fallback (warn "localStorage not available:" s)
  end.

Definition setTheme (theme : string) (savePreference : bool) (s : state)
  : state :=
  let s := setAttribute theme s in
  let s := if savePreference then setItem theme s else s in
  set_current theme s.

Definition updateThemeIcon (s : state) : state :=
  match theme_icon s with
  | Some _ =>
      {| currentTheme := currentTheme s; localStorage := localStorage s;
         prefers_dark := prefers_dark s; data_theme := data_theme s;
         theme_icon :=
           Some (if String.eqb (currentTheme s) "dark"
                 then "fas fa-sun" else "fas fa-moon");
         warnings := warnings s |}
  | None => s
  end.

Definition init (s : state) : state :=
  let (hasStoredPreference, s) :=
    match localStorage s with
    | Available (Some _) => (true, s)
    | Available None => (false, s)
    | Unavailable => (false, warn "Could not check stored preference:" s)
    end in
  let s := setTheme (currentTheme s) hasStoredPreference s in
  updateThemeIcon s.

(** [new ThemeManager()]. *)
Definition construct (s : state) : state :=
  let (t, s) := getDefaultTheme s in
  init (set_current t s).

Definition toggleTheme (s : state) : state :=
  let newTheme :=
    if String.eqb (currentTheme s) "light" then "dark" else "light" in
  let s := setTheme newTheme true s in
  updateThemeIcon s.

(** The listener of the system preference; [matches] is [e.matches]. *)
Definition handleSystemThemeChange (matches : bool) (s : state) : state :=
  let (hasStoredTheme, s) :=
    match localStorage s with
    | Available (Some t) => (negb (String.eqb t ""), s)
    | Available None => (false, s)
    | Unavailable => (false, warn "Could not check stored theme:" s)
    end in
  if hasStoredTheme then s
  else
    let newTheme := if matches then "dark" else "light" in
    let s := set_current newTheme s in
    let s := setTheme newTheme false s in
    updateThemeIcon s.

(** The page before the script runs. *)
Definition fresh (st : storage) (dark : option bool) (icon : option string)
  : state :=
  {| currentTheme := ""; localStorage := st; prefers_dark := dark;
     data_theme := None; theme_icon := icon; warnings := [] |}.

(** What happens to the manager after construction. *)
Inductive event : Type :=
| Toggle                          (* a click on the theme toggle *)
| SystemChange (matches : bool).  (* the system preference changes *)

Definition handle (s : state) (e : event) : state :=
  match e with
  | Toggle => toggleTheme s
  | SystemChange m => handleSystemThemeChange m s
  end.

Definition run (events : list event) (s : state) : state :=
  fold_left handle events s.

(** The two values the manager itself ever writes. *)
Definition theme_value (t : string) : Prop := t = "light" \/ t = "dark".

End ThemeManager.

(** ** The manager and the page in step *)

Module ThemeInvariant.
Import ThemeManager.

(** What holds of the manager at every moment after its construction. *)
Definition settled (s : state) : Prop :=
  data_theme s = Some (currentTheme s)
  /\ currentTheme s <> ""
  /\ (forall t, localStorage s = Available (Some t) -> t = currentTheme s)
  /\ (forall c, theme_icon s = Some c ->
                c = if String.eqb (currentTheme s) "dark"
                    then "fas fa-sun" else "fas fa-moon").

End ThemeInvariant.

(** ** The mobile menu

    [MobileNav] of [script.js]: the toggle button and the navigation bar
    carry the class token [active] while the menu is open, and the body
    does not scroll then.  (The copy beside the renderer holds the menu
    element where this one holds the bar; the methods are the same.) *)

Module MobileNav.

(** [classList]: an ordered set of tokens. *)
Definition contains (t : string) (l : list string) : bool :=
  existsb (String.eqb t) l.

Definition add (t : string) (l : list string) : list string :=
  if contains t l then l else l ++ [t].

Definition remove (t : string) (l : list string) : list string :=
  filter (fun x => negb (String.eqb t x)) l.

Definition toggle_token (t : string) (l : list string) : list string :=
  if contains t l then remove t l else add t l.

(** An element the script looked up when it was loaded is there or not;
    when it is, its class list is what the methods touch. *)
Record state : Type :=
  { isOpen : bool;                          (* this.isOpen *)
    navToggle : option (list string);       (* .nav-toggle *)
    navbar : option (list string);          (* .navbar *)
    overflow : string }.                    (* document.body.style.overflow *)

Definition toggle (s : state) : state :=
  match navbar s, navToggle s with
  | Some bar, Some button =>
      let isOpen' := negb (isOpen s) in
      {| isOpen := isOpen';
         navToggle := Some (toggle_token "active" button);
         navbar := Some (toggle_token "active" bar);
         overflow := if isOpen' then "hidden" else "" |}
  | _, _ => s
  end.

Definition close (s : state) : state :=
  match navbar s, navToggle s with
  | Some bar, Some button =>
      {| isOpen := false;
         navToggle := Some (remove "active" button);
         navbar := Some (remove "active" bar);
         overflow := "" |}
  | _, _ => s
  end.

(** Where a click lands.  [init] registers its listeners only when both
    elements exist: the button toggles, a navigation link closes, and a
    click outside the bar and the button closes an open menu. *)
Inductive click : Type :=
| OnToggle
| OnLink
| Outside
| InsideBar.

Definition listening (s : state) : bool :=
  match navToggle s, navbar s with
  | Some _, Some _ => true
  | _, _ => false
  end.

Definition handle (s : state) (c : click) : state :=
  if listening s
  then match c with
       | OnToggle => toggle s
       | OnLink => close s
       | Outside => if isOpen s then close s else s
       | InsideBar => s
       end
  else s.

Definition run (clicks : list click) (s : state) : state :=
  fold_left handle clicks s.

(** [new MobileNav()] on a page with the given elements. *)
Definition construct (button bar : option (list string)) (o : string)
  : state :=
  {| isOpen := false; navToggle := button; navbar := bar; overflow := o |}.

(** The menu state and the page agree. *)
Definition agrees (s : state) : Prop :=
  match navToggle s, navbar s with
  | Some button, Some bar =>
      contains "active" button = isOpen s
      /\ contains "active" bar = isOpen s
      /\ overflow s = (if isOpen s then "hidden" else "")
  | _, _ => True
  end.

End MobileNav.

(** ** Pages and documents the pass cannot fail on *)

Module Conformance.
Import Dom PortfolioRenderer.

(** [document.head] is there. *)
Definition has_head (r : node) : bool :=
  match r with
  | Element root _ cs =>
      String.eqb root "html"
      && existsb (fun c => match c with
                           | Element t _ _ => String.eqb t "head"
                           | _ => false
                           end) cs
  | _ => false
  end.

(** A section no renderer throws on: its type is one of the five or is
    unknown to the table, and the items of a contact section are the
    sentinel, an array or absent. *)
Definition renderable (s : section) : bool :=
  match body s with
  | Other t =>
      match renderers t with
      | Inherited Throws | Inherited NotCallable => false
      | Registered _ | Inherited Returns | Undefined => true
      end
  | Contact (Some (ItemsString str)) =>
      String.eqb str "contacts" || String.eqb str ""
  | _ => true
  end.

(** The exception the callback of [renderSections] ends with on a section
    whose container it found. *)
Definition failure (d : document) (s : section) : option exn :=
  match renderers (section_type s) with
  | Registered r => thrown r d s
  | Inherited Returns => None
  | Inherited _ => Some (TypeError "renderer is not a function")
  | Undefined => None
  end.

(** The diagnostics of the callback on such a section. *)
Definition diagnostics (s : section) : list diag :=
  match renderers (section_type s) with
  | Undefined =>
      [Warn ("No renderer found for section type: " ++ section_type s) None]
  | _ => []
  end.

(** An action that leaves the style variables and the body font alone. *)
Definition keeps_styles {A} (m : M A) : Prop :=
  forall w,
    style_vars (snd (m w)) = style_vars w
    /\ body_font (snd (m w)) = body_font w.

(** An action that never throws. *)
Definition total {A} (m : M A) : Prop :=
  forall w, exists a, fst (m w) = Normal a.

End Conformance.

(** ** Places: where the pass writes

    The render pass is a sequence of steps; each looks an element up and
    rewrites it.  A place is the path of an element from the root, child
    index by child index. *)

Module Place.
Import Dom PortfolioRenderer.

Definition path : Type := list nat.

(** The node at a path. *)
Fixpoint sub (p : path) (n : node) : option node :=
  match p with
  | [] => Some n
  | i :: q =>
      match nth_error (children_of n) i with
      | Some c => sub q c
      | None => None
      end
  end.

Fixpoint map_nth (i : nat) (f : node -> node) (l : list node) : list node :=
  match l with
  | [] => []
  | c :: r =>
      match i with
      | O => f c :: r
      | S k => c :: map_nth k f r
      end
  end.

(** The tree with the node at a path rewritten. *)
Fixpoint graft (p : path) (g : node -> node) (n : node) : node :=
  match p with
  | [] => g n
  | i :: q =>
      match n with
      | Element t a cs => Element t a (map_nth i (graft q g) cs)
      | _ => n
      end
  end.

(** [prefix p q]: the place [q] is the place [p] or lies below it. *)
Fixpoint prefix (p q : path) : bool :=
  match p, q with
  | [], _ => true
  | i :: p', j :: q' => Nat.eqb i j && prefix p' q'
  | _ :: _, [] => false
  end.

Definition shift (p : path) : path :=
  match p with
  | i :: q => S i :: q
  | [] => []
  end.

Section Locate.
Variable P : node -> bool.

(** The place of the first match in document order: where [find] finds
    it. *)
Fixpoint locate (n : node) : option path :=
  if P n then Some []
  else match n with
       | Element _ _ cs =>
           (fix go (l : list node) : option path :=
              match l with
              | [] => None
              | c :: r => match locate c with
                          | Some p => Some (0 :: p)
                          | None => option_map shift (go r)
                          end
              end) cs
       | _ => None
       end.

Fixpoint locate_list (l : list node) : option path :=
  match l with
  | [] => None
  | c :: r => match locate c with
              | Some p => Some (0 :: p)
              | None => option_map shift (locate_list r)
              end
  end.
End Locate.

Section Under.
Variables A B : node -> bool.

(** The place [update_under] rewrites. *)
Fixpoint locate_under (inside : bool) (n : node) : option path :=
  if inside && B n then Some []
  else match n with
       | Element _ _ cs =>
           let inside' := inside || A n in
           (fix go (l : list node) : option path :=
              match l with
              | [] => None
              | c :: r => match locate_under inside' c with
                          | Some p => Some (0 :: p)
                          | None => option_map shift (go r)
                          end
              end) cs
       | _ => None
       end.

Fixpoint locate_under_list (inside : bool) (l : list node) : option path :=
  match l with
  | [] => None
  | c :: r => match locate_under inside c with
              | Some p => Some (0 :: p)
              | None => option_map shift (locate_under_list inside r)
              end
  end.

(** The path meets an element that satisfies [A], at its end or on the
    way to it. *)
Fixpoint under (p : path) (n : node) : bool :=
  A n
  || match p with
     | [] => false
     | i :: q =>
         match nth_error (children_of n) i with
         | Some c => under q c
         | None => false
         end
     end.
End Under.

Fixpoint head_index (cs : list node) : option nat :=
  match cs with
  | [] => None
  | Element t _ _ :: r =>
      if String.eqb t "head" then Some 0 else option_map S (head_index r)
  | _ :: r => option_map S (head_index r)
  end.

(** The place of [document.head]. *)
Definition head_place (r : node) : option path :=
  match r with
  | Element t _ cs =>
      if String.eqb t "html"
      then option_map (fun i => [i]) (head_index cs)
      else None
  | _ => None
  end.

(** The lookups of the pass. *)
Inductive lookup : Type :=
| First (s : selector)         (* document.querySelector(s) *)
| Below (a b : selector)       (* document.querySelector('a b') *)
| Within (a b : selector)      (* document.querySelector(a).querySelector(b) *)
| FirstOrHead (s : selector).  (* the first s; the head when there is none *)

Definition place (l : lookup) (r : node) : option path :=
  match l with
  | First s => locate (matches s) r
  | Below a b => locate_under (matches a) (matches b) false r
  | Within a b =>
      match locate (matches a) r with
      | Some p =>
          match sub p r with
          | Some el =>
              option_map (app p) (locate_list (matches b) (children_of el))
          | None => None
          end
      | None => None
      end
  | FirstOrHead s =>
      match locate (matches s) r with
      | Some p => Some p
      | None => head_place r
      end
  end.

(** Whether the step that wrote to the element [x] it looked up replaced
    the children of [x]: always, except when it appended to the head. *)
Definition clears (l : lookup) (x : node) : bool :=
  match l with
  | FirstOrHead s => matches s x
  | _ => true
  end.

(** A step of the pass: the lookup, what becomes of the element found,
    the nodes the step creates, whether the script throws after the
    write, and whether it throws when nothing is found.  [Halt] is a step
    that throws at once. *)
Inductive step : Type :=
| Fill (l : lookup) (g : node -> node) (made : list node)
       (throws needed : bool)
| Halt.

(** The page after a step, and whether the pass stops there. *)
Definition run (s : step) (r : node) : node * bool :=
  match s with
  | Halt => (r, true)
  | Fill l g _ throws needed =>
      match place l r with
      | Some p => (graft p g r, throws)
      | None => (r, needed)
      end
  end.

Fixpoint exec (l : list step) (r : node) : node * bool :=
  match l with
  | [] => (r, false)
  | s :: rest =>
      let (r', halted) := run s r in
      if halted then (r', true) else exec rest r'
  end.

(** *** The steps of [renderPortfolio] *)

Definition guarded (field : option string) (s : string -> step)
  : list step :=
  if truthy_string field then [s (to_string field)] else [].

Definition titleNode (t : string) : node :=
  set_textContent t (Element "title" [] []).

Definition title_step (t : string) : step :=
  Fill (FirstOrHead (ByTag "title"))
       (fun x => if matches (ByTag "title") x then set_textContent t x
                 else appendChild (titleNode t) x)
       (titleNode t :: text_children t) false false.

Definition description_step (v : string) : step :=
  Fill (FirstOrHead (ByTagAttr "meta" "name" "description"))
       (fun x => if isDescription x then set_prop "content" v x
                 else appendChild (descriptionTag v) x)
       [descriptionTag v] false true.

Definition content_step (q : query) (isHTML : bool) (v : string) : step :=
  Fill (match q with
        | Simple s => First s
        | Inside a b => Below a b
        end)
       (if isHTML then set_innerHTML v else set_textContent v)
       (if isHTML then markup_children v else text_children v)
       false false.

Definition strip_step (i : string) (mk : contact -> node)
           (cs : list contact) : step :=
  Fill (First (ById i)) (refill mk cs) (map mk cs) false false.

Definition section_step (d : document) (s : section) : step :=
  match Css.hash (id s) with
  | Css.IdSelector i =>
      Fill (Within (ById i) (ByClass "container"))
           (fun c => fst (renderContainer d s c))
           (createElement "h2" [("textContent", Some (title s))]
              :: extra d s)
           (match Conformance.failure d s with
            | Some _ => true
            | None => false
            end)
           false
  | _ => Halt
  end.

Definition menu_step (l : list section) : step :=
  Fill (First (ByClass "nav-menu")) (refill navEntry l) (map navEntry l)
       false false.

Definition meta_steps (d : document) : list step :=
  match doc_meta d with
  | Some m =>
      guarded (meta_title m) title_step
      ++ guarded (meta_description m) description_step
  | None => []
  end.

Definition header_steps (d : document) : list step :=
  match doc_personal d with
  | Some p =>
      guarded (name p) (content_step (Simple (ByClass "name")) false)
      ++ guarded (personal_title p)
           (content_step (Simple (ByClass "title")) false)
      ++ guarded (summary p)
           (content_step (Inside (ById "about") (ByTag "p")) true)
      ++ match contacts d with
         | Some cs => [strip_step "header-contacts" headerContact cs;
                       strip_step "contact-links" contactLink cs]
         | None => []
         end
  | None => []
  end.

Definition section_steps (d : document) : list step :=
  match sections d with
  | Some l => map (section_step d) l
  | None => []
  end.

Definition menu_steps (d : document) : list step :=
  if truthy_bool (navigation_enabled d)
  then match sections d with
       | Some l => [menu_step l]
       | None => []
       end
  else [].

Definition steps (d : document) : list step :=
  meta_steps d ++ header_steps d ++ section_steps d ++ menu_steps d.

(** *** Steps that leave the lookups of each other alone *)

Definition is_none {A} (o : option A) : bool :=
  match o with Some _ => false | None => true end.

(** No element of the tree [m] is one the lookup selects by, and [m]
    is no head when the lookup falls back on the head. *)
Definition unmatched (l : lookup) (m : node) : bool :=
  match l with
  | First s => is_none (locate (matches s) m)
  | FirstOrHead s =>
      is_none (locate (matches s) m) && negb (matches (ByTag "head") m)
  | Within a b =>
      is_none (locate (matches a) m) && is_none (locate (matches b) m)
  | Below a b =>
      is_none (locate (matches a) m)
      && is_none (locate_under (matches a) (matches b) false m)
  end.

(** What a lookup depends on: its place, or the element it found first
    when it found nothing below that. *)
Definition anchor (l : lookup) (r : node) : option path :=
  match place l r, l with
  | None, Within a _ => locate (matches a) r
  | o, _ => o
  end.

(** The writer leaves the lookup of the reader alone on the page [r]:
    nothing the writer creates is selected by the reader; what the
    reader depends on is not the place whose children the writer
    replaces, nor below it; and when the reader selects below elements
    that satisfy a selector, the writer does not write at or below such
    an element. *)
Definition undisturbed (r : node) (reader writer : step) : bool :=
  match reader, writer with
  | Fill l _ _ _ _, Fill l' _ made' _ _ =>
      forallb (unmatched l) made'
      && match l, place l' r with
         | Below a _, Some p => negb (under (matches a) p r)
         | _, _ => true
         end
      && match anchor l r, place l' r with
         | Some q, Some p =>
             match sub p r with
             | Some x => negb (clears l' x && prefix p q)
             | None => true
             end
         | _, _ => true
         end
  | _, _ => true
  end.

Fixpoint undisturbed_by (r : node) (s : step) (others : list step) : bool :=
  match others with
  | [] => true
  | o :: rest =>
      undisturbed r s o && undisturbed r o s && undisturbed_by r s rest
  end.

(** No step of the list disturbs the lookup of another. *)
Fixpoint steady (r : node) (l : list step) : bool :=
  match l with
  | [] => true
  | s :: rest => undisturbed_by r s rest && steady r rest
  end.

(** The section ids of the document are covered by the selector
    fragment. *)
Definition covered (d : document) : bool :=
  match sections d with
  | Some l =>
      forallb (fun s => match Css.hash (id s) with
                        | Css.NotCovered => false
                        | _ => true
                        end) l
  | None => true
  end.

(** *** What the steps of the pass have in common *)

(** The node at a path that starts among the nodes of a list, and the
    list with that node rewritten. *)
Definition sub_list (p : path) (l : list node) : option node :=
  match p with
  | i :: q => match nth_error l i with
              | Some c => sub q c
              | None => None
              end
  | [] => None
  end.

Definition graft_list (p : path) (g : node -> node) (l : list node)
  : list node :=
  match p with
  | i :: q => map_nth i (graft q g) l
  | [] => l
  end.

(** [update_under] on the nodes of a list. *)
Fixpoint update_under_list (A B : node -> bool) (f : node -> node)
         (inside : bool) (l : list node) : option (list node) :=
  match l with
  | [] => None
  | c :: r =>
      match update_under A B f inside c with
      | Some c' => Some (c' :: r)
      | None => option_map (cons c) (update_under_list A B f inside r)
      end
  end.

(** The selectors whose verdict on an element does not depend on its
    [content] attribute: all the selectors of the pass. *)
Definition plain_selector (s : selector) : bool :=
  match s with
  | ByTagAttr _ k _ => negb (String.eqb k "content")
  | _ => true
  end.

Definition plain_lookup (l : lookup) : bool :=
  match l with
  | First s | FirstOrHead s => plain_selector s
  | Below a b | Within a b => plain_selector a && plain_selector b
  end.

(** No plain selector tells the two nodes apart. *)
Definition alike (x y : node) : Prop :=
  forall s, plain_selector s = true -> matches s y = matches s x.

(** [c] is an [h2] element of the old content, its children replaced by
    text. *)
Definition heading (c : node) (old : list node) : Prop :=
  exists u a ks ks',
    sub_list u old = Some (Element "h2" a ks)
    /\ c = Element "h2" a ks'
    /\ forallb (fun k => negb (is_element k)) ks' = true.

(** What every step of the pass does to the element it looked up: it
    keeps the tag and what plain selectors see of the attributes; it
    either keeps the children or replaces them by nodes it made and a
    relabelled heading, and then a second application changes nothing;
    or it appends one node it made, one its lookup selects and its
    rewriting leaves as it is. *)
Definition sound (s : step) : Prop :=
  match s with
  | Halt => True
  | Fill l g made _ _ =>
      plain_lookup l = true
      /\ (forall t a cs,
            clears l (Element t a cs) = true ->
            exists a' cs',
              g (Element t a cs) = Element t a' cs'
              /\ alike (Element t a cs) (Element t a' cs')
              /\ (cs' = cs
                  \/ Forall (fun c => In c made \/ heading c cs) cs')
              /\ g (Element t a' cs') = Element t a' cs')
      /\ (forall t a cs,
            clears l (Element t a cs) = false ->
            exists m,
              In m made
              /\ g (Element t a cs) = Element t a (cs ++ [m])
              /\ is_element m = true
              /\ clears l m = true
              /\ g m = m)
  end.

(** What the lookup of a step depends on is on the page [r1] as it was
    on the page [r]. *)
Definition kept (r r1 : node) (s : step) : Prop :=
  match s with
  | Halt => True
  | Fill l _ _ _ _ =>
      place l r1 = place l r
      /\ anchor l r1 = anchor l r
      /\ forall q y,
           place l r = Some q -> sub q r = Some y ->
           exists y',
             sub q r1 = Some y'
             /\ alike y y'
             /\ forall a, plain_selector a = true ->
                          under (matches a) q r1 = under (matches a) q r
  end.

(** Two steps that leave the lookups of each other alone. *)
Definition calm (r : node) (s o : step) : bool :=
  undisturbed r s o && undisturbed r o s.

(** Whether a completion ends the pass. *)
Definition stopped {A} (c : completion A) : bool :=
  match c with
  | Normal _ => false
  | _ => true
  end.

(** The action does to the page what the steps do, and it completes
    abruptly where they halt. *)
Definition implements (a : M unit) (l : list step) : Prop :=
  forall w,
    root (snd (a w)) = fst (exec l (root w))
    /\ stopped (fst (a w)) = snd (exec l (root w)).

End Place.

(** * A sample page and sample documents *)

Module Sample.
Import Dom PortfolioRenderer.

Definition el (t : string) (a : list (string * string)) (cs : list node)
  : node := Element t a cs.

(** A style engine for the examples: it rejects a value that starts with
    a digit as a font family, and stores every other value as it is. *)
Definition engine (property text : string) : option string :=
  match text with
  | String c _ =>
      if String.eqb property "font-family" && Css.is_digit c then None
      else Some text
  | EmptyString => Some text
  end.

(** A skeleton with a navigation menu, a header, a section with a
    container and a static heading, and a section without a container. *)
Definition page : node :=
  el "html" []
    [ el "head" [] [ el "title" [] [TextNode "Static"] ];
      el "body" []
        [ el "ul" [("class", "nav-menu")]
             [ el "li" [] [TextNode "Home"] ];
          el "h1" [("class", "name")] [TextNode "Static name"];
          el "div" [("id", "header-contacts")] [];
          el "section" [("id", "about")]
             [ el "div" [("class", "container")]
                  [ el "p" [] [TextNode "intro"];
                    el "h2" [("class", "heading")] [TextNode "About"];
                    el "p" [] [TextNode "static text"] ] ];
          el "section" [("id", "bare")] [ el "p" [] [TextNode "bare"] ];
          el "section" [("id", "plain")]
             [ el "div" [("class", "wide container")]
                  [ el "p" [] [TextNode "no heading"] ] ] ] ].

(** A skeleton whose first [.title] element stands inside a section
    container, with another one in the navigation menu. *)
Definition page2 : node :=
  el "html" []
    [ el "head" [] [];
      el "body" []
        [ el "section" [("id", "work")]
             [ el "div" [("class", "container")]
                  [ el "h2" [] [TextNode "Work"];
                    el "h3" [("class", "title")] [TextNode "Engineer"] ] ];
          el "ul" [("class", "nav-menu")]
             [ el "li" [("class", "title")] [TextNode "Home"] ] ] ].

Definition world2 : world :=
  {| root := page2; style_vars := []; body_font := None;
     style_engine := engine; console := [] |}.

Definition doc2 : document :=
  {| doc_meta := None;
     doc_personal :=
       Some {| name := None; personal_title := Some "Developer";
               summary := None |};
     contacts := None; doc_theme := None; navigation_enabled := None;
     sections :=
       Some [ {| id := "work"; title := "Work";
                 body := Text (Some "Jobs") |} ] |}.

Definition world0 : world :=
  {| root := page; style_vars := []; body_font := None;
     style_engine := engine; console := [] |}.

Definition sec (i t : string) (b : payload) : section :=
  {| id := i; title := t; body := b |}.

Definition doc (nav : option bool) (cs : option (list contact))
           (ss : option (list section)) : document :=
  {| doc_meta := None; doc_personal := None; contacts := cs;
     doc_theme := None; navigation_enabled := nav; sections := ss |}.

Definition mail : contact :=
  {| label := "Mail"; url := "mailto:a@b.com"; icon := "fa-envelope" |}.

Definition site : contact :=
  {| label := "Site"; url := "https://a.example"; icon := "fa-globe" |}.

Definition gallery : section := sec "about" "Gallery" (Other "gallery").
Definition missing : section := sec "nowhere" "Missing" (Text (Some "x")).
Definition bare : section := sec "bare" "Bare" (Text (Some "x")).
Definition about : section := sec "about" "About me" (Text (Some "<b>Hi</b>")).
Definition plain : section := sec "plain" "Plain" (Text (Some "text")).

(** A section named after a year, and a page that holds an element of
    that id. *)
Definition y2024 : section := sec "2024" "Archive" (Text (Some "x")).

Definition archive : node :=
  el "html" []
    [ el "head" [] [];
      el "body" []
        [ el "section" [("id", "2024")] [ el "p" [] [TextNode "archive"] ] ] ].

Definition world3 : world :=
  {| root := archive; style_vars := []; body_font := None;
     style_engine := engine; console := [] |}.

(** A page that holds an element of that id with a container. *)
Definition annual : node :=
  el "html" []
    [ el "head" [] [];
      el "body" []
        [ el "section" [("id", "2024")]
             [ el "div" [("class", "container")]
                  [ el "p" [] [TextNode "archive"] ] ] ] ].

Definition world5 : world :=
  {| root := annual; style_vars := []; body_font := None;
     style_engine := engine; console := [] |}.

(** A link whose url holds two dollar signs in a row. *)
Definition priced : link :=
  {| link_text := "Acme"; link_url := "https://x.io/?p=$$1" |}.

Definition years : list (string * list string) :=
  [ ("2024", ["Go"; "SQL"]); ("2023", ["C"]) ].

Definition abc : list section :=
  [ sec "a" "A" (Text None); sec "b" "B" (Text None);
    sec "c" "C" (Text None) ].

(** A skeleton on which every step of the pass has an element of its
    own: the header elements, the strips and the menu stand outside the
    sections, and [#about] holds the summary paragraph only. *)
Definition tidy : node :=
  el "html" []
    [ el "head" [] [ el "title" [] [TextNode "Static"] ];
      el "body" []
        [ el "ul" [("class", "nav-menu")]
             [ el "li" [] [TextNode "Home"] ];
          el "h1" [("class", "name")] [TextNode "Static name"];
          el "p" [("class", "title")] [];
          el "div" [("id", "about")]
             [ el "p" [] [TextNode "static summary"] ];
          el "div" [("id", "header-contacts")] [];
          el "div" [("id", "contact-links")] [];
          el "section" [("id", "work")]
             [ el "div" [("class", "container")]
                  [ el "p" [] [TextNode "intro"];
                    el "h2" [("class", "heading")] [TextNode "Work"];
                    el "p" [] [TextNode "static text"] ] ];
          el "section" [("id", "bare")] [ el "p" [] [TextNode "bare"] ];
          el "section" [("id", "plain")]
             [ el "div" [("class", "wide container")]
                  [ el "p" [] [TextNode "no heading"] ] ] ] ].

Definition world4 : world :=
  {| root := tidy; style_vars := []; body_font := None;
     style_engine := engine; console := [] |}.

End Sample.

(** * More sample documents *)

Module Sample2.
Import Dom PortfolioRenderer.

(** A document whose second section names a property of
    [Object.prototype] as its type. *)
Definition broken : document :=
  {| doc_meta := None; doc_personal := None; contacts := None;
     doc_theme :=
       Some {| primary := Some "#ff0000"; primaryDark := None;
               fonts_primary := None; containerWidth := None |};
     navigation_enabled := Some true;
     sections :=
       Some [ Sample.about;
              Sample.sec "plain" "Plain" (Other "__proto__");
              Sample.bare ] |}.

(** A document that keeps to the schema. *)
Definition resume : document :=
  {| doc_meta :=
       Some {| meta_title := Some "Jo"; meta_description := Some "CV" |};
     doc_personal :=
       Some {| name := Some "Jo"; personal_title := None;
               summary := Some "" |};
     contacts := Some [Sample.mail; Sample.site];
     doc_theme :=
       Some {| primary := Some "#ff0000"; primaryDark := None;
               fonts_primary := Some "Inter"; containerWidth := Some "" |};
     navigation_enabled := Some true;
     sections :=
       Some [ Sample.about;
              Sample.sec "plain" "Contact"
                (Contact (Some (ItemsString "contacts")));
              Sample.gallery ] |}.

(** A document with a title, a description, a header, contacts, a menu
    and four sections: one for a container with a static heading, one
    for a container without, one for a mount point without a container
    and one without a mount point. *)
Definition cv : document :=
  {| doc_meta :=
       Some {| meta_title := Some "Jo"; meta_description := Some "CV" |};
     doc_personal :=
       Some {| name := Some "Jo"; personal_title := Some "Dev";
               summary := Some "<i>Hi</i>" |};
     contacts := Some [Sample.mail; Sample.site];
     doc_theme := None;
     navigation_enabled := Some true;
     sections :=
       Some [ Sample.sec "work" "Work" (Text (Some "<b>Hi</b>"));
              Sample.sec "plain" "Contact"
                (Contact (Some (ItemsString "contacts")));
              Sample.bare;
              Sample.missing ] |}.

End Sample2.

(** * Facts about the document tree *)

Section NodeInduction.
Variable Q : node -> Prop.
Hypothesis HElement :
  forall t a cs, Forall Q cs -> Q (Element t a cs).
Hypothesis HText : forall s, Q (TextNode s).
Hypothesis HMarkup : forall s, Q (Markup s).

Fixpoint node_ind2 (n : node) : Q n :=
  match n with
  | Element t a cs =>
      HElement t a
        ((fix all (l : list node) : Forall Q l :=
            match l with
            | [] => Forall_nil Q
            | c :: r => Forall_cons c (node_ind2 c) (all r)
            end) cs)
  | TextNode s => HText s
  | Markup s => HMarkup s
  end.
End NodeInduction.

Module DomFacts.
Import Dom.

Section Walk.
Variable P : node -> bool.

Lemma find_Element t a cs :
  find P (Element t a cs) =
  if P (Element t a cs) then Some (Element t a cs) else find_list P cs.
Proof.
  simpl. destruct (P (Element t a cs)); [reflexivity|].
  induction cs as [|c r IH]; simpl; [reflexivity|].
  destruct (find P c); [reflexivity|exact IH].
Qed.

Lemma find_leaf n :
  is_element n = false ->
  find P n = if P n then Some n else None.
Proof. destruct n; simpl; intros H; try discriminate; reflexivity. Qed.

Lemma update_Element X (f : node -> node * X) t a cs :
  update P f (Element t a cs) =
  if P (Element t a cs) then Some (f (Element t a cs))
  else match update_list P f cs with
       | Some (cs', x) => Some (Element t a cs', x)
       | None => None
       end.
Proof.
  simpl. destruct (P (Element t a cs)); [reflexivity|].
  match goal with
  | |- match ?l with _ => _ end = match ?r with _ => _ end =>
      assert (E : l = r); [|rewrite E; reflexivity]
  end.
  induction cs as [|c r IH]; simpl; [reflexivity|].
  destruct (update P f c) as [[c' x]|]; [reflexivity|].
  rewrite IH. reflexivity.
Qed.

Lemma update_leaf X (f : node -> node * X) n :
  is_element n = false ->
  update P f n = if P n then Some (f n) else None.
Proof. destruct n; simpl; intros H; try discriminate; reflexivity. Qed.

(** [update] finds what [find] finds. *)
Lemma update_None X (f : node -> node * X) n :
  find P n = None -> update P f n = None.
Proof.
  induction n as [t a cs IH| |] using node_ind2.
  - rewrite find_Element, update_Element.
    destruct (P (Element t a cs)); [discriminate|].
    intros H.
    assert (E : update_list P f cs = None).
    { induction IH as [|c r Hc _ IHr]; simpl in *; [reflexivity|].
      destruct (find P c) eqn:Ec; [discriminate|].
      rewrite (Hc eq_refl), (IHr H). reflexivity. }
    rewrite E. reflexivity.
  - rewrite find_leaf, update_leaf by reflexivity.
    destruct (P (TextNode s)); [discriminate|reflexivity].
  - rewrite find_leaf, update_leaf by reflexivity.
    destruct (P (Markup s)); [discriminate|reflexivity].
Qed.

Lemma update_list_None X (f : node -> node * X) l :
  find_list P l = None -> update_list P f l = None.
Proof.
  induction l as [|c r IH]; simpl; [reflexivity|].
  destruct (find P c) eqn:Ec; [discriminate|].
  intros H. rewrite (update_None f _ Ec), (IH H). reflexivity.
Qed.

(** When the rewriting leaves the match as it was, the tree is as it
    was. *)
Lemma update_same X (f : node -> node * X) n e :
  find P n = Some e -> fst (f e) = e ->
  update P f n = Some (n, snd (f e)).
Proof.
  revert e.
  induction n as [t a cs IH| |] using node_ind2; intros e.
  - rewrite find_Element, update_Element.
    destruct (P (Element t a cs)).
    + intros [= <-] H. rewrite <- H at 2. destruct (f _); reflexivity.
    + intros H Hf.
      assert (E : update_list P f cs = Some (cs, snd (f e))).
      { induction IH as [|c r Hc _ IHr]; simpl in *; [discriminate|].
        destruct (find P c) eqn:Ec.
        - injection H as <-. rewrite (Hc _ eq_refl Hf). reflexivity.
        - rewrite (update_None f _ Ec), (IHr H). reflexivity. }
      rewrite E. reflexivity.
  - rewrite find_leaf, update_leaf by reflexivity.
    destruct (P (TextNode s)); [|discriminate].
    intros [= <-] H. rewrite <- H at 2. destruct (f _); reflexivity.
  - rewrite find_leaf, update_leaf by reflexivity.
    destruct (P (Markup s)); [|discriminate].
    intros [= <-] H. rewrite <- H at 2. destruct (f _); reflexivity.
Qed.

Lemma find_self n : P n = true -> find P n = Some n.
Proof.
  intros H. destruct n; simpl; rewrite H; reflexivity.
Qed.

Lemma update_self X (f : node -> node * X) n :
  P n = true -> update P f n = Some (f n).
Proof.
  intros H. destruct n; simpl; rewrite H; reflexivity.
Qed.

(** What [update] returns is what the rewriting reports at the match. *)
Lemma update_Some X (f : node -> node * X) n e :
  find P n = Some e ->
  exists n', update P f n = Some (n', snd (f e)).
Proof.
  revert e.
  induction n as [t a cs IH| |] using node_ind2; intros e.
  - rewrite find_Element, update_Element.
    destruct (P (Element t a cs)).
    + intros [= <-]. destruct (f _) as [n' x]. eexists; reflexivity.
    + intros H.
      assert (E : exists cs', update_list P f cs = Some (cs', snd (f e))).
      { induction IH as [|c r Hc _ IHr]; simpl in *; [discriminate|].
        destruct (find P c) eqn:Ec.
        - injection H as <-. destruct (Hc _ eq_refl) as [c' ->].
          eexists; reflexivity.
        - rewrite (update_None f _ Ec).
          destruct (IHr H) as [r' ->]. eexists; reflexivity. }
      destruct E as [cs' ->]. eexists; reflexivity.
  - rewrite find_leaf, update_leaf by reflexivity.
    destruct (P (TextNode s)); [|discriminate].
    intros [= <-]. destruct (f _). eexists; reflexivity.
  - rewrite find_leaf, update_leaf by reflexivity.
    destruct (P (Markup s)); [|discriminate].
    intros [= <-]. destruct (f _). eexists; reflexivity.
Qed.

Lemma update_ext X (f g : node -> node * X) n :
  (forall m, f m = g m) -> update P f n = update P g n.
Proof.
  intros E.
  induction n as [t a cs IH| |] using node_ind2.
  - rewrite !update_Element, E.
    destruct (P (Element t a cs)); [reflexivity|].
    assert (EL : update_list P f cs = update_list P g cs).
    { induction IH as [|c r Hc _ IHr]; simpl; [reflexivity|].
      rewrite Hc, IHr. reflexivity. }
    rewrite EL. reflexivity.
  - rewrite !update_leaf, E by reflexivity. reflexivity.
  - rewrite !update_leaf, E by reflexivity. reflexivity.
Qed.

(** Only the rewriting of the match counts. *)
Lemma update_const X (f : node -> node * X) n e :
  find P n = Some e -> update P f n = update P (fun _ => f e) n.
Proof.
  revert e.
  induction n as [t a cs IH| |] using node_ind2; intros e.
  - rewrite find_Element, !update_Element.
    destruct (P (Element t a cs)); [intros [= <-]; reflexivity|].
    intros H.
    assert (EL : update_list P f cs = update_list P (fun _ => f e) cs).
    { induction IH as [|c r Hc _ IHr]; simpl in *; [discriminate|].
      destruct (find P c) eqn:Ec.
      - injection H as <-. rewrite (Hc _ eq_refl).
        destruct (update_Some (fun _ => f n) _ Ec) as [c' ->].
        reflexivity.
      - rewrite !(update_None _ _ Ec), (IHr H). reflexivity. }
    rewrite EL. reflexivity.
  - simpl. destruct (P (TextNode s)); [intros [= <-]; reflexivity|].
    reflexivity.
  - simpl. destruct (P (Markup s)); [intros [= <-]; reflexivity|].
    reflexivity.
Qed.

Lemma update_list_const X (f : node -> node * X) l e :
  find_list P l = Some e ->
  update_list P f l = update_list P (fun _ => f e) l.
Proof.
  induction l as [|c r IH]; simpl; [discriminate|].
  destruct (find P c) eqn:Ec.
  - intros [= <-]. rewrite (update_const f _ Ec).
    destruct (update_Some (fun _ => f n) _ Ec) as [c' ->]. reflexivity.
  - intros H. rewrite !(update_None _ _ Ec), (IH H). reflexivity.
Qed.

(** The tree [update] returns depends on the rewritten node only. *)
Lemma update_fst X Y (f : node -> node * X) (g : node -> node * Y) n :
  (forall m, fst (f m) = fst (g m)) ->
  option_map fst (update P f n) = option_map fst (update P g n).
Proof.
  intros E.
  induction n as [t a cs IH| |] using node_ind2.
  - rewrite !update_Element.
    destruct (P (Element t a cs)); [simpl; f_equal; apply E|].
    assert (EL : option_map fst (update_list P f cs)
                 = option_map fst (update_list P g cs)).
    { induction IH as [|c r Hc _ IHr]; simpl; [reflexivity|].
      destruct (update P f c) as [[c1 x1]|], (update P g c) as [[c2 x2]|];
        simpl in Hc; try discriminate.
      - injection Hc as ->. reflexivity.
      - destruct (update_list P f r) as [[r1 y1]|],
                 (update_list P g r) as [[r2 y2]|];
          simpl in IHr; try discriminate; [|reflexivity].
        injection IHr as ->. reflexivity. }
    destruct (update_list P f cs) as [[l1 y1]|],
             (update_list P g cs) as [[l2 y2]|];
      simpl in EL; try discriminate; [|reflexivity].
    injection EL as ->. reflexivity.
  - rewrite !update_leaf by reflexivity.
    destruct (P (TextNode s)); [simpl; f_equal; apply E|reflexivity].
  - rewrite !update_leaf by reflexivity.
    destruct (P (Markup s)); [simpl; f_equal; apply E|reflexivity].
Qed.

Lemma update_list_fst X Y (f : node -> node * X) (g : node -> node * Y)
      l :
  (forall m, fst (f m) = fst (g m)) ->
  option_map fst (update_list P f l) = option_map fst (update_list P g l).
Proof.
  intros E. induction l as [|c r IH]; simpl; [reflexivity|].
  pose proof (update_fst f g c E) as Hc.
  destruct (update P f c) as [[c1 x1]|], (update P g c) as [[c2 x2]|];
    simpl in Hc; try discriminate.
  - injection Hc as ->. reflexivity.
  - destruct (update_list P f r) as [[r1 y1]|],
             (update_list P g r) as [[r2 y2]|];
      simpl in IH; try discriminate; [|reflexivity].
    injection IH as ->. reflexivity.
Qed.

(** The selectors look at the tag and the attributes only. *)
Hypothesis P_shallow :
  forall t a cs cs', P (Element t a cs) = P (Element t a cs').

(** A rewriting that keeps the match a match leaves it the first
    match. *)
Lemma find_update X (f : node -> node * X) n e n' x :
  find P n = Some e -> update P f n = Some (n', x) ->
  P (fst (f e)) = true ->
  find P n' = Some (fst (f e)).
Proof.
  revert e n' x.
  induction n as [t a cs IH| |] using node_ind2; intros e n' x.
  - rewrite find_Element, update_Element.
    destruct (P (Element t a cs)) eqn:EP.
    + intros [= <-] [= E] HP. rewrite E in HP. simpl in HP.
      rewrite E. simpl. apply find_self, HP.
    + intros H U HP.
      destruct (update_list P f cs) as [[cs' y]|] eqn:EU; [|discriminate].
      injection U as <- <-.
      rewrite find_Element, (P_shallow t a cs' cs), EP.
      clear EP. revert cs' EU H.
      induction IH as [|c r Hc _ IHr]; intros cs' EU H; simpl in *;
        [discriminate|].
      destruct (find P c) eqn:Ec.
      * injection H as <-.
        destruct (update P f c) as [[c' z]|] eqn:Uc.
        -- injection EU as <- <-. simpl.
           rewrite (Hc _ _ _ eq_refl eq_refl HP). reflexivity.
        -- destruct (update_Some f _ Ec) as [c' Hc']. congruence.
      * rewrite (update_None f _ Ec) in EU.
        destruct (update_list P f r) as [[r' z]|] eqn:Ur; [|discriminate].
        injection EU as <- <-. simpl. rewrite Ec.
        apply (IHr _ eq_refl H).
  - rewrite find_leaf, update_leaf by reflexivity.
    destruct (P (TextNode s)); [|discriminate].
    intros [= <-] [= E] HP. rewrite E in HP. simpl in HP.
    rewrite E. simpl. apply find_self, HP.
  - rewrite find_leaf, update_leaf by reflexivity.
    destruct (P (Markup s)); [|discriminate].
    intros [= <-] [= E] HP. rewrite E in HP. simpl in HP.
    rewrite E. simpl. apply find_self, HP.
Qed.

(** Two rewritings in a row at a match that stays a match are one
    rewriting. *)
Lemma update_update X Y (f : node -> node * X) (g : node -> node * Y)
      n e n1 x :
  find P n = Some e -> update P f n = Some (n1, x) ->
  P (fst (f e)) = true ->
  update P g n1 = update P (fun _ => g (fst (f e))) n.
Proof.
  revert e n1 x.
  induction n as [t a cs IH| |] using node_ind2; intros e n1 x.
  - rewrite find_Element, !update_Element.
    destruct (P (Element t a cs)) eqn:EP.
    + intros [= <-] [= E] HP. rewrite E in HP |- *. simpl in *.
      apply update_self, HP.
    + intros H U HP.
      destruct (update_list P f cs) as [[cs' y]|] eqn:EU; [|discriminate].
      injection U as <- <-.
      rewrite update_Element, (P_shallow t a cs' cs), EP.
      assert (EL : update_list P g cs' =
                   update_list P (fun _ => g (fst (f e))) cs).
      { clear EP. revert cs' EU H.
        induction IH as [|c r Hc _ IHr]; intros cs' EU H; simpl in *;
          [discriminate|].
        destruct (find P c) eqn:Ec.
        - injection H as <-.
          destruct (update P f c) as [[c' z]|] eqn:Uc.
          + injection EU as <- <-. simpl.
            rewrite (Hc _ _ _ eq_refl eq_refl HP).
            destruct (update_Some (fun _ => g (fst (f n))) _ Ec)
              as [c2 ->].
            reflexivity.
          + destruct (update_Some f _ Ec) as [c' Hc']. congruence.
        - rewrite (update_None f _ Ec) in EU.
          destruct (update_list P f r) as [[r' z]|] eqn:Ur;
            [|discriminate].
          injection EU as <- <-. simpl.
          rewrite (update_None g _ Ec), (update_None _ _ Ec).
          rewrite (IHr _ eq_refl H). reflexivity. }
      rewrite EL. reflexivity.
  - simpl. destruct (P (TextNode s)); [|discriminate].
    intros [= <-] [= E] HP. rewrite E in HP |- *. simpl in *.
    apply update_self, HP.
  - simpl. destruct (P (Markup s)); [|discriminate].
    intros [= <-] [= E] HP. rewrite E in HP |- *. simpl in *.
    apply update_self, HP.
Qed.

(** The same facts for a list of siblings. *)
Lemma update_list_Some X (f : node -> node * X) l e :
  find_list P l = Some e ->
  exists l', update_list P f l = Some (l', snd (f e)).
Proof.
  induction l as [|c r IH]; simpl; [discriminate|].
  destruct (find P c) eqn:Ec.
  - intros [= <-]. destruct (update_Some f _ Ec) as [c' ->].
    eexists; reflexivity.
  - intros H. rewrite (update_None f _ Ec).
    destruct (IH H) as [r' ->]. eexists; reflexivity.
Qed.

Lemma update_list_same X (f : node -> node * X) l e :
  find_list P l = Some e -> fst (f e) = e ->
  update_list P f l = Some (l, snd (f e)).
Proof.
  induction l as [|c r IH]; simpl; [discriminate|].
  destruct (find P c) eqn:Ec.
  - intros [= <-] Hf. rewrite (update_same f _ Ec Hf). reflexivity.
  - intros H Hf. rewrite (update_None f _ Ec), (IH H Hf). reflexivity.
Qed.

Lemma find_list_update X (f : node -> node * X) l e l' x :
  find_list P l = Some e -> update_list P f l = Some (l', x) ->
  P (fst (f e)) = true ->
  find_list P l' = Some (fst (f e)).
Proof.
  revert l'.
  induction l as [|c r IH]; intros l'; simpl; [discriminate|].
  destruct (find P c) eqn:Ec.
  - intros [= <-] U HP.
    destruct (update P f c) as [[c' z]|] eqn:Uc.
    + injection U as <- <-. simpl.
      rewrite (find_update f _ Ec Uc HP). reflexivity.
    + destruct (update_Some f _ Ec) as [c' Hc']. congruence.
  - intros H U HP. rewrite (update_None f _ Ec) in U.
    destruct (update_list P f r) as [[r' z]|] eqn:Ur; [|discriminate].
    injection U as <- <-. simpl. rewrite Ec.
    apply (IH _ H eq_refl HP).
Qed.

Lemma update_list_update X Y (f : node -> node * X)
      (g : node -> node * Y) l e l1 x :
  find_list P l = Some e -> update_list P f l = Some (l1, x) ->
  P (fst (f e)) = true ->
  update_list P g l1 = update_list P (fun _ => g (fst (f e))) l.
Proof.
  revert l1.
  induction l as [|c r IH]; intros l1; simpl; [discriminate|].
  destruct (find P c) eqn:Ec.
  - intros [= <-] U HP.
    destruct (update P f c) as [[c' z]|] eqn:Uc.
    + injection U as <- <-. simpl.
      rewrite (update_update f g _ Ec Uc HP).
      destruct (update_Some (fun _ => g (fst (f n))) _ Ec) as [c2 ->].
      reflexivity.
    + destruct (update_Some f _ Ec) as [c' Hc']. congruence.
  - intros H U HP. rewrite (update_None f _ Ec) in U.
    destruct (update_list P f r) as [[r' z]|] eqn:Ur; [|discriminate].
    injection U as <- <-. simpl.
    rewrite (update_None g _ Ec), (update_None _ _ Ec).
    rewrite (IH _ H eq_refl HP). reflexivity.
Qed.

Lemma update_list_ext X (f g : node -> node * X) l :
  (forall m, f m = g m) -> update_list P f l = update_list P g l.
Proof.
  intros E. induction l as [|c r IH]; simpl; [reflexivity|].
  rewrite (update_ext _ _ c E), IH. reflexivity.
Qed.
End Walk.

Lemma matches_shallow sel t a cs cs' :
  matches sel (Element t a cs) = matches sel (Element t a cs').
Proof. reflexivity. Qed.

Lemma matches_set_children sel cs n :
  matches sel (set_children cs n) = matches sel n.
Proof. destruct n; reflexivity. Qed.

Lemma matches_element sel n :
  matches sel n = true -> exists t a cs, n = Element t a cs.
Proof. destruct n; simpl; try discriminate; eauto. Qed.

Lemma find_matches P n e : find P n = Some e -> P e = true.
Proof.
  revert e. induction n as [t a cs IH| |] using node_ind2; intros e.
  - rewrite find_Element. destruct (P (Element t a cs)) eqn:EP.
    + intros [= <-]. exact EP.
    + clear EP. induction IH as [|c r Hc _ IHr]; simpl; [discriminate|].
      destruct (find P c) eqn:Ec; [intros [= <-]; eauto|exact IHr].
  - simpl. destruct (P (TextNode s)) eqn:EP; [|discriminate].
    intros [= <-]. exact EP.
  - simpl. destruct (P (Markup s)) eqn:EP; [|discriminate].
    intros [= <-]. exact EP.
Qed.

Lemma find_list_matches P l e : find_list P l = Some e -> P e = true.
Proof.
  induction l as [|c r IH]; simpl; [discriminate|].
  destruct (find P c) eqn:Ec; [intros [= <-]; eapply find_matches; eauto|].
  exact IH.
Qed.

(** Appending one by one is appending the list. *)
Lemma fold_appendChild A (mk : A -> node) l t a cs :
  fold_left (fun p x => appendChild (mk x) p) l (Element t a cs)
  = Element t a (cs ++ map mk l).
Proof.
  revert cs. induction l as [|x r IH]; intros cs; simpl.
  - rewrite app_nil_r. reflexivity.
  - rewrite IH, <- app_assoc. reflexivity.
Qed.

End DomFacts.

(** * The renderer: skipping and failing *)

Module RenderFacts.
Import Dom DomFacts PortfolioRenderer.

Lemma with_root_same w : with_root (root w) w = w.
Proof. destruct w; reflexivity. Qed.

Lemma update_desc_None X P (f : node -> node * X) n :
  find_desc P n = None -> update_desc P f n = None.
Proof.
  destruct n as [t a cs| |]; simpl; try reflexivity.
  unfold find_desc; simpl. intros H.
  rewrite (update_list_None P f cs H). reflexivity.
Qed.

Lemma update_desc_Some X P (f : node -> node * X) n c :
  find_desc P n = Some c ->
  exists n', update_desc P f n = Some (n', snd (f c)).
Proof.
  destruct n as [t a cs| |]; unfold find_desc; simpl; try discriminate.
  intros H. destruct (update_list_Some P f cs H) as [l' ->].
  eexists; reflexivity.
Qed.

Lemma forEach_log ds w :
  forEach log ds w = (Normal tt, with_console (console w ++ ds) w).
Proof.
  revert w. induction ds as [|d r IH]; intros w; simpl.
  - unfold ret, with_console. rewrite app_nil_r. destruct w; reflexivity.
  - unfold bind, log at 1. rewrite IH. unfold with_console; simpl.
    rewrite <- app_assoc. reflexivity.
Qed.

Lemma fst_update_desc X P (f : node -> node * X) m :
  fst match update_desc P f m with
      | Some (el, x) => (el, Some x)
      | None => (m, None)
      end
  = match update_desc P (fun c => (fst (f c), tt)) m with
    | Some (n', _) => n'
    | None => m
    end.
Proof.
  destruct m as [t a cs| |]; simpl; try reflexivity.
  pose proof (update_list_fst P f (fun c => (fst (f c), tt)) cs
                (fun _ => eq_refl)) as E.
  destruct (update_list P f cs) as [[l1 x1]|],
           (update_list P (fun c => (fst (f c), tt)) cs) as [[l2 x2]|];
    simpl in E; try discriminate; [|reflexivity].
  injection E as ->. reflexivity.
Qed.

(** *** The selector of the mount point *)

Lemma hash_identifier i :
  Css.identifier i = true -> Css.hash i = Css.IdSelector i.
Proof.
  unfold Css.identifier, Css.hash. intros H.
  apply andb_prop in H as [-> ->]. reflexivity.
Qed.

Lemma hash_cases i :
  Css.hash i = Css.IdSelector i /\ Css.identifier i = true
  \/ Css.hash i = Css.Invalid /\ Css.identifier i = false
  \/ Css.hash i = Css.NotCovered /\ Css.identifier i = false.
Proof.
  unfold Css.identifier, Css.hash.
  destruct (Css.all_name_chars i), (Css.starts_identifier i); simpl; auto.
Qed.

(** The ways through the callback of [renderSections]. *)
Lemma renderSection_invalid d s w :
  Css.hash (id s) = Css.Invalid ->
  renderSection d s w = (Throw (SyntaxError ("#" ++ id s)), w).
Proof. intros H. unfold renderSection. rewrite H. reflexivity. Qed.

Lemma renderSection_no_mount d s w :
  Css.identifier (id s) = true ->
  find (matches (ById (id s))) (root w) = None ->
  renderSection d s w = (Normal tt, w).
Proof.
  intros Hi H. unfold renderSection. rewrite (hash_identifier _ Hi).
  unfold bind, get_root.
  rewrite (update_None _ _ _ H). reflexivity.
Qed.

Lemma renderSection_no_container d s w el :
  Css.identifier (id s) = true ->
  find (matches (ById (id s))) (root w) = Some el ->
  find_desc (matches (ByClass "container")) el = None ->
  renderSection d s w = (Normal tt, w).
Proof.
  intros Hi H Hc. unfold renderSection. rewrite (hash_identifier _ Hi).
  unfold bind, get_root.
  erewrite (update_same _ _ _ H);
    rewrite (update_desc_None _ _ _ Hc); reflexivity.
Qed.

Lemma renderSection_container d s w el c :
  Css.identifier (id s) = true ->
  find (matches (ById (id s))) (root w) = Some el ->
  find_desc (matches (ByClass "container")) el = Some c ->
  renderSection d s w =
  (match snd (snd (renderContainer d s c)) with
   | Some e => Throw e
   | None => Normal tt
   end,
   with_console (console w ++ fst (snd (renderContainer d s c)))
     (with_root
        (modify (matches (ById (id s)))
           (modify_desc (matches (ByClass "container"))
              (fun c => fst (renderContainer d s c))) (root w)) w)).
Proof.
  intros Hi H Hc. unfold renderSection. rewrite (hash_identifier _ Hi).
  unfold bind, get_root.
  set (F := fun sectionElement : node =>
              match update_desc (matches (ByClass "container"))
                                (renderContainer d s) sectionElement with
              | Some (el, x) => (el, Some x)
              | None => (sectionElement, None)
              end).
  destruct (update_Some (matches (ById (id s))) F _ H) as [r' Hr'].
  rewrite Hr'.
  assert (EF : snd (F el) = Some (snd (renderContainer d s c))).
  { unfold F.
    destruct (update_desc_Some _ (renderContainer d s) _ Hc) as [el' ->].
    reflexivity. }
  rewrite EF.
  assert (Er : r' = modify (matches (ById (id s)))
                      (modify_desc (matches (ByClass "container"))
                         (fun c => fst (renderContainer d s c))) (root w)).
  { unfold modify.
    pose proof (update_fst (matches (ById (id s))) F
                  (fun n => (modify_desc (matches (ByClass "container"))
                               (fun c => fst (renderContainer d s c)) n, tt))
                  (root w)) as U.
    rewrite Hr' in U. simpl in U.
    match goal with
    | |- _ = match ?u with _ => _ end => destruct u as [[r2 []]|]
    end.
    - simpl in U. symmetry in U. injection U as ->; [reflexivity|].
      intros m. unfold F, modify_desc; simpl.
      apply fst_update_desc.
    - simpl in U. symmetry in U. discriminate U.
      intros m. unfold F, modify_desc; simpl.
      apply fst_update_desc. }
  destruct (renderContainer d s c) as [c' [diags e]]; simpl.
  unfold set_root. rewrite forEach_log. simpl.
  rewrite <- Er.
  destruct e; reflexivity.
Qed.

(** Every renderer appends to the container and looks at nothing in
    it. *)
Lemma call_appends r d s t a cs :
  call r d (Element t a cs) s
  = (Element t a (cs ++ appended r d s), thrown r d s).
Proof.
  unfold appended, thrown.
  destruct r; simpl.
  - reflexivity.
  - unfold renderTimelineSection.
    destruct (timeline_items s) as [items|]; simpl.
    + rewrite !fold_appendChild. reflexivity.
    + rewrite app_nil_r. reflexivity.
  - unfold renderCategoriesSection.
    destruct (categories_items s) as [items|]; simpl.
    + rewrite !fold_appendChild. reflexivity.
    + rewrite app_nil_r. reflexivity.
  - unfold renderCardsSection.
    destruct (cards_items s) as [items|]; simpl.
    + rewrite !fold_appendChild. reflexivity.
    + rewrite app_nil_r. reflexivity.
  - unfold renderContactSection.
    destruct (resolveContacts d s); simpl; try reflexivity.
    rewrite app_nil_r. reflexivity.
Qed.

Lemma resetContainer_Element s t a cs :
  resetContainer s (Element t a cs)
  = Element t a
      [match find_desc (matches (ByTag "h2")) (Element t a cs) with
       | Some h2 => set_textContent (title s) h2
       | None => Element "h2" [] (text_children (title s))
       end].
Proof.
  unfold resetContainer.
  destruct (find_desc (matches (ByTag "h2")) (Element t a cs));
    reflexivity.
Qed.

Lemma matches_h2 h :
  matches (ByTag "h2") h = true -> exists ha hcs, h = Element "h2" ha hcs.
Proof.
  destruct h as [t a cs| |]; simpl; try discriminate.
  intros H. apply String.eqb_eq in H. subst t. eauto.
Qed.

(** The heading the callback leaves. *)
Lemma heading_of_h2 s c :
  exists ha, heading_of s c = Element "h2" ha (text_children (title s)).
Proof.
  unfold heading_of.
  destruct (find_desc (matches (ByTag "h2")) c) as [h|] eqn:E.
  - unfold find_desc in E.
    destruct (matches_h2 _ (find_list_matches _ _ E)) as (ha & hcs & ->).
    exists ha. reflexivity.
  - exists []. reflexivity.
Qed.

Lemma resetContainer_heading s t a cs :
  resetContainer s (Element t a cs)
  = Element t a [heading_of s (Element t a cs)].
Proof. rewrite resetContainer_Element. reflexivity. Qed.

(** The container after the callback: the heading, then what the
    renderer appended. *)
Lemma renderContainer_fst d s t a cs :
  fst (renderContainer d s (Element t a cs))
  = Element t a (heading_of s (Element t a cs) :: extra d s).
Proof.
  unfold renderContainer, extra. rewrite resetContainer_heading.
  destruct (renderers (section_type s)) as [r|[]|]; try reflexivity.
  rewrite call_appends. reflexivity.
Qed.

Lemma modify_desc_keeps sel P g e :
  matches sel e = true -> matches sel (modify_desc P g e) = true.
Proof.
  destruct e as [t a cs| |]; simpl; try discriminate.
  unfold modify_desc; simpl.
  destruct (update_list P (fun c => (g c, tt)) cs) as [[l []]|];
    intros H; exact H.
Qed.

Lemma modify_desc_shape P g e :
  tag_of (modify_desc P g e) = tag_of e
  /\ attrs_of (modify_desc P g e) = attrs_of e.
Proof.
  destruct e as [t a cs| |]; unfold modify_desc; simpl;
    try (split; reflexivity).
  destruct (update_list P (fun c => (g c, tt)) cs) as [[l []]|];
    split; reflexivity.
Qed.

(** The first match below an element after a rewriting of it that keeps
    it a match. *)
Lemma find_desc_modify_desc sel g e c :
  find_desc (matches sel) e = Some c ->
  matches sel (g c) = true ->
  find_desc (matches sel) (modify_desc (matches sel) g e) = Some (g c).
Proof.
  destruct e as [t a cs| |]; unfold find_desc; simpl; try discriminate.
  intros Hc Hg. unfold modify_desc; simpl.
  destruct (update_list_Some (matches sel) (fun c => (g c, tt)) cs Hc)
    as [l' U].
  rewrite U. simpl.
  apply (find_list_update (matches sel) (matches_shallow sel) _ _ Hc U Hg).
Qed.

Lemma find_modify sel g r e :
  find (matches sel) r = Some e ->
  matches sel (g e) = true ->
  find (matches sel) (modify (matches sel) g r) = Some (g e).
Proof.
  intros He Hg. unfold modify.
  destruct (update_Some (matches sel) (fun n => (g n, tt)) r He) as [r' U].
  rewrite U.
  apply (find_update (matches sel) (matches_shallow sel) _ _ He U Hg).
Qed.

(** The document the callback leaves when it finds the container: the
    mount point is still the first element of its id, its container is
    still its first [.container], and the container holds the heading and
    what the renderer appended, nothing else. *)
Lemma renderSection_found d s w el t a cs :
  Css.identifier (id s) = true ->
  find (matches (ById (id s))) (root w) = Some el ->
  find_desc (matches (ByClass "container")) el = Some (Element t a cs) ->
  exists el',
    find (matches (ById (id s))) (root (snd (renderSection d s w)))
    = Some el'
    /\ tag_of el' = tag_of el
    /\ attrs_of el' = attrs_of el
    /\ find_desc (matches (ByClass "container")) el'
       = Some (Element t a (heading_of s (Element t a cs) :: extra d s)).
Proof.
  intros Hi H Hc.
  rewrite (renderSection_container d s w Hi H Hc).
  cbn [snd root with_console with_root].
  set (G := modify_desc (matches (ByClass "container"))
              (fun c => fst (renderContainer d s c))).
  exists (G el).
  pose proof (find_matches _ _ H) as Hm.
  assert (Hk : matches (ByClass "container") (Element t a cs) = true).
  { unfold find_desc in Hc. apply (find_list_matches _ _ Hc). }
  split; [|split; [|split]].
  - apply find_modify; [exact H|]. apply modify_desc_keeps, Hm.
  - apply modify_desc_shape.
  - apply modify_desc_shape.
  - unfold G.
    rewrite (find_desc_modify_desc (ByClass "container") _ _ Hc).
    + rewrite renderContainer_fst. reflexivity.
    + rewrite renderContainer_fst. exact Hk.
Qed.








(** It fails in a second way: the lookup of a mount point that does not
    exist throws when the id does not start an identifier. *)
Lemma missing_mount_can_throw :
  ~ (forall d s w,
        find (matches (ById (id s))) (root w) = None ->
        renderSection d s w = (Normal tt, w)).
Proof.
  intros H.
  specialize (H (Sample.doc None None None) Sample.y2024 Sample.world0
                eq_refl).
  discriminate H.
Qed.



(** C1: when the load fails (the request is rejected, the status is not
    a success or the body is not JSON), [init] returns normally, having
    written one warning and one error to the console and nothing else:
    title, document, styles are what they were.  And the render pass
    without a loaded document does nothing at all. *)
Theorem failed_load_leaves_page f w :
  load_fails f = true ->
  init f w
  = (Normal tt,
     with_console
       (console w ++
        [Warn "Could not load data.json:" (Some (load_error f));
         Err "Failed to initialize portfolio:" (Some (load_error f))]) w)
  /\ forall w0, renderPortfolio None w0 = (Normal tt, w0).
Proof.
  intros H. split; [|reflexivity].
  destruct f as [|ok status b]; simpl in H.
  - unfold init, try_catch, bind, loadData, try_catch, throw, log; simpl.
    unfold with_console; simpl. rewrite <- app_assoc. reflexivity.
  - destruct ok; simpl in H.
    + destruct b; try discriminate H.
      unfold init, try_catch, bind, loadData, try_catch, throw, log; simpl.
      unfold with_console; simpl. rewrite <- app_assoc. reflexivity.
    + unfold init, try_catch, bind, loadData, try_catch, throw, log; simpl.
      unfold with_console; simpl. rewrite <- app_assoc. reflexivity.
Qed.

Lemma failed_load_witness :
  init (Response false 404 NotJson) Sample.world0
  = (Normal tt,
     with_console
       [Warn "Could not load data.json:" (Some (HttpError 404));
        Err "Failed to initialize portfolio:" (Some (HttpError 404))]
       Sample.world0)
  /\ forall w0, renderPortfolio None w0 = (Normal tt, w0).
Proof.
  apply (@failed_load_leaves_page (Response false 404 NotJson)
                                  Sample.world0).
  reflexivity.
Defined.
End RenderFacts.

(** * Navigation and contact links *)

Module LinkFacts.
Import Dom DomFacts PortfolioRenderer.

Lemma refill_Element A (mk : A -> node) l t a cs :
  refill mk l (Element t a cs) = Element t a (map mk l).
Proof. unfold refill. simpl. rewrite fold_appendChild. reflexivity. Qed.

Lemma navEntry_shape s :
  navEntry s
  = Element "li" []
      [Element "a" [("href", ("#" ++ id s)%string); ("class", "nav-link")]
               (text_children (title s))].
Proof. reflexivity. Qed.

(** C3, as stated, fails: with navigation enabled and no [sections] list
    in the document the menu keeps its static entries. *)
Lemma navigation_without_sections_is_kept :
  ~ (forall d w nav,
        find (matches (ByClass "nav-menu")) (root w) = Some nav ->
        truthy_bool (navigation_enabled d) = true ->
        find (matches (ByClass "nav-menu"))
             (root (snd (generateNavigation (Some d) w)))
        = Some (set_children
                  (map navEntry
                       (match sections d with Some l => l | None => [] end))
                  nav)).
Proof.
  intros H.
  specialize (H (Sample.doc (Some true) None None) Sample.world0
                (Sample.el "ul" [("class", "nav-menu")]
                   [Sample.el "li" [] [TextNode "Home"]])
                eq_refl eq_refl).
  vm_compute in H. discriminate H.
Qed.

(** C3, amended: [generateNavigation] leaves the page as it is when
    [config.navigation.enabled] is falsy or the document has no
    [sections] list; otherwise the menu, the first [.nav-menu] element,
    keeps its tag and attributes and gets exactly one entry per section,
    in the order of the list, the entry of a section being a list item
    holding a link with [href] equal to [#] followed by the section id,
    class [nav-link] and the section title as its text. *)
Theorem generateNavigation_entries d w :
  (truthy_bool (navigation_enabled d) = false \/ sections d = None ->
   generateNavigation (Some d) w = (Normal tt, w))
  /\ (forall l t a old,
        truthy_bool (navigation_enabled d) = true ->
        sections d = Some l ->
        find (matches (ByClass "nav-menu")) (root w)
        = Some (Element t a old) ->
        exists w',
          generateNavigation (Some d) w = (Normal tt, w')
          /\ find (matches (ByClass "nav-menu")) (root w')
             = Some (Element t a
                       (map (fun s =>
                               Element "li" []
                                 [Element "a"
                                    [("href", ("#" ++ id s)%string);
                                     ("class", "nav-link")]
                                    (text_children (title s))]) l)))
  /\ (forall ta tb tc pa pb pc t a old,
        find (matches (ByClass "nav-menu")) (root w)
        = Some (Element t a old) ->
        find (matches (ByClass "nav-menu"))
             (root (snd (generateNavigation
                           (Some (Sample.doc (Some true) (contacts d)
                                    (Some [Sample.sec "a" ta pa;
                                           Sample.sec "b" tb pb;
                                           Sample.sec "c" tc pc])))
                           w)))
        = Some (Element t a
                  [Element "li" []
                     [Element "a" [("href", "#a"); ("class", "nav-link")]
                              (text_children ta)];
                   Element "li" []
                     [Element "a" [("href", "#b"); ("class", "nav-link")]
                              (text_children tb)];
                   Element "li" []
                     [Element "a" [("href", "#c"); ("class", "nav-link")]
                              (text_children tc)]])).
Proof.
  assert (General : forall d l t a old,
             truthy_bool (navigation_enabled d) = true ->
             sections d = Some l ->
             find (matches (ByClass "nav-menu")) (root w)
             = Some (Element t a old) ->
             exists w',
               generateNavigation (Some d) w = (Normal tt, w')
               /\ find (matches (ByClass "nav-menu")) (root w')
                  = Some (Element t a (map navEntry l))).
  { clear d. intros d l t a old He Hs Hf.
    unfold generateNavigation. rewrite He, Hs. simpl.
    unfold bind, get_root, set_root. eexists. split; [reflexivity|].
    simpl. unfold modify.
    destruct (update_Some (matches (ByClass "nav-menu"))
                (fun n => (refill navEntry l n, tt)) _ Hf) as [r' Hr'].
    rewrite Hr'.
    rewrite (find_update (matches (ByClass "nav-menu"))
               (matches_shallow (ByClass "nav-menu")) _ _ Hf Hr').
    + simpl. rewrite refill_Element. reflexivity.
    + simpl. rewrite refill_Element.
      rewrite (matches_shallow _ t a _ old).
      apply (find_matches _ _ Hf). }
  split; [|split].
  - intros [H|H]; unfold generateNavigation; rewrite H; simpl;
      [reflexivity|].
    destruct (negb (truthy_bool (navigation_enabled d))); reflexivity.
  - intros l t a old He Hs Hf.
    destruct (General d l t a old He Hs Hf) as (w' & E & F).
    exists w'. split; [exact E|exact F].
  - intros ta tb tc pa pb pc t a old Hf.
    destruct (General (Sample.doc (Some true) (contacts d)
                         (Some [Sample.sec "a" ta pa;
                                Sample.sec "b" tb pb;
                                Sample.sec "c" tc pc]))
                _ t a old eq_refl eq_refl Hf) as (w' & E & F).
    rewrite E. exact F.
Qed.

Lemma generateNavigation_witness :
  generateNavigation (Some (Sample.doc None None (Some Sample.abc)))
                     Sample.world0
  = (Normal tt, Sample.world0)
  /\ find (matches (ByClass "nav-menu"))
          (root (snd (generateNavigation
                        (Some (Sample.doc (Some true) None
                                          (Some Sample.abc)))
                        Sample.world0)))
     = Some (Element "ul" [("class", "nav-menu")]
               [Element "li" []
                  [Element "a" [("href", "#a"); ("class", "nav-link")]
                           [TextNode "A"]];
                Element "li" []
                  [Element "a" [("href", "#b"); ("class", "nav-link")]
                           [TextNode "B"]];
                Element "li" []
                  [Element "a" [("href", "#c"); ("class", "nav-link")]
                           [TextNode "C"]]]).
Proof.
  split.
  - apply (generateNavigation_entries
             (Sample.doc None None (Some Sample.abc)) Sample.world0).
    left. reflexivity.
  - destruct (generateNavigation_entries
                (Sample.doc (Some true) None (Some Sample.abc))
                Sample.world0) as [_ [B _]].
    destruct (B Sample.abc "ul" [("class", "nav-menu")]
                [Sample.el "li" [] [TextNode "Home"]]
                eq_refl eq_refl eq_refl) as (w' & E & F).
    rewrite E. exact F.
Defined.

Lemma renderContactSection_list d s t a cs l :
  resolveContacts d s = ContactList l ->
  renderContactSection d (Element t a cs) s
  = (Element t a (cs ++ [contactLinksDiv l]), None).
Proof.
  intros E. unfold renderContactSection. rewrite E.
  change (createElement "div" [("className", Some "contact-links")])
    with (Element "div" [("class", "contact-links")] []).
  rewrite fold_appendChild. reflexivity.
Qed.

Lemma contactEntry_shape c :
  contactEntry c
  = Element "p" []
      [Element "i" [("class", icon c)] [];
       Element "a"
         (("href", url c)
            :: if JsString.startsWith (url c) "http"
               then [("target", "_blank")] else [])
         (text_children (label c))].
Proof.
  unfold contactEntry, target_of.
  destruct (JsString.startsWith (url c) "http"); reflexivity.
Qed.

(** C4: the contact renderer appends one [div.contact-links] holding one
    entry per resolved contact, in order: the top-level contacts when
    [items] is the string ["contacts"], [items] itself when it is an
    array.  An entry is an icon and a link labelled with the contact's
    label; the link has [target="_blank"] exactly when the url starts
    with [http]. *)
Theorem contact_section_links d i ttl t a cs :
  (forall l,
      contacts d = Some l ->
      renderContactSection d (Element t a cs)
        {| id := i; title := ttl;
           body := Contact (Some (ItemsString "contacts")) |}
      = (Element t a (cs ++ [contactLinksDiv l]), None))
  /\ (forall l,
        renderContactSection d (Element t a cs)
          {| id := i; title := ttl; body := Contact (Some (ItemsArray l)) |}
        = (Element t a (cs ++ [contactLinksDiv l]), None))
  /\ (forall c,
        exists attrs,
          contactEntry c
          = Element "p" []
              [Element "i" [("class", icon c)] [];
               Element "a" (("href", url c) :: attrs)
                       (text_children (label c))]
          /\ (get_attr "target" (("href", url c) :: attrs) = Some "_blank"
              <-> JsString.startsWith (url c) "http" = true)
          /\ (get_attr "target" (("href", url c) :: attrs) = None
              <-> JsString.startsWith (url c) "http" = false))
  /\ renderContactSection
       (Sample.doc None (Some [Sample.mail]) None) (Element t a cs)
       {| id := i; title := ttl;
          body := Contact (Some (ItemsString "contacts")) |}
     = (Element t a
          (cs ++
           [Element "div" [("class", "contact-links")]
              [Element "p" []
                 [Element "i" [("class", "fa-envelope")] [];
                  Element "a" [("href", "mailto:a@b.com")]
                          [TextNode "Mail"]]]]),
        None).
Proof.
  split; [|split; [|split]];
    [| | |rewrite (@renderContactSection_list _ _ t a cs [Sample.mail]);
          reflexivity].
  - intros l Hl. apply renderContactSection_list.
    unfold resolveContacts; simpl. rewrite Hl. reflexivity.
  - intros l. apply renderContactSection_list. reflexivity.
  - intros c. rewrite contactEntry_shape.
    eexists. split; [reflexivity|].
    destruct (JsString.startsWith (url c) "http"); simpl;
      split; split; intros H; try reflexivity; try discriminate H.
Qed.

Lemma contact_section_links_witness :
  renderContactSection
    (Sample.doc None (Some [Sample.mail]) None)
    (Element "div" [("class", "container")] [])
    {| id := "contact"; title := "Contact";
       body := Contact (Some (ItemsString "contacts")) |}
  = (Element "div" [("class", "container")]
       [Element "div" [("class", "contact-links")]
          [Element "p" []
             [Element "i" [("class", "fa-envelope")] [];
              Element "a" [("href", "mailto:a@b.com")]
                      [TextNode "Mail"]]]],
     None).
Proof.
  destruct (contact_section_links
              (Sample.doc None (Some [Sample.mail]) None)
              "contact" "Contact" "div" [("class", "container")] [])
    as [A _].
  rewrite (A [Sample.mail] eq_refl). reflexivity.
Defined.
End LinkFacts.

(** * Inline links *)

Module LinkedTextFacts.
Import PortfolioRenderer.

Lemma prefix_drop pat s :
  String.prefix pat s = true ->
  s = (pat ++ JsString.drop (String.length pat) s)%string.
Proof.
  revert s. induction pat as [|c p IH]; intros s.
  - destruct s; reflexivity.
  - destruct s as [|c' r]; simpl; [discriminate|].
    destruct (ascii_dec c c') as [<-|]; [|discriminate].
    intros H. rewrite <- (IH r H). reflexivity.
Qed.

Lemma split_first_eq pat s :
  JsString.split_first pat s
  = if String.prefix pat s
    then Some (""%string, JsString.drop (String.length pat) s)
    else match s with
         | EmptyString => None
         | String c r =>
             match JsString.split_first pat r with
             | Some (before, after) => Some (String c before, after)
             | None => None
             end
         end.
Proof. destruct s; reflexivity. Qed.

(** [split_first] cuts the text around an occurrence of the pattern. *)
Lemma split_first_sound pat s before after :
  JsString.split_first pat s = Some (before, after) ->
  s = (before ++ pat ++ after)%string.
Proof.
  revert before after.
  induction s as [|c r IH]; intros before after; rewrite split_first_eq;
    destruct (String.prefix pat _) eqn:E.
  - intros [= <- <-]. apply (prefix_drop pat ""), E.
  - discriminate.
  - intros [= <- <-]. apply (prefix_drop pat (String c r)), E.
  - destruct (JsString.split_first pat r) as [[b a]|]; [|discriminate].
    intros [= <- <-]. simpl. rewrite <- (IH b a eq_refl). reflexivity.
Qed.

Lemma prefix_app pat rest : String.prefix pat (pat ++ rest) = true.
Proof.
  induction pat as [|c p IH]; simpl.
  - destruct rest; reflexivity.
  - destruct (ascii_dec c c); [exact IH|contradiction].
Qed.

(** ... and that occurrence is the first one. *)
Lemma split_first_least pat s before after :
  JsString.split_first pat s = Some (before, after) ->
  forall before' after',
    s = (before' ++ pat ++ after')%string ->
    String.length before <= String.length before'.
Proof.
  revert before after.
  induction s as [|c r IH]; intros before after; rewrite split_first_eq;
    destruct (String.prefix pat _) eqn:E.
  - intros [= <- <-] b' a' _. apply Nat.le_0_l.
  - discriminate.
  - intros [= <- <-] b' a' _. apply Nat.le_0_l.
  - destruct (JsString.split_first pat r) as [[b a]|] eqn:Er; [|discriminate].
    intros [= <- <-] b' a' Hs.
    destruct b' as [|c' b''].
    + simpl in Hs. rewrite Hs, prefix_app in E. discriminate E.
    + simpl in Hs. injection Hs as _ Hr. simpl.
      apply le_n_S. apply (IH b a eq_refl b'' a' Hr).
Qed.

Lemma expand_other m b a c r :
  c <> "$"%char ->
  JsString.expand m b a (String c r) = String c (JsString.expand m b a r).
Proof.
  intros H. destruct c as [[] [] [] [] [] [] [] []];
    try reflexivity; contradiction H; reflexivity.
Qed.

Lemma expand_no_dollar m b a rep :
  JsString.has_dollar rep = false -> JsString.expand m b a rep = rep.
Proof.
  induction rep as [|c r IH]; [reflexivity|].
  simpl JsString.has_dollar. intros H.
  apply Bool.orb_false_iff in H. destruct H as [Hc Hr].
  rewrite expand_other, (IH Hr); [reflexivity|].
  intros ->. discriminate Hc.
Qed.

(** Away from dollar signs the replacement is literal. *)
Lemma replace_no_dollar s pat rep :
  JsString.has_dollar rep = false ->
  JsString.replace s pat rep = JsString.replace_literal s pat rep.
Proof.
  intros H. unfold JsString.replace, JsString.replace_literal.
  destruct (JsString.split_first pat s) as [[b a]|]; [|reflexivity].
  rewrite (expand_no_dollar _ _ _ _ H). reflexivity.
Qed.

Lemma renderLinkedText_literal links text :
  Forall (fun l => JsString.has_dollar
                     (anchorHtml (link_url l) (link_text l)) = false)
         links ->
  renderLinkedText text links
  = fold_left
      (fun result l =>
         JsString.replace_literal result (link_text l)
           (anchorHtml (link_url l) (link_text l)))
      links text.
Proof.
  intros H. unfold renderLinkedText.
  assert (G : forall result,
             fold_left
               (fun result l =>
                  let linkHtml := anchorHtml (link_url l) (link_text l) in
                  if includes text "(" && includes text ")"
                  then JsString.replace result (link_text l) linkHtml
                  else JsString.replace result (link_text l) linkHtml)
               links result
             = fold_left
                 (fun result l =>
                    JsString.replace_literal result (link_text l)
                      (anchorHtml (link_url l) (link_text l)))
                 links result).
  { induction H as [|l r Hl _ IH]; intros result; simpl; [reflexivity|].
    rewrite (replace_no_dollar _ _ _ Hl).
    destruct (includes text "(" && includes text ")"); apply IH. }
  apply G.
Qed.

(** C6 at a url holding [$$]: the anchor written into the text points to
    a url with one dollar sign, not to [link.url]. *)
Theorem renderLinkedText_dollar :
  renderLinkedText "See Acme" [Sample.priced]
  = ("See " ++ anchorHtml "https://x.io/?p=$1" "Acme")%string
  /\ renderLinkedText "See Acme" [Sample.priced]
     <> ("See " ++ anchorHtml (link_url Sample.priced)
                              (link_text Sample.priced))%string.
Proof.
  split; [reflexivity|].
  vm_compute. intros H. discriminate H.
Qed.
End LinkedTextFacts.

(** * Categories *)

Module CategoryFacts.
Import Dom DomFacts PortfolioRenderer JsObject.

Section Entries.
Variable V : Type.
Implicit Types (o l : list (string * V)) (kv : string * V).

Lemma define_fresh k (v : V) o :
  ~ In k (map fst o) -> define k v o = o ++ [(k, v)].
Proof.
  induction o as [|[k' v'] r IH]; simpl; [reflexivity|].
  intros H. destruct (String.eqb_spec k k') as [->|_].
  - exfalso. apply H. left. reflexivity.
  - rewrite IH; [reflexivity|]. intros Hin. apply H. right. exact Hin.
Qed.

Lemma parse_fresh_from acc l :
  NoDup (map fst (acc ++ l)) ->
  fold_left (fun o kv => define (fst kv) (snd kv) o) l acc = acc ++ l.
Proof.
  revert acc. induction l as [|[k v] r IH]; intros acc H; simpl.
  - rewrite app_nil_r. reflexivity.
  - rewrite define_fresh.
    + rewrite IH; rewrite <- app_assoc; [reflexivity|exact H].
    + rewrite map_app in H. simpl in H.
      apply NoDup_remove_2 in H. intros Hin. apply H.
      apply in_or_app. left. exact Hin.
Qed.

(** Distinct names are kept in the order of the text. *)
Lemma parse_fresh l : NoDup (map fst l) -> parse l = l.
Proof. intros H. apply (parse_fresh_from [] l H). Qed.

Lemma indexed_plain o :
  Forall (fun kv => is_index (fst kv) = false) o ->
  indexed o = [] /\ filter (fun kv => negb (is_index (fst kv))) o = o.
Proof.
  induction 1 as [|kv r Hk _ [IH1 IH2]]; [split; reflexivity|].
  pose proof Hk as Hi. unfold is_index in Hk.
  destruct (array_index (fst kv)) eqn:E; [discriminate|].
  simpl. rewrite E, Hi. simpl. rewrite IH1, IH2. split; reflexivity.
Qed.

Lemma insert_index_perm n kv (l : list (N * (string * V))) :
  Permutation (insert_index n kv l) ((n, kv) :: l).
Proof.
  induction l as [|[m kv'] r IH]; simpl; [reflexivity|].
  destruct (n <=? m)%N; [reflexivity|].
  rewrite IH. apply perm_swap.
Qed.

Lemma insert_index_sorted n kv (l : list (N * (string * V))) :
  Sorted index_le l -> Sorted index_le (insert_index n kv l).
Proof.
  induction 1 as [|[m kv'] r Hr IH Hd]; simpl.
  - repeat constructor.
  - destruct (N.leb_spec n m) as [Hle|Hgt].
    + constructor; [constructor; assumption|].
      constructor. exact Hle.
    + constructor; [exact IH|].
      destruct r as [|[m' kv''] r']; simpl.
      * constructor. unfold index_le; simpl. lia.
      * destruct (N.leb_spec n m').
        -- constructor. unfold index_le; simpl. lia.
        -- constructor. inversion Hd; assumption.
Qed.

(** The array indices come out in ascending order, each with the value
    of its name, and they are the entries with such names. *)
Lemma indexed_sorted o : Sorted index_le (indexed o).
Proof.
  induction o as [|kv r IH]; simpl; [constructor|].
  destruct (array_index (fst kv)); [|exact IH].
  apply insert_index_sorted, IH.
Qed.

Lemma indexed_values o :
  Forall (fun p => array_index (fst (snd p)) = Some (fst p)) (indexed o).
Proof.
  induction o as [|kv r IH]; simpl; [constructor|].
  destruct (array_index (fst kv)) eqn:E; [|exact IH].
  eapply Permutation_Forall.
  - symmetry. apply insert_index_perm.
  - constructor; [exact E|exact IH].
Qed.

Lemma indexed_perm o :
  Permutation (map snd (indexed o))
              (filter (fun kv => is_index (fst kv)) o).
Proof.
  induction o as [|kv r IH]; simpl; [reflexivity|].
  unfold is_index at 1.
  destruct (array_index (fst kv)) eqn:E; [|exact IH].
  rewrite (Permutation_map snd (insert_index_perm n kv (indexed r))).
  simpl. constructor. exact IH.
Qed.
End Entries.

Lemma categoryLine_shape k v :
  categoryLine (k, v)
  = Element "p" []
      [Markup ("<strong>" ++ k ++ ":</strong> " ++ JsString.join ", " v)].
Proof. reflexivity. Qed.

(** C8, as stated, fails: names that are array indices are enumerated
    first, in ascending numeric order, whatever their place in the
    text. *)
Lemma numeric_categories_are_reordered :
  ~ (forall items i ttl t a cs,
        renderCategoriesSection (Element t a cs)
          {| id := i; title := ttl; body := Categories (Some items) |}
        = Element t a (cs ++ map categoryLine items)).
Proof.
  intros H.
  specialize (H Sample.years "skills" "Skills" "div" [] []).
  vm_compute in H. discriminate H.
Qed.

(** C8, amended: the categories renderer appends one line per entry of
    [Object.entries(items)], each line being the category name in bold,
    a colon, and the items of the category joined by a comma and a space
    in their own order.  The entries are the names that are array indices
    in ascending numeric order, followed by the other names in the order
    of the text; when the names are distinct and none is an array index,
    the lines follow the order of the text. *)
Theorem categories_lines items i ttl t a cs :
  renderCategoriesSection (Element t a cs)
    {| id := i; title := ttl; body := Categories (Some items) |}
  = Element t a (cs ++ map categoryLine (entries items))
  /\ (forall k v,
        categoryLine (k, v)
        = Element "p" []
            [Markup ("<strong>" ++ k ++ ":</strong> "
                     ++ JsString.join ", " v)])
  /\ (entries items
      = map snd (indexed (parse items))
        ++ filter (fun kv => negb (is_index (fst kv))) (parse items)
      /\ Sorted index_le (indexed (parse items))
      /\ Forall (fun p => array_index (fst (snd p)) = Some (fst p))
                (indexed (parse items))
      /\ Permutation (map snd (indexed (parse items)))
                     (filter (fun kv => is_index (fst kv)) (parse items)))
  /\ (NoDup (map fst items) ->
      Forall (fun kv => is_index (fst kv) = false) items ->
      entries items = items).
Proof.
  split; [|split; [|split]].
  - unfold renderCategoriesSection; simpl.
    rewrite fold_appendChild. reflexivity.
  - intros k v. reflexivity.
  - split; [reflexivity|]. split; [apply indexed_sorted|].
    split; [apply indexed_values|apply indexed_perm].
  - intros Hd Hp. unfold entries. rewrite (parse_fresh _ Hd).
    destruct (indexed_plain Hp) as [-> ->]. reflexivity.
Qed.

Lemma categories_lines_witness :
  entries [("Languages", ["Go"; "SQL"]); ("Tools", ["Git"])]
  = [("Languages", ["Go"; "SQL"]); ("Tools", ["Git"])].
Proof.
  destruct (categories_lines
              [("Languages", ["Go"; "SQL"]); ("Tools", ["Git"])]
              "skills" "Skills" "div" [] []) as (_ & _ & _ & E).
  apply E.
  - repeat constructor; simpl; intuition discriminate.
  - repeat constructor.
Defined.
End CategoryFacts.

(** * The theme *)

Module ThemeFacts.
Import ThemeManager.

(** C9: with a persisted theme, light or dark, the manager starts in
    that theme, and two toggles bring both the current theme and the
    persisted value back to it; with nothing persisted, constructing the
    manager persists nothing, whether the theme came from the system
    preference or from the default. *)
Theorem toggle_twice_restores t dark icon :
  theme_value t ->
  let s0 := construct (fresh (Available (Some t)) dark icon) in
  (currentTheme s0 = t /\ localStorage s0 = Available (Some t))
  /\ (currentTheme (toggleTheme (toggleTheme s0)) = t
      /\ localStorage (toggleTheme (toggleTheme s0)) = Available (Some t))
  /\ (forall dark' icon',
         localStorage (construct (fresh (Available None) dark' icon'))
         = Available None).
Proof.
  intros [-> | ->]; simpl.
  - split; [split; destruct icon; reflexivity|].
    split; [destruct icon; split; reflexivity|].
    intros [[]|] []; reflexivity.
  - split; [split; destruct icon; reflexivity|].
    split; [destruct icon; split; reflexivity|].
    intros [[]|] []; reflexivity.
Qed.

(** Starting from an empty storage, whatever the user and the system do,
    the current theme and the persisted value, if any, are theme values. *)
Lemma persisted_is_theme_value events dark icon :
  let s := run events (construct (fresh (Available None) dark icon)) in
  theme_value (currentTheme s)
  /\ match localStorage s with
     | Available (Some t) => theme_value t
     | Available None => True
     | Unavailable => False
     end.
Proof.
  unfold run.
  assert (Inv : forall s,
             (theme_value (currentTheme s)
              /\ match localStorage s with
                 | Available (Some t) => theme_value t
                 | Available None => True
                 | Unavailable => False
                 end) ->
             forall e,
               theme_value (currentTheme (handle s e))
               /\ match localStorage (handle s e) with
                  | Available (Some t) => theme_value t
                  | Available None => True
                  | Unavailable => False
                  end).
  { intros [c st pd dt ti ws] [Hc Hs] [|m]; unfold theme_value in *;
      simpl in *.
    - destruct st as [|[t|]]; [contradiction| |]; destruct ti; simpl;
        destruct (String.eqb c "light"); split; auto.
    - unfold handleSystemThemeChange.
      destruct st as [|[t|]]; [contradiction| |]; simpl.
      + destruct (String.eqb t ""); simpl.
        * destruct m, ti; simpl; split; auto.
        * split; assumption.
      + destruct m, ti; simpl; split; auto. }
  assert (Start : theme_value
                    (currentTheme (construct (fresh (Available None) dark icon)))
                  /\ match localStorage
                             (construct (fresh (Available None) dark icon)) with
                     | Available (Some t) => theme_value t
                     | Available None => True
                     | Unavailable => False
                     end).
  { destruct dark as [[]|], icon; simpl; split; unfold theme_value; auto. }
  revert Start. generalize (construct (fresh (Available None) dark icon)).
  induction events as [|e r IH]; intros s H; simpl; [exact H|].
  apply IH, Inv, H.
Qed.

Lemma toggle_twice_witness :
  let s0 := construct (fresh (Available (Some "dark")) (Some false) None) in
  (currentTheme s0 = "dark" /\ localStorage s0 = Available (Some "dark"))
  /\ (currentTheme (toggleTheme (toggleTheme s0)) = "dark"
      /\ localStorage (toggleTheme (toggleTheme s0))
         = Available (Some "dark"))
  /\ (forall dark' icon',
         localStorage (construct (fresh (Available None) dark' icon'))
         = Available None).
Proof.
  apply (@toggle_twice_restores "dark" (Some false) None).
  right. reflexivity.
Defined.
End ThemeFacts.

(** * Running the pass again *)

Module IdempotenceFacts.
Import Dom DomFacts PortfolioRenderer RenderFacts LinkFacts.

Section Modify.
Variable P : node -> bool.
Hypothesis P_shallow :
  forall t a cs cs', P (Element t a cs) = P (Element t a cs').
Variable g : node -> node.
Hypothesis g_keeps : forall e : node, P e = true -> P (g e) = true.
Hypothesis g_idem : forall e, P e = true -> g (g e) = g e.

(** A rewriting of the first match that keeps it a match and is
    idempotent there is idempotent on the tree. *)
Lemma modify_idem r : modify P g (modify P g r) = modify P g r.
Proof.
  unfold modify.
  destruct (find P r) as [e|] eqn:Ef.
  - pose proof (find_matches _ _ Ef) as He.
    destruct (update_Some P (fun n => (g n, tt)) r Ef) as [r1 U].
    rewrite U.
    rewrite (update_update P P_shallow (fun n => (g n, tt))
               (fun n => (g n, tt)) r Ef U (@g_keeps _ He)).
    simpl. rewrite (@g_idem _ He).
    rewrite (update_const P (fun n => (g n, tt)) r Ef) in U.
    rewrite U. reflexivity.
  - rewrite (update_None P _ _ Ef).
    rewrite (update_None P _ _ Ef). reflexivity.
Qed.

Lemma modify_desc_idem t a cs :
  modify_desc P g (modify_desc P g (Element t a cs))
  = modify_desc P g (Element t a cs).
Proof.
  unfold modify_desc. simpl.
  destruct (find_list P cs) as [e|] eqn:Ef.
  - pose proof (find_list_matches _ _ Ef) as He.
    destruct (update_list_Some P (fun n => (g n, tt)) cs Ef) as [l1 U].
    rewrite U. simpl.
    rewrite (update_list_update P P_shallow (fun n => (g n, tt))
               (fun n => (g n, tt)) cs Ef U (@g_keeps _ He)).
    simpl. rewrite (@g_idem _ He).
    rewrite (update_list_const P (fun n => (g n, tt)) cs Ef) in U.
    rewrite U. reflexivity.
  - rewrite (update_list_None P _ _ Ef). simpl.
    rewrite (update_list_None P _ _ Ef). reflexivity.
Qed.
End Modify.

Lemma refill_keeps A sel (mk : A -> node) l e :
  matches sel e = true -> matches sel (refill mk l e) = true.
Proof.
  destruct e as [t a cs| |]; simpl; try discriminate.
  rewrite refill_Element. intros H; exact H.
Qed.

Lemma refill_idem A sel (mk : A -> node) l e :
  matches sel e = true -> refill mk l (refill mk l e) = refill mk l e.
Proof.
  destruct e as [t a cs| |]; simpl; try discriminate.
  rewrite !refill_Element. reflexivity.
Qed.

Lemma renderContainer_idem d s c :
  matches (ByClass "container") c = true ->
  fst (renderContainer d s (fst (renderContainer d s c)))
  = fst (renderContainer d s c).
Proof.
  intros H. destruct (matches_element _ _ H) as (t & a & cs & ->).
  rewrite !renderContainer_fst. f_equal. f_equal.
  destruct (heading_of_h2 s (Element t a cs)) as [ha ->].
  unfold heading_of, find_desc. simpl. reflexivity.
Qed.

Lemma renderContainer_keeps d s c :
  matches (ByClass "container") c = true ->
  matches (ByClass "container") (fst (renderContainer d s c)) = true.
Proof.
  intros H. destruct (matches_element _ _ H) as (t & a & cs & ->).
  rewrite renderContainer_fst. exact H.
Qed.

(** The document after the callback of [renderSections], whichever way
    it went. *)
Lemma renderSection_root d s w :
  root (snd (renderSection d s w))
  = match Css.hash (id s) with
    | Css.IdSelector i =>
        modify (matches (ById i))
          (modify_desc (matches (ByClass "container"))
             (fun c => fst (renderContainer d s c))) (root w)
    | _ => root w
    end.
Proof.
  destruct (hash_cases (id s)) as [[E Hi]|[[E Hi]|[E Hi]]]; rewrite E.
  - destruct (find (matches (ById (id s))) (root w)) as [el|] eqn:Ef.
    + destruct (find_desc (matches (ByClass "container")) el) as [c|] eqn:Ec.
      * rewrite (renderSection_container d s w Hi Ef Ec). reflexivity.
      * rewrite (renderSection_no_container d s w Hi Ef Ec).
        unfold modify. erewrite (update_same _ _ _ Ef); [reflexivity|].
        simpl. unfold modify_desc.
        rewrite (update_desc_None _ _ _ Ec). reflexivity.
    + rewrite (renderSection_no_mount d s w Hi Ef).
      unfold modify. rewrite (update_None _ _ _ Ef). reflexivity.
  - unfold renderSection. rewrite E. reflexivity.
  - unfold renderSection. rewrite E. reflexivity.
Qed.

Lemma renderSection_twice d s w :
  root (snd (renderSection d s (snd (renderSection d s w))))
  = root (snd (renderSection d s w)).
Proof.
  rewrite (renderSection_root d s (snd (renderSection d s w))).
  rewrite (renderSection_root d s w).
  destruct (Css.hash (id s)) as [i| |]; try reflexivity.
  apply modify_idem.
  - apply matches_shallow.
  - intros e. apply modify_desc_keeps.
  - intros e He. destruct (matches_element _ _ He) as (t & a & cs & ->).
    apply modify_desc_idem.
    + apply matches_shallow.
    + intros c. apply renderContainer_keeps.
    + intros c. apply renderContainer_idem.
Qed.

Lemma generateNavigation_root d w :
  root (snd (generateNavigation (Some d) w))
  = if truthy_bool (navigation_enabled d)
    then match sections d with
         | Some l => modify (matches (ByClass "nav-menu"))
                            (refill navEntry l) (root w)
         | None => root w
         end
    else root w.
Proof.
  unfold generateNavigation.
  destruct (truthy_bool (navigation_enabled d)); simpl; [|reflexivity].
  destruct (sections d); reflexivity.
Qed.

(** *** The head and what is appended to it *)

Lemma find_None_root P n : find P n = None -> P n = false.
Proof.
  destruct n; simpl; destruct (P _); try discriminate; reflexivity.
Qed.

Lemma find_list_app P k l :
  find_list P (k ++ l)
  = match find_list P k with
    | Some e => Some e
    | None => find_list P l
    end.
Proof.
  induction k as [|c r IH]; simpl; [reflexivity|].
  destruct (find P c); [reflexivity|exact IH].
Qed.

Lemma find_list_cons P c r :
  find_list P (c :: r)
  = match find P c with
    | Some e => Some e
    | None => find_list P r
    end.
Proof. reflexivity. Qed.

(** A node appended to the head of a page without a match is the first
    match when it is one. *)
Lemma append_in_head_finds sel m cs cs' :
  find_list (matches sel) cs = None ->
  append_in_head m cs = Some cs' ->
  matches sel m = true ->
  find_list (matches sel) cs' = Some m.
Proof.
  intros Hn Ha Hm. revert cs' Hn Ha.
  induction cs as [|c r IH]; intros cs'; simpl; [discriminate|].
  destruct (find (matches sel) c) eqn:Ec; [discriminate|].
  intros Hr.
  destruct c as [t a k| |].
  - destruct (String.eqb t "head").
    + intros [= <-]. rewrite find_list_cons, find_Element.
      pose proof (find_None_root _ _ Ec) as Proot.
      rewrite (matches_shallow _ t a (k ++ [m]) k).
      rewrite Proot.
      rewrite find_Element, Proot in Ec.
      rewrite find_list_app, Ec, find_list_cons.
      rewrite (find_self _ _ Hm). reflexivity.
    + destruct (append_in_head m r) as [r'|]; [|discriminate].
      intros [= <-]. rewrite find_list_cons, Ec. apply (IH _ Hr eq_refl).
  - destruct (append_in_head m r) as [r'|]; [|discriminate].
    intros [= <-]. rewrite find_list_cons, Ec. apply (IH _ Hr eq_refl).
  - destruct (append_in_head m r) as [r'|]; [|discriminate].
    intros [= <-]. rewrite find_list_cons, Ec. apply (IH _ Hr eq_refl).
Qed.

Lemma append_in_head_find m cs cs' :
  find_list isDescription cs = None ->
  append_in_head m cs = Some cs' ->
  isDescription m = true ->
  find_list isDescription cs' = Some m.
Proof. apply append_in_head_finds. Qed.

(** The same of the document. *)
Lemma head_append_finds sel m r r' :
  find (matches sel) r = None ->
  head_append m r = Some r' ->
  matches sel m = true ->
  find (matches sel) r' = Some m.
Proof.
  intros Hn Ha Hm.
  destruct r as [t a cs| |]; simpl in Ha; try discriminate Ha.
  destruct (String.eqb t "html"); [|discriminate Ha].
  destruct (append_in_head m cs) as [cs'|] eqn:Ea; [|discriminate Ha].
  injection Ha as <-.
  rewrite find_Element in Hn |- *.
  rewrite (matches_shallow _ t a cs' cs).
  destruct (matches sel (Element t a cs)); [discriminate Hn|].
  apply (@append_in_head_finds _ _ _ _ Hn Ea Hm).
Qed.

Lemma set_attr_idem k v a :
  set_attr k v (set_attr k v a) = set_attr k v a.
Proof.
  induction a as [|[k' v'] r IH]; simpl.
  - rewrite String.eqb_refl. reflexivity.
  - destruct (String.eqb k k') eqn:E; simpl.
    + rewrite String.eqb_refl. reflexivity.
    + rewrite E, IH. reflexivity.
Qed.

Lemma get_set_other k k' v a :
  String.eqb k' k = false ->
  get_attr k' (set_attr k v a) = get_attr k' a.
Proof.
  intros H. induction a as [|[k0 v0] r IH]; simpl.
  - rewrite H. reflexivity.
  - destruct (String.eqb k k0) eqn:E; simpl.
    + apply String.eqb_eq in E. subst k0. rewrite H. reflexivity.
    + rewrite IH. reflexivity.
Qed.

Lemma content_keeps v e :
  isDescription e = true -> isDescription (set_prop "content" v e) = true.
Proof.
  destruct e as [t a cs| |]; simpl; try discriminate.
  rewrite (get_set_other "content" "name" v a eq_refl). intros H; exact H.
Qed.

Lemma content_idem v e :
  set_prop "content" v (set_prop "content" v e) = set_prop "content" v e.
Proof.
  destruct e as [t a cs| |]; simpl; try reflexivity.
  rewrite set_attr_idem. reflexivity.
Qed.

Lemma setDescription_effect v w :
  root (snd (setDescription v w)) = describe v (root w).
Proof.
  unfold setDescription, describe, bind, get_root.
  destruct (update isDescription _ (root w)) as [[r' []]|].
  - reflexivity.
  - unfold head_appendChild, bind, get_root.
    destruct (head_append (descriptionTag v) (root w)); reflexivity.
Qed.

Lemma describe_idem v r : describe v (describe v r) = describe v r.
Proof.
  destruct (find isDescription r) as [e|] eqn:Ef.
  - assert (E : forall x, find isDescription x <> None ->
                     describe v x
                     = modify isDescription (set_prop "content" v) x).
    { intros x Hx. unfold describe, modify.
      destruct (update isDescription _ x) as [[x' []]|] eqn:U;
        [reflexivity|].
      destruct (find isDescription x) as [e'|] eqn:Ex; [|congruence].
      destruct (update_Some isDescription
                  (fun n => (set_prop "content" v n, tt)) x Ex) as [x' U'].
      congruence. }
    rewrite (E r) by congruence.
    rewrite E.
    + apply modify_idem.
      * apply matches_shallow.
      * intros n. apply content_keeps.
      * intros n _. apply content_idem.
    + unfold modify.
      destruct (update_Some isDescription
                  (fun n => (set_prop "content" v n, tt)) r Ef) as [r1 U].
      rewrite U.
      rewrite (find_update isDescription
                 (matches_shallow (ByTagAttr "meta" "name" "description"))
                 _ _ Ef U).
      * discriminate.
      * apply content_keeps, (find_matches _ _ Ef).
  - destruct (head_append (descriptionTag v) r) as [r'|] eqn:Ea.
    + assert (D : describe v r = r').
      { unfold describe. rewrite (update_None _ _ _ Ef), Ea. reflexivity. }
      rewrite D.
      assert (F : find isDescription r' = Some (descriptionTag v)).
      { apply (@head_append_finds _ _ _ _ Ef Ea). reflexivity. }
      unfold describe.
      rewrite (update_same isDescription
                 (fun n => (set_prop "content" v n, tt)) _ F);
        reflexivity.
    + assert (D : describe v r = r).
      { unfold describe. rewrite (update_None _ _ _ Ef), Ea. reflexivity. }
      rewrite !D. reflexivity.
Qed.

Lemma refill_twice A sel (mk : A -> node) l r :
  modify (matches sel) (refill mk l) (modify (matches sel) (refill mk l) r)
  = modify (matches sel) (refill mk l) r.
Proof.
  apply modify_idem.
  - apply matches_shallow.
  - intros e. apply refill_keeps.
  - intros e. apply refill_idem.
Qed.

End IdempotenceFacts.



(** * The pass as a whole: failures and what they leave *)

Module PassFacts.
Import Dom DomFacts PortfolioRenderer RenderFacts LinkFacts Conformance.

Lemma forEach_app A (f : A -> M unit) l1 l2 w :
  forEach f (l1 ++ l2) w
  = match forEach f l1 w with
    | (Normal _, w') => forEach f l2 w'
    | (Throw e, w') => (Throw e, w')
    | (Unmodelled, w') => (Unmodelled, w')
    end.
Proof.
  revert w. induction l1 as [|x r IH]; intros w; simpl; [reflexivity|].
  unfold bind.
  destruct (f x w) as [[[]|e|] w']; [apply IH|reflexivity|reflexivity].
Qed.

(** *** Style variables are the theme's business *)

Lemma keeps_ret A (a : A) : keeps_styles (ret a).
Proof. intros w. split; reflexivity. Qed.

Lemma keeps_throw A e : keeps_styles (@throw A e).
Proof. intros w. split; reflexivity. Qed.

Lemma keeps_unmodelled A : keeps_styles (@unmodelled A).
Proof. intros w. split; reflexivity. Qed.

Lemma keeps_bind A B (m : M A) (k : A -> M B) :
  keeps_styles m -> (forall a, keeps_styles (k a)) -> keeps_styles (bind m k).
Proof.
  intros Hm Hk w. unfold bind.
  destruct (Hm w) as [V F]. destruct (m w) as [[a|e|] w']; simpl in *.
  - destruct (Hk a w') as [V' F']. rewrite V', F'. split; assumption.
  - split; assumption.
  - split; assumption.
Qed.

Lemma keeps_set_root r : keeps_styles (set_root r).
Proof. intros w. split; reflexivity. Qed.

Lemma keeps_set_title t : keeps_styles (set_title t).
Proof. intros w. split; reflexivity. Qed.

Lemma keeps_get_root : keeps_styles get_root.
Proof. intros w. split; reflexivity. Qed.

Lemma keeps_log d : keeps_styles (log d).
Proof. intros w. split; reflexivity. Qed.

Lemma keeps_forEach A (f : A -> M unit) l :
  (forall x, keeps_styles (f x)) -> keeps_styles (forEach f l).
Proof.
  intros H. induction l as [|x r IH]; simpl.
  - apply keeps_ret.
  - apply keeps_bind; [apply H|intros _; exact IH].
Qed.

Create HintDb keeps.

#[local] Hint Resolve keeps_ret keeps_throw keeps_unmodelled keeps_set_root
  keeps_set_title keeps_get_root keeps_log : keeps.

Ltac keeps :=
  repeat first
    [ apply keeps_bind; [|intros ?]
    | apply keeps_forEach; intros ?
    | solve [auto with keeps]
    | match goal with
      | |- keeps_styles (if ?b then _ else _) => destruct b
      | |- keeps_styles (match ?x with _ => _ end) => destruct x
      end ].

Lemma keeps_updateMeta d : keeps_styles (updateMeta d).
Proof. unfold updateMeta, setDescription, head_appendChild. keeps. Qed.

Lemma keeps_renderHeader d : keeps_styles (renderHeader d).
Proof. unfold renderHeader, setElementContent, renderContacts. keeps. Qed.

Lemma keeps_renderSection d s : keeps_styles (renderSection d s).
Proof. unfold renderSection. keeps. Qed.

(** *** Loading *)

(** X1: [loadData] never touches the page.  A failing load writes exactly
    one warning and throws again what it caught; a load that does not fail
    writes nothing and yields the parsed body, a document exactly when the
    body was one. *)
Theorem loadData_outcome f w :
  (load_fails f = true ->
   loadData f w
   = (Throw (load_error f),
      with_console
        (console w ++ [Warn "Could not load data.json:" (Some (load_error f))])
        w))
  /\ (load_fails f = false ->
      exists data,
        loadData f w = (Normal data, w)
        /\ forall d,
            data = Some d <-> exists st, f = Response true st (JsonDocument d)).
Proof.
  split; intros H.
  - destruct f as [|[] st []]; try discriminate H; reflexivity.
  - destruct f as [|[] st [| |d]]; try discriminate H.
    + exists None. split; [reflexivity|].
      intros d. split; [discriminate|intros [st' E]; discriminate E].
    + exists (Some d). split; [reflexivity|].
      intros d'. split.
      * intros [= <-]. exists st. reflexivity.
      * intros [st' [= _ <-]]. reflexivity.
Qed.

Lemma loadData_outcome_witness :
  loadData Rejected Sample.world0
  = (Throw FetchFailed,
     with_console [Warn "Could not load data.json:" (Some FetchFailed)]
                  Sample.world0)
  /\ exists data,
      loadData (Response true 200 (JsonDocument Sample2.resume)) Sample.world0
      = (Normal data, Sample.world0).
Proof.
  split.
  - apply (loadData_outcome Rejected Sample.world0). reflexivity.
  - destruct (loadData_outcome
                (Response true 200 (JsonDocument Sample2.resume))
                Sample.world0) as [_ B].
    destruct (B eq_refl) as (data & E & _). exists data. exact E.
Defined.

(** X2: a body that is the JSON text [null] loads, the render pass does
    nothing with it, and reading the theme off it throws: [init] ends
    normally with the page as it was and one error on the console. *)
Theorem init_on_null_body st w :
  init (Response true st JsonNull) w
  = (Normal tt,
     with_console
       (console w ++
        [Err "Failed to initialize portfolio:"
             (Some (TypeError "Cannot read properties of null"))]) w).
Proof. destruct w; reflexivity. Qed.

(** *** A section that throws *)

Lemma call_thrown r d container s : snd (call r d container s) = thrown r d s.
Proof.
  unfold thrown. destruct r; try reflexivity.
  simpl. unfold renderContactSection.
  destruct (resolveContacts d s); reflexivity.
Qed.

Lemma renderContainer_outcome d s c :
  snd (renderContainer d s c) = (diagnostics s, failure d s).
Proof.
  unfold renderContainer, diagnostics, failure.
  destruct (renderers (section_type s)) as [r|[]|]; try reflexivity.
  rewrite <- (call_thrown r d (resetContainer s c) s).
  destruct (call r d (resetContainer s c) s). reflexivity.
Qed.

Lemma failure_renderable d s : failure d s = None <-> renderable s = true.
Proof.
  destruct s as [i t [c|it|it|it|[[str|l]|]|ty]];
    unfold failure, renderable, section_type; simpl;
    try (split; reflexivity).
  - unfold thrown; simpl.
    unfold renderContactSection, resolveContacts; simpl.
    destruct (String.eqb str "contacts"); simpl.
    + destruct (contacts d); simpl; split; reflexivity.
    + destruct (String.eqb str ""); simpl; split; try reflexivity;
        discriminate.
  - destruct (renderers ty) as [r|[]|]; try (split; reflexivity);
      try (split; discriminate).
    destruct r; unfold thrown; simpl; split; reflexivity.
Qed.

(** X3: what the callback of [renderSections] does with a section whose
    id is an identifier and whose mount point and container exist.  It
    throws exactly when no renderer can take the section: the type names
    a property of [Object.prototype] that cannot be called this way, or
    the items of a contact section are a string other than the sentinel
    and the empty one.  It writes a diagnostic exactly when the table
    does not know the type. *)
Theorem renderSection_outcome d s w el c :
  Css.identifier (id s) = true ->
  find (matches (ById (id s))) (root w) = Some el ->
  find_desc (matches (ByClass "container")) el = Some c ->
  fst (renderSection d s w)
  = match failure d s with Some e => Throw e | None => Normal tt end
  /\ console (snd (renderSection d s w)) = console w ++ diagnostics s
  /\ (failure d s = None <-> renderable s = true)
  /\ (diagnostics s = [] <-> renderers (section_type s) <> Undefined).
Proof.
  intros Hi H Hc. rewrite (renderSection_container d s w Hi H Hc).
  rewrite renderContainer_outcome. simpl.
  split; [reflexivity|]. split; [reflexivity|].
  split; [apply failure_renderable|].
  unfold diagnostics.
  destruct (renderers (section_type s)); split; intros E;
    try reflexivity; try discriminate; congruence.
Qed.

Lemma renderSection_outcome_witness :
  fst (renderSection Sample2.broken
         (Sample.sec "plain" "Plain" (Other "__proto__")) Sample.world0)
  = Throw (TypeError "renderer is not a function")
  /\ console (snd (renderSection Sample2.broken
                     (Sample.sec "plain" "Plain" (Other "__proto__"))
                     Sample.world0)) = [].
Proof.
  destruct (@renderSection_outcome Sample2.broken
              (Sample.sec "plain" "Plain" (Other "__proto__")) Sample.world0
              (Sample.el "section" [("id", "plain")]
                 [ Sample.el "div" [("class", "wide container")]
                     [ Sample.el "p" [] [TextNode "no heading"] ] ])
              (Sample.el "div" [("class", "wide container")]
                 [ Sample.el "p" [] [TextNode "no heading"] ])
              eq_refl eq_refl eq_refl) as (A & B & _).
  split; [exact A|exact B].
Defined.

Lemma renderSection_renderable d s w :
  Css.identifier (id s) = true ->
  renderable s = true -> fst (renderSection d s w) = Normal tt.
Proof.
  intros Hi Hr.
  destruct (find (matches (ById (id s))) (root w)) as [el|] eqn:Ef.
  - destruct (find_desc (matches (ByClass "container")) el) as [c|] eqn:Ec.
    + rewrite (renderSection_container d s w Hi Ef Ec).
      rewrite renderContainer_outcome. simpl.
      rewrite (proj2 (failure_renderable d s) Hr). reflexivity.
    + rewrite (renderSection_no_container d s w Hi Ef Ec). reflexivity.
  - rewrite (renderSection_no_mount d s w Hi Ef). reflexivity.
Qed.

(** X4: when a section throws, the pass stops there.  [init] catches the
    exception and ends normally in the state the throwing callback left,
    with one error more on the console: the sections after it are not
    visited, the theme is not applied (style variables and body font are
    what they were) and the navigation is not generated. *)
Theorem throwing_section_stops_the_pass d st w before s after w0 e w1 :
  sections d = Some (before ++ s :: after) ->
  (updateMeta d ;; renderHeader d ;; forEach (renderSection d) before)%js w
  = (Normal tt, w0) ->
  renderSection d s w0 = (Throw e, w1) ->
  init (Response true st (JsonDocument d)) w
  = (Normal tt,
     with_console
       (console w1 ++ [Err "Failed to initialize portfolio:" (Some e)]) w1)
  /\ style_vars w1 = style_vars w
  /\ body_font w1 = body_font w.
Proof.
  intros Hs H0 Hthrow.
  assert (K : style_vars w1 = style_vars w /\ body_font w1 = body_font w).
  { assert (K0 : keeps_styles
                   (updateMeta d ;; renderHeader d ;;
                    forEach (renderSection d) before)%js).
    { apply keeps_bind; [apply keeps_updateMeta|intros _].
      apply keeps_bind; [apply keeps_renderHeader|intros _].
      apply keeps_forEach. intros x. apply keeps_renderSection. }
    destruct (K0 w) as [V F]. rewrite H0 in V, F. simpl in V, F.
    destruct (keeps_renderSection d s w0) as [V' F'].
    rewrite Hthrow in V', F'. simpl in V', F'.
    split; congruence. }
  split; [|exact K].
  assert (R : renderPortfolio (Some d) w = (Throw e, w1)).
  { unfold renderPortfolio, renderSections. rewrite Hs.
    unfold bind in H0 |- *.
    destruct (updateMeta d w) as [[[]|e1|] wa]; try discriminate H0.
    destruct (renderHeader d wa) as [[[]|e2|] wb]; try discriminate H0.
    rewrite forEach_app.
    destruct (forEach (renderSection d) before wb) as [[[]|e3|] wc];
      try discriminate H0.
    injection H0 as ->.
    simpl. unfold bind. rewrite Hthrow. reflexivity. }
  unfold init. unfold try_catch at 1. unfold bind at 1.
  change (loadData (Response true st (JsonDocument d)) w)
    with (Normal (Some d), w).
  cbv beta iota. unfold bind at 1. rewrite R. reflexivity.
Qed.

Lemma throwing_section_witness :
  exists w1 e,
    init (Response true 200 (JsonDocument Sample2.broken)) Sample.world0
    = (Normal tt,
       with_console
         (console w1 ++ [Err "Failed to initialize portfolio:" (Some e)]) w1)
    /\ style_vars w1 = [] /\ body_font w1 = None.
Proof.
  eexists. eexists.
  eapply (@throwing_section_stops_the_pass Sample2.broken 200 Sample.world0
            [Sample.about] (Sample.sec "plain" "Plain" (Other "__proto__"))
            [Sample.bare]);
    [reflexivity|vm_compute; reflexivity|vm_compute; reflexivity].
Defined.

Lemma keeps_generateNavigation d : keeps_styles (generateNavigation (Some d)).
Proof. unfold generateNavigation. keeps. Qed.

(** X23: the render pass and the theme keep apart.  Whatever the document
    and the page, and whether it ends normally or throws, the render pass
    leaves the style variables and the body font as they were. *)
Theorem render_pass_keeps_styles data w :
  style_vars (snd (renderPortfolio data w)) = style_vars w
  /\ body_font (snd (renderPortfolio data w)) = body_font w.
Proof.
  destruct data as [d|]; [|split; reflexivity].
  assert (K : keeps_styles (renderPortfolio (Some d))).
  { unfold renderPortfolio, renderSections, initializeNavigation.
    apply keeps_bind; [apply keeps_updateMeta|intros _].
    apply keeps_bind; [apply keeps_renderHeader|intros _].
    apply keeps_bind.
    - destruct (sections d); [|apply keeps_ret].
      apply keeps_forEach. intros s. apply keeps_renderSection.
    - intros _. apply keeps_bind; [apply keeps_generateNavigation|intros _].
      apply keeps_ret. }
  apply K.
Qed.

(** X24: the contact renderer and what it finds in [items].  It throws,
    and leaves the container as it is, exactly when the items are a
    string that is neither the sentinel nor empty.  Otherwise it appends
    exactly one wrapper to the container, holding one entry per contact
    of the list it resolved, in order: the items themselves when they are
    an array, the [contacts] of the document when they are the sentinel.
    The wrapper is empty exactly when that list is: the items are absent,
    the empty string or an empty array, or they are the sentinel and the
    document has no [contacts] or an empty list of them. *)
Theorem contact_wrapper d s t a cs :
  let l := match resolveContacts d s with
           | ContactList l => l
           | _ => []
           end in
  (resolveContacts d s = NotAnArray <->
   exists str,
     contact_section_items s = Some (ItemsString str)
     /\ str <> "contacts" /\ str <> "")
  /\ (resolveContacts d s = NotAnArray ->
      renderContactSection d (Element t a cs) s
      = (Element t a cs,
         Some (TypeError "contacts.forEach is not a function")))
  /\ (resolveContacts d s <> NotAnArray ->
      renderContactSection d (Element t a cs) s
      = (Element t a (cs ++ [Element "div" [("class", "contact-links")]
                                     (map contactEntry l)]), None)
      /\ (map contactEntry l = [] <->
          contact_section_items s = None
          \/ contact_section_items s = Some (ItemsString "")
          \/ contact_section_items s = Some (ItemsArray [])
          \/ (contact_section_items s = Some (ItemsString "contacts")
              /\ (contacts d = None \/ contacts d = Some []))))
  /\ (forall l', contact_section_items s = Some (ItemsArray l') -> l = l')
  /\ (forall l',
         contact_section_items s = Some (ItemsString "contacts") ->
         contacts d = Some l' -> l = l').
Proof.
  intros l. subst l.
  split; [|split; [|split; [|split]]].
  - unfold resolveContacts.
    destruct (contact_section_items s) as [[str|l]|].
    + destruct (String.eqb_spec str "contacts") as [Ec|Hc].
      * destruct (contacts d); split; try discriminate;
          intros (str' & E & H & _); injection E as E; congruence.
      * destruct (String.eqb_spec str "") as [Ee|He]; split;
          try discriminate.
        -- intros (str' & E & _ & H). injection E as E. congruence.
        -- intros _. exists str. repeat split; assumption.
        -- reflexivity.
    + split; [discriminate|]. intros (str & H & _). discriminate H.
    + split; [discriminate|]. intros (str & H & _). discriminate H.
  - intros E. unfold renderContactSection. rewrite E. reflexivity.
  - intros Hn. split.
    + destruct (resolveContacts d s) eqn:E.
      * apply (LinkFacts.renderContactSection_list _ _ _ _ _ E).
      * unfold renderContactSection. rewrite E. reflexivity.
      * contradiction.
    + unfold resolveContacts in *.
      destruct (contact_section_items s) as [[str|l]|].
      * destruct (String.eqb_spec str "contacts") as [Ec|Hc].
        -- subst str.
           destruct (contacts d) as [[|c r]|]; simpl; split;
             try discriminate; try reflexivity.
           ++ intros _. right. right. right. split; [reflexivity|].
              right. reflexivity.
           ++ intros [H|[H|[H|[_ [H|H]]]]]; discriminate H.
           ++ intros _. right. right. right. split; [reflexivity|].
              left. reflexivity.
        -- destruct (String.eqb_spec str "") as [Ee|He].
           ++ subst str.
              split; [intros _; right; left; reflexivity|reflexivity].
           ++ contradiction.
      * destruct l as [|c r]; simpl; split; try discriminate.
        -- intros _. right. right. left. reflexivity.
        -- reflexivity.
        -- intros [H|[H|[H|[H _]]]]; discriminate H.
      * split; [intros _; left; reflexivity|reflexivity].
  - intros l' E. unfold resolveContacts. rewrite E. reflexivity.
  - intros l' E C. unfold resolveContacts. rewrite E, C. reflexivity.
Qed.

(** *** Documents the pass cannot fail on *)

Lemma total_forEach A (f : A -> M unit) l w :
  (forall x w', In x l -> fst (f x w') = Normal tt) ->
  fst (forEach f l w) = Normal tt.
Proof.
  revert w. induction l as [|x r IH]; intros w H; simpl; [reflexivity|].
  unfold bind. pose proof (H x w (or_introl eq_refl)) as Hx.
  destruct (f x w) as [[[]|e|] w']; simpl in Hx; try discriminate Hx.
  apply IH. intros y w'' Hy. apply H. right. exact Hy.
Qed.

Lemma renderHeader_total d w : fst (renderHeader d w) = Normal tt.
Proof.
  unfold renderHeader, setElementContent, renderContacts, modify_query.
  destruct (doc_personal d) as [p|]; [|reflexivity].
  unfold bind, get_root, set_root, ret.
  destruct (truthy_string (name p)), (truthy_string (personal_title p)),
    (truthy_string (summary p)), (contacts d); reflexivity.
Qed.

Lemma generateNavigation_total d w :
  fst (generateNavigation (Some d) w) = Normal tt.
Proof.
  unfold generateNavigation.
  destruct (negb (truthy_bool (navigation_enabled d))); [reflexivity|].
  destruct (sections d); reflexivity.
Qed.

Lemma applyTheme_total d w : fst (applyTheme (Some d) w) = Normal tt.
Proof.
  unfold applyTheme. destruct (doc_theme d) as [t|]; [|reflexivity].
  unfold bind, setProperty, set_font, ret.
  destruct (truthy_string (primary t)), (truthy_string (primaryDark t)),
    (truthy_string (fonts_primary t)), (truthy_string (containerWidth t));
    reflexivity.
Qed.

Lemma append_in_head_Some m cs :
  existsb (fun c => match c with
                    | Element t _ _ => String.eqb t "head"
                    | _ => false
                    end) cs = true ->
  append_in_head m cs <> None.
Proof.
  induction cs as [|c r IH]; simpl; [discriminate|].
  destruct c as [t a k| |]; simpl.
  - destruct (String.eqb t "head"); simpl; [discriminate|].
    intros H. specialize (IH H).
    destruct (append_in_head m r); [discriminate|contradiction].
  - intros H. specialize (IH H).
    destruct (append_in_head m r); [discriminate|contradiction].
  - intros H. specialize (IH H).
    destruct (append_in_head m r); [discriminate|contradiction].
Qed.

Lemma head_append_Some m r :
  has_head r = true -> head_append m r <> None.
Proof.
  destruct r as [t a cs| |]; simpl; try discriminate.
  destruct (String.eqb t "html"); simpl; [|discriminate].
  intros H. pose proof (append_in_head_Some m cs H) as Ha.
  destruct (append_in_head m cs); [discriminate|contradiction].
Qed.

Lemma head_append_None m r :
  has_head r = false -> head_append m r = None.
Proof.
  destruct r as [t a cs| |]; simpl; try reflexivity.
  destruct (String.eqb t "html"); simpl; [|reflexivity].
  intros H.
  assert (N : append_in_head m cs = None).
  { induction cs as [|c k IH]; simpl in *; [reflexivity|].
    destruct c as [t0 a0 k0| |]; simpl in H.
    - destruct (String.eqb t0 "head"); simpl in H; [discriminate H|].
      rewrite (IH H). reflexivity.
    - rewrite (IH H). reflexivity.
    - rewrite (IH H). reflexivity. }
  rewrite N. reflexivity.
Qed.

(** A rewriting that keeps tags keeps the tags of the children of the
    root, and with them the head. *)
Lemma update_tag P X (f : node -> node * X) n n' x :
  (forall e, tag_of (fst (f e)) = tag_of e) ->
  update P f n = Some (n', x) -> tag_of n' = tag_of n.
Proof.
  intros Hf. destruct n as [t a cs| |].
  - rewrite update_Element. destruct (P (Element t a cs)).
    + intros [= E]. change n' with (fst (n', x)). rewrite <- E. apply Hf.
    + destruct (update_list P f cs) as [[cs' y]|]; [|discriminate].
      intros [= <- _]. reflexivity.
  - rewrite update_leaf by reflexivity. destruct (P (TextNode data)).
    + intros [= E]. change n' with (fst (n', x)). rewrite <- E. apply Hf.
    + discriminate.
  - rewrite update_leaf by reflexivity. destruct (P (Markup html)).
    + intros [= E]. change n' with (fst (n', x)). rewrite <- E. apply Hf.
    + discriminate.
Qed.

Lemma update_list_tags P X (f : node -> node * X) l l' x :
  (forall e, tag_of (fst (f e)) = tag_of e) ->
  update_list P f l = Some (l', x) -> map tag_of l' = map tag_of l.
Proof.
  intros Hf. revert l' x.
  induction l as [|c r IH]; intros l' x; simpl; [discriminate|].
  destruct (update P f c) as [[c' y]|] eqn:Uc.
  - intros [= <- _]. simpl. rewrite (update_tag P f c Hf Uc). reflexivity.
  - destruct (update_list P f r) as [[r' y]|]; [|discriminate].
    intros [= <- _]. simpl. rewrite (IH _ _ eq_refl). reflexivity.
Qed.

Lemma append_in_head_tags m cs cs' :
  append_in_head m cs = Some cs' -> map tag_of cs' = map tag_of cs.
Proof.
  revert cs'. induction cs as [|c r IH]; intros cs'; simpl; [discriminate|].
  destruct c as [t a k| |].
  - destruct (String.eqb t "head").
    + intros [= <-]. reflexivity.
    + destruct (append_in_head m r) as [r'|]; [|discriminate].
      intros [= <-]. simpl. rewrite (IH _ eq_refl). reflexivity.
  - destruct (append_in_head m r) as [r'|]; [|discriminate].
    intros [= <-]. simpl. rewrite (IH _ eq_refl). reflexivity.
  - destruct (append_in_head m r) as [r'|]; [|discriminate].
    intros [= <-]. simpl. rewrite (IH _ eq_refl). reflexivity.
Qed.

Lemma has_head_tags t a cs cs' :
  map tag_of cs' = map tag_of cs ->
  has_head (Element t a cs') = has_head (Element t a cs).
Proof.
  intros H. simpl. f_equal.
  revert cs' H. induction cs as [|c r IH]; intros [|c' r']; simpl;
    try discriminate; [reflexivity|].
  intros [= Hc Hr]. rewrite (IH _ Hr).
  destruct c, c'; simpl in Hc; try discriminate Hc; try reflexivity.
  injection Hc as ->. reflexivity.
Qed.

Lemma set_textContent_tag t e : tag_of (set_textContent t e) = tag_of e.
Proof. destruct e; reflexivity. Qed.

Lemma has_head_retitle t r : has_head (retitle t r) = has_head r.
Proof.
  unfold retitle.
  destruct (update (matches (ByTag "title")) _ r) as [[r' []]|] eqn:U.
  - destruct r as [tg a cs| |].
    + rewrite update_Element in U.
      destruct (matches (ByTag "title") (Element tg a cs)) eqn:Em.
      * injection U as <-. simpl in Em. apply String.eqb_eq in Em.
        subst tg. reflexivity.
      * destruct (update_list _ _ cs) as [[cs' y]|] eqn:UL; [|discriminate U].
        injection U as <-. apply has_head_tags.
        apply (@update_list_tags _ _
                 (fun e => (set_textContent t e, tt)) _ _ _
                 (fun e => set_textContent_tag t e) UL).
    + simpl in U. discriminate U.
    + simpl in U. discriminate U.
  - destruct r as [tg a cs| |]; simpl; try reflexivity.
    destruct (String.eqb tg "html") eqn:Eh; [|simpl; rewrite Eh; reflexivity].
    destruct (append_in_head _ cs) as [cs'|] eqn:Ea; simpl.
    + pose proof (@has_head_tags tg a _ _ (@append_in_head_tags _ _ _ Ea))
        as H.
      simpl in H. rewrite Eh in H |- *. exact H.
    + rewrite Eh. reflexivity.
Qed.

Lemma setDescription_total v w :
  has_head (root w) = true -> fst (setDescription v w) = Normal tt.
Proof.
  intros H0. unfold setDescription, bind, get_root.
  destruct (update isDescription _ (root w)) as [[r' []]|];
    [reflexivity|].
  unfold head_appendChild, bind, get_root.
  pose proof (head_append_Some (descriptionTag v) _ H0).
  destruct (head_append _ (root w)); [reflexivity|contradiction].
Qed.

Lemma updateMeta_total d w :
  has_head (root w) = true -> fst (updateMeta d w) = Normal tt.
Proof.
  intros Hh. unfold updateMeta.
  destruct (doc_meta d) as [m|]; [|reflexivity].
  unfold bind.
  destruct (truthy_string (meta_title m)),
    (truthy_string (meta_description m)); simpl;
    try reflexivity; apply setDescription_total; simpl;
    rewrite ?has_head_retitle; exact Hh.
Qed.

(** X5: on a page with a head, a document whose sections all have an
    identifier as their id and are renderable cannot make the pass fail:
    the render pass, the theme and the navigation run to their end, and
    [init] ends in the state they leave, its handler unused. *)
Theorem renderable_document_succeeds d st w :
  has_head (root w) = true ->
  (forall l, sections d = Some l ->
             forallb (fun s => Css.identifier (id s)) l = true) ->
  (forall l, sections d = Some l -> forallb renderable l = true) ->
  exists w',
    (renderPortfolio (Some d) ;; applyTheme (Some d) ;;
     generateNavigation (Some d))%js w = (Normal tt, w')
    /\ init (Response true st (JsonDocument d)) w = (Normal tt, w').
Proof.
  intros Hh Hi Hs.
  assert (R : fst (renderPortfolio (Some d) w) = Normal tt).
  { unfold renderPortfolio, bind.
    pose proof (updateMeta_total d w Hh) as U.
    destruct (updateMeta d w) as [[[]|e|] wa]; try discriminate U.
    pose proof (renderHeader_total d wa) as Hd.
    destruct (renderHeader d wa) as [[[]|e|] wb]; try discriminate Hd.
    assert (S : fst (renderSections d wb) = Normal tt).
    { unfold renderSections. destruct (sections d) as [l|]; [|reflexivity].
      apply total_forEach. intros x w' Hx.
      specialize (Hs l eq_refl). rewrite forallb_forall in Hs.
      specialize (Hi l eq_refl). rewrite forallb_forall in Hi.
      apply renderSection_renderable; [apply Hi, Hx|apply Hs, Hx]. }
    destruct (renderSections d wb) as [[[]|e|] wc]; try discriminate S.
    pose proof (generateNavigation_total d wc) as G.
    destruct (generateNavigation (Some d) wc) as [[[]|e|] wd];
      try discriminate G. reflexivity. }
  assert (B : exists w',
             (renderPortfolio (Some d) ;; applyTheme (Some d) ;;
              generateNavigation (Some d))%js w = (Normal tt, w')).
  { unfold bind.
    destruct (renderPortfolio (Some d) w) as [[[]|e|] w1];
      try discriminate R.
    pose proof (applyTheme_total d w1) as T.
    destruct (applyTheme (Some d) w1) as [[[]|e|] w2]; try discriminate T.
    pose proof (generateNavigation_total d w2) as G.
    destruct (generateNavigation (Some d) w2) as [[[]|e|] w3];
      try discriminate G.
    exists w3. reflexivity. }
  destruct B as [w' B]. exists w'. split; [exact B|].
  unfold init. unfold try_catch at 1. unfold bind at 1.
  change (loadData (Response true st (JsonDocument d)) w)
    with (Normal (Some d), w).
  cbv beta iota. rewrite B. reflexivity.
Qed.

Lemma renderable_document_witness :
  exists w',
    init (Response true 200 (JsonDocument Sample2.resume)) Sample.world0
    = (Normal tt, w').
Proof.
  destruct (@renderable_document_succeeds Sample2.resume 200 Sample.world0
              eq_refl) as (w' & _ & E).
  - intros l [= <-]. reflexivity.
  - intros l [= <-]. reflexivity.
  - exists w'. exact E.
Defined.
End PassFacts.


(** * Header, contacts, metadata and theme *)

Module HeaderFacts.
Import Dom DomFacts PortfolioRenderer RenderFacts LinkFacts IdempotenceFacts.

(** X6: the header is an override, not a clearing.  Without [personal]
    the header step changes nothing, the contact lists included, whatever
    [contacts] holds; with a [personal] whose three fields are absent or
    empty it does what [renderContacts] does and nothing else. *)
Theorem header_is_override_only d w :
  (doc_personal d = None -> renderHeader d w = (Normal tt, w))
  /\ (forall p,
         doc_personal d = Some p ->
         truthy_string (name p) = false ->
         truthy_string (personal_title p) = false ->
         truthy_string (summary p) = false ->
         renderHeader d w = renderContacts d w
         /\ (contacts d = None -> renderHeader d w = (Normal tt, w))).
Proof.
  split.
  - intros H. unfold renderHeader. rewrite H. reflexivity.
  - intros p H Hn Ht Hs.
    assert (E : renderHeader d w = renderContacts d w).
    { unfold renderHeader, setElementContent. rewrite H.
      unfold bind, get_root. rewrite Hn, Ht, Hs. reflexivity. }
    split; [exact E|].
    intros Hc. rewrite E. unfold renderContacts. rewrite Hc. reflexivity.
Qed.

Lemma header_is_override_witness :
  renderHeader (Sample.doc None (Some [Sample.mail]) None) Sample.world0
  = (Normal tt, Sample.world0).
Proof.
  apply (header_is_override_only
           (Sample.doc None (Some [Sample.mail]) None) Sample.world0).
  reflexivity.
Defined.

(** X7: [setElementContent] with a simple selector.  Nothing changes when
    the content is absent or empty or no element matches; otherwise the
    first match keeps its tag and attributes and gets the content as its
    only child, as text or as markup. *)
Theorem setElementContent_effect sel content isHTML w :
  (truthy_string content = false
   \/ find (matches sel) (root w) = None ->
   setElementContent (Simple sel) content isHTML w = (Normal tt, w))
  /\ (forall v t a old,
         content = Some v -> v <> "" ->
         find (matches sel) (root w) = Some (Element t a old) ->
         fst (setElementContent (Simple sel) content isHTML w) = Normal tt
         /\ find (matches sel)
                 (root (snd (setElementContent (Simple sel) content isHTML w)))
            = Some (Element t a [if isHTML then Markup v else TextNode v])).
Proof.
  split.
  - intros [H|H]; unfold setElementContent, bind, get_root.
    + rewrite H. reflexivity.
    + destruct (truthy_string content); [|reflexivity].
      unfold modify_query, modify, set_root.
      rewrite (update_None _ _ _ H). rewrite with_root_same. reflexivity.
  - intros v t a old -> Hv Hf.
    unfold setElementContent, bind, get_root, truthy_string, to_string.
    apply String.eqb_neq in Hv. rewrite Hv. cbv beta iota delta [negb].
    split; [reflexivity|].
    unfold modify_query, modify, set_root. cbn [fst snd root with_root].
    set (g := if isHTML then set_innerHTML v else set_textContent v).
    destruct (update_Some (matches sel) (fun n => (g n, tt)) _ Hf)
      as [r' Hr'].
    rewrite Hr'.
    rewrite (find_update (matches sel) (matches_shallow sel) _ _ Hf Hr').
    + simpl. unfold g.
      destruct isHTML; simpl;
        unfold markup_children, text_children; rewrite Hv; reflexivity.
    + pose proof (find_matches _ _ Hf) as Hm.
      unfold g. destruct isHTML; exact Hm.
Qed.

Lemma setElementContent_witness :
  find (matches (ByClass "name"))
       (root (snd (setElementContent (Simple (ByClass "name")) (Some "Jo")
                     false Sample.world0)))
  = Some (Element "h1" [("class", "name")] [TextNode "Jo"]).
Proof.
  destruct (setElementContent_effect (ByClass "name") (Some "Jo") false
              Sample.world0) as [_ B].
  destruct (B "Jo" "h1" [("class", "name")] [TextNode "Static name"]
              eq_refl) as [_ E].
  - discriminate.
  - reflexivity.
  - exact E.
Defined.

(** X8: [createElement] skips the attributes whose value is [undefined]:
    it builds what it would build without them, an element of the given
    tag. *)
Theorem createElement_skips_undefined tag attributes :
  createElement tag attributes
  = createElement tag
      (filter (fun kv => match snd kv with Some _ => true | None => false end)
              attributes)
  /\ tag_of (createElement tag attributes) = Some tag.
Proof.
  unfold createElement.
  generalize (Element tag [] []) at 1 2 as e.
  split.
  - revert e. induction attributes as [|[k [v|]] r IH]; intros e; simpl;
      [reflexivity|apply IH|apply IH].
  - assert (G : forall e, tag_of e = Some tag ->
                 tag_of (fold_left
                   (fun element kv =>
                      match snd kv with
                      | None => element
                      | Some value =>
                          if String.eqb (fst kv) "textContent"
                          then set_textContent value element
                          else if String.eqb (fst kv) "innerHTML"
                          then set_innerHTML value element
                          else set_prop (fst kv) value element
                      end) attributes e) = Some tag).
    { induction attributes as [|[k [v|]] r IH]; intros e0 He; simpl;
        [exact He| |apply IH, He].
      apply IH.
      destruct (String.eqb k "textContent");
        [|destruct (String.eqb k "innerHTML")];
        destruct e0; simpl in *; assumption. }
    apply G. reflexivity.
Qed.

(** *** The two contact lists *)

Section Untouched.
Variable P : node -> bool.
Hypothesis P_shallow :
  forall t a cs cs', P (Element t a cs) = P (Element t a cs').

(** A rewriting that brings no match of [P] leaves a tree without one
    without one. *)
Lemma find_None_after_update Q X (f : node -> node * X) n n' x :
  find P n = None -> update Q f n = Some (n', x) ->
  (forall e, find P e = None -> find P (fst (f e)) = None) ->
  find P n' = None.
Proof.
  intros Hn U Hf. revert n' x Hn U.
  induction n as [t a cs IH| |] using node_ind2; intros n' x Hn U.
  - rewrite update_Element in U.
    destruct (Q (Element t a cs)).
    + injection U as U. change n' with (fst (n', x)). rewrite <- U.
      apply Hf, Hn.
    + destruct (update_list Q f cs) as [[cs' y]|] eqn:EU; [|discriminate U].
      injection U as <- <-.
      rewrite find_Element in Hn |- *.
      rewrite (P_shallow t a cs' cs).
      destruct (P (Element t a cs)); [discriminate Hn|].
      revert cs' EU Hn.
      induction IH as [|c r Hc _ IHr]; intros cs' EU Hn; simpl in *;
        [discriminate EU|].
      destruct (find P c) eqn:Ec; [discriminate Hn|].
      destruct (update Q f c) as [[c' z]|] eqn:Uc.
      * injection EU as <- <-. simpl.
        rewrite (Hc _ _ eq_refl eq_refl). exact Hn.
      * destruct (update_list Q f r) as [[r' z]|] eqn:Ur; [|discriminate EU].
        injection EU as <- <-. simpl. rewrite Ec.
        apply (IHr _ eq_refl Hn).
  - simpl in U. destruct (Q (TextNode s)); [|discriminate U].
    injection U as U. change n' with (fst (n', x)). rewrite <- U.
    apply Hf, Hn.
  - simpl in U. destruct (Q (Markup s)); [|discriminate U].
    injection U as U. change n' with (fst (n', x)). rewrite <- U.
    apply Hf, Hn.
Qed.

Lemma find_list_map_None A (mk : A -> node) l :
  (forall x, find P (mk x) = None) -> find_list P (map mk l) = None.
Proof.
  intros H. induction l as [|x r IH]; simpl; [reflexivity|].
  rewrite H. exact IH.
Qed.

Lemma find_None_refill A (mk : A -> node) l e :
  (forall x, find P (mk x) = None) ->
  find P e = None -> find P (refill mk l e) = None.
Proof.
  intros Hmk He. destruct e as [t a cs| |].
  - rewrite refill_Element, find_Element.
    rewrite (P_shallow t a _ cs).
    rewrite (find_None_root _ _ He).
    apply find_list_map_None, Hmk.
  - unfold refill. simpl.
    assert (E : forall n, fold_left (fun p x => appendChild (mk x) p) l
                                    (TextNode n) = TextNode n)
      by (intros n; induction l; simpl; auto).
    rewrite E. exact He.
  - unfold refill. simpl.
    assert (E : forall n, fold_left (fun p x => appendChild (mk x) p) l
                                    (Markup n) = Markup n)
      by (intros n; induction l; simpl; auto).
    rewrite E. exact He.
Qed.
End Untouched.

Lemma headerContact_has_no_id i c :
  find (matches (ById i)) (headerContact c) = None.
Proof.
  unfold headerContact, target_of.
  destruct (JsString.startsWith (url c) "http"); simpl;
    unfold text_children; destruct (String.eqb (label c) ""); reflexivity.
Qed.

Lemma contactLink_shape c :
  contactLink c
  = Element "p" []
      [Element "i" [("class", icon c)] [];
       TextNode " ";
       Element "a"
         (("href", url c)
            :: if JsString.startsWith (url c) "http"
               then [("target", "_blank")] else [])
         (text_children (label c))].
Proof.
  unfold contactLink, target_of.
  destruct (JsString.startsWith (url c) "http"); reflexivity.
Qed.

Lemma headerContact_shape c :
  headerContact c
  = Element "a"
      (("href", url c) :: ("class", "contact-link")
         :: if JsString.startsWith (url c) "http"
            then [("target", "_blank")] else [])
      [Element "i" [("class", icon c)] [];
       Element "span" [] (text_children (label c))].
Proof.
  unfold headerContact, target_of.
  destruct (JsString.startsWith (url c) "http"); reflexivity.
Qed.

(** X9: [renderContacts] with a [contacts] list never throws.  When it
    ends, the first element with id [contact-links], if there is one,
    holds exactly one paragraph per contact, in order: an icon, a space
    and a labelled link, which opens in a new context exactly when the url
    starts with [http].  On a page without that element, the first element
    with id [header-contacts] keeps its tag and attributes and holds
    exactly one link per contact, in order.  Without a [contacts] list
    nothing changes. *)
Theorem renderContacts_fills d w :
  (contacts d = None -> renderContacts d w = (Normal tt, w))
  /\ (forall cs,
         contacts d = Some cs ->
         fst (renderContacts d w) = Normal tt
         /\ (forall e,
                find (matches (ById "contact-links"))
                     (root (snd (renderContacts d w))) = Some e ->
                children_of e
                = map (fun c =>
                         Element "p" []
                           [Element "i" [("class", icon c)] [];
                            TextNode " ";
                            Element "a"
                              (("href", url c)
                                 :: if JsString.startsWith (url c) "http"
                                    then [("target", "_blank")] else [])
                              (text_children (label c))]) cs)
         /\ (forall t a old,
                find (matches (ById "contact-links")) (root w) = None ->
                find (matches (ById "header-contacts")) (root w)
                = Some (Element t a old) ->
                find (matches (ById "header-contacts"))
                     (root (snd (renderContacts d w)))
                = Some (Element t a
                          (map (fun c =>
                                  Element "a"
                                    (("href", url c)
                                       :: ("class", "contact-link")
                                       :: if JsString.startsWith (url c) "http"
                                          then [("target", "_blank")] else [])
                                    [Element "i" [("class", icon c)] [];
                                     Element "span" []
                                       (text_children (label c))]) cs)))).
Proof.
  split.
  - intros H. unfold renderContacts. rewrite H. reflexivity.
  - intros cs H.
    assert (E : renderContacts d w
                = (Normal tt,
                   with_root
                     (modify (matches (ById "contact-links"))
                        (refill contactLink cs)
                        (modify (matches (ById "header-contacts"))
                           (refill headerContact cs) (root w))) w)).
    { unfold renderContacts. rewrite H.
      unfold bind, get_root, set_root. destruct w; reflexivity. }
    rewrite E. cbn [fst snd root with_root].
    set (r1 := modify (matches (ById "header-contacts"))
                      (refill headerContact cs) (root w)).
    split; [reflexivity|]. split.
    + intros e He. unfold modify in He.
      destruct (find (matches (ById "contact-links")) r1) as [e1|] eqn:F1.
      * destruct (update_Some (matches (ById "contact-links"))
                    (fun n => (refill contactLink cs n, tt)) _ F1)
          as [r2 U].
        rewrite U in He.
        rewrite (find_update (matches (ById "contact-links"))
                   (matches_shallow _) _ _ F1 U) in He.
        -- injection He as <-. simpl.
           destruct (matches_element _ _ (find_matches _ _ F1))
             as (t & a & k & ->).
           rewrite refill_Element. simpl.
           apply map_ext. intros c. apply contactLink_shape.
        -- simpl. apply refill_keeps, (find_matches _ _ F1).
      * rewrite (update_None _ _ _ F1) in He. congruence.
    + intros t a old HL HH.
      assert (L1 : find (matches (ById "contact-links")) r1 = None).
      { unfold r1, modify.
        destruct (update (matches (ById "header-contacts"))
                    (fun n => (refill headerContact cs n, tt)) (root w))
          as [[r' []]|] eqn:U; [|exact HL].
        apply (find_None_after_update (matches (ById "contact-links"))
                 (matches_shallow _) _ _ _ HL U).
        intros e He. simpl.
        apply (find_None_refill (matches (ById "contact-links"))
                 (matches_shallow _)); [|exact He].
        intros c. apply headerContact_has_no_id. }
      unfold modify at 1. rewrite (update_None _ _ _ L1).
      unfold r1, modify.
      destruct (update_Some (matches (ById "header-contacts"))
                  (fun n => (refill headerContact cs n, tt)) _ HH)
        as [r' U].
      rewrite U.
      rewrite (find_update (matches (ById "header-contacts"))
                 (matches_shallow _) _ _ HH U).
      * simpl. rewrite refill_Element. do 2 f_equal.
        apply map_ext. intros c. apply headerContact_shape.
      * simpl. apply refill_keeps, (find_matches _ _ HH).
Qed.

Lemma renderContacts_witness :
  find (matches (ById "header-contacts"))
       (root (snd (renderContacts
                     (Sample.doc None (Some [Sample.site]) None)
                     Sample.world0)))
  = Some (Element "div" [("id", "header-contacts")]
            [Element "a"
               [("href", "https://a.example"); ("class", "contact-link");
                ("target", "_blank")]
               [Element "i" [("class", "fa-globe")] [];
                Element "span" [] [TextNode "Site"]]]).
Proof.
  destruct (renderContacts_fills
              (Sample.doc None (Some [Sample.site]) None) Sample.world0)
    as [_ B].
  destruct (B [Sample.site] eq_refl) as (_ & _ & C).
  apply (C "div" [("id", "header-contacts")] [] eq_refl eq_refl).
Defined.

(** *** Metadata *)

Lemma truthy_to_string o :
  truthy_string o = true -> o = Some (to_string o) /\ to_string o <> "".
Proof.
  destruct o as [v|]; simpl; [|discriminate].
  intros H. split; [reflexivity|].
  intros E. rewrite E in H. discriminate H.
Qed.

Lemma truthy_Some v : v <> "" -> truthy_string (Some v) = true.
Proof.
  intros H. unfold truthy_string. apply String.eqb_neq in H.
  rewrite H. reflexivity.
Qed.

(** The document [updateMeta] leaves: the title step, then the
    description step on the page the title step left. *)
Lemma updateMeta_root d m w :
  doc_meta d = Some m ->
  root (snd (updateMeta d w))
  = (let r1 := if truthy_string (meta_title m)
               then retitle (to_string (meta_title m)) (root w)
               else root w in
     if truthy_string (meta_description m)
     then describe (to_string (meta_description m)) r1
     else r1).
Proof.
  intros H. unfold updateMeta. rewrite H.
  destruct (truthy_string (meta_title m)),
           (truthy_string (meta_description m));
    unfold bind, set_title, get_root, set_root, ret; simpl;
    try reflexivity; apply setDescription_effect.
Qed.

(** [document.title = v] on a page. *)
Lemma retitle_effect v r :
  v <> "" ->
  (forall tg a old,
      find (matches (ByTag "title")) r = Some (Element tg a old) ->
      find (matches (ByTag "title")) (retitle v r)
      = Some (Element tg a [TextNode v]))
  /\ (find (matches (ByTag "title")) r = None ->
      Conformance.has_head r = true ->
      find (matches (ByTag "title")) (retitle v r)
      = Some (Element "title" [] [TextNode v]))
  /\ (find (matches (ByTag "title")) r = None ->
      Conformance.has_head r = false ->
      retitle v r = r).
Proof.
  intros Hv. apply String.eqb_neq in Hv.
  split; [|split].
  - intros tg a old Hf. unfold retitle.
    destruct (update_Some (matches (ByTag "title"))
                (fun e => (set_textContent v e, tt)) _ Hf) as [r' U].
    rewrite U.
    rewrite (find_update (matches (ByTag "title"))
               (matches_shallow (ByTag "title")) _ _ Hf U).
    + simpl. unfold text_children. rewrite Hv. reflexivity.
    + apply (find_matches _ _ Hf).
  - intros Hf Hh. unfold retitle. rewrite (update_None _ _ _ Hf).
    pose proof (PassFacts.head_append_Some
                  (set_textContent v (Element "title" [] [])) _ Hh) as Ha.
    destruct (head_append _ r) as [r'|] eqn:Ea; [|contradiction].
    rewrite (@head_append_finds (ByTag "title") _ _ _ Hf Ea eq_refl).
    simpl. unfold text_children. rewrite Hv. reflexivity.
  - intros Hf Hh. unfold retitle. rewrite (update_None _ _ _ Hf).
    rewrite (PassFacts.head_append_None _ _ Hh). reflexivity.
Qed.

(** X10: [updateMeta] on a document with [meta].  With a title present
    and not empty, the first [title] element of the page keeps its tag
    and attributes and gets the title as its only text; on a page with a
    head and no [title] element one is made in the head; on a page with
    neither, nothing happens; with the title absent or empty the page
    stays.  The description step works on the page the title step left:
    with a description present and not empty, the first description tag
    keeps its place, tag and other attributes and gets the description as
    its content; on a page with a head and no such tag, a tag holding the
    name and the description, and nothing else, is made and is then the
    first one; with the description absent or empty the page stays. *)
Theorem updateMeta_effect d m w :
  doc_meta d = Some m ->
  let r1 := if truthy_string (meta_title m)
            then retitle (to_string (meta_title m)) (root w)
            else root w in
  let r2 := root (snd (updateMeta d w)) in
  (truthy_string (meta_title m) = false -> r1 = root w)
  /\ (forall v tg a old,
         meta_title m = Some v -> v <> "" ->
         find (matches (ByTag "title")) (root w) = Some (Element tg a old) ->
         find (matches (ByTag "title")) r1
         = Some (Element tg a [TextNode v]))
  /\ (forall v,
         meta_title m = Some v -> v <> "" ->
         find (matches (ByTag "title")) (root w) = None ->
         (Conformance.has_head (root w) = true ->
          find (matches (ByTag "title")) r1
          = Some (Element "title" [] [TextNode v]))
         /\ (Conformance.has_head (root w) = false -> r1 = root w))
  /\ Conformance.has_head r1 = Conformance.has_head (root w)
  /\ (truthy_string (meta_description m) = false -> r2 = r1)
  /\ (forall v t a cs,
         meta_description m = Some v -> v <> "" ->
         find isDescription r1 = Some (Element t a cs) ->
         find isDescription r2
         = Some (Element t (set_attr "content" v a) cs))
  /\ (forall v,
         meta_description m = Some v -> v <> "" ->
         find isDescription r1 = None ->
         Conformance.has_head (root w) = true ->
         find isDescription r2
         = Some (Element "meta" [("name", "description"); ("content", v)] [])).
Proof.
  intros H r1 r2.
  assert (R : r2 = if truthy_string (meta_description m)
                   then describe (to_string (meta_description m)) r1
                   else r1).
  { unfold r2. rewrite (updateMeta_root d w H). reflexivity. }
  assert (Hh : Conformance.has_head r1 = Conformance.has_head (root w)).
  { unfold r1. destruct (truthy_string (meta_title m)); [|reflexivity].
    apply PassFacts.has_head_retitle. }
  split; [|split; [|split; [|split; [|split; [|split]]]]].
  - intros Ht. unfold r1. rewrite Ht. reflexivity.
  - intros v tg a old Hv Hne Hf. unfold r1. rewrite Hv.
    rewrite (truthy_Some Hne). simpl.
    apply (proj1 (retitle_effect (root w) Hne) tg a old Hf).
  - intros v Hv Hne Hf. unfold r1. rewrite Hv.
    rewrite (truthy_Some Hne). simpl.
    destruct (retitle_effect (root w) Hne) as (_ & B & C).
    split; intros Hd; [apply B|apply C]; assumption.
  - exact Hh.
  - intros Hd. rewrite R, Hd. reflexivity.
  - intros v t a cs Hv Hne Hf. rewrite R, Hv.
    rewrite (truthy_Some Hne). simpl.
    unfold describe.
    destruct (update_Some isDescription
                (fun n => (set_prop "content" v n, tt)) _ Hf) as [r' U].
    rewrite U.
    rewrite (find_update isDescription
               (matches_shallow (ByTagAttr "meta" "name" "description"))
               _ _ Hf U).
    + reflexivity.
    + apply content_keeps, (find_matches _ _ Hf).
  - intros v Hv Hne Hf Hd. rewrite R, Hv.
    rewrite (truthy_Some Hne). simpl.
    unfold describe. rewrite (update_None _ _ _ Hf).
    rewrite <- Hh in Hd.
    pose proof (PassFacts.head_append_Some (descriptionTag v) _ Hd) as Ha.
    destruct (head_append (descriptionTag v) r1) as [r'|] eqn:Ea;
      [|contradiction].
    apply (@head_append_finds
             (ByTagAttr "meta" "name" "description") _ _ _ Hf Ea eq_refl).
Qed.

Lemma updateMeta_witness :
  find (matches (ByTag "title"))
       (retitle "Jo" Sample.page)
  = Some (Element "title" [] [TextNode "Jo"])
  /\ find isDescription (root (snd (updateMeta Sample2.resume Sample.world0)))
     = Some (Element "meta" [("name", "description"); ("content", "CV")] []).
Proof.
  destruct (@updateMeta_effect Sample2.resume
              {| meta_title := Some "Jo"; meta_description := Some "CV" |}
              Sample.world0 eq_refl) as (_ & T & _ & _ & _ & _ & N).
  split.
  - apply (T "Jo" "title" [] [TextNode "Static"]);
      [reflexivity|discriminate|reflexivity].
  - apply (N "CV"); [reflexivity|discriminate|reflexivity|reflexivity].
Defined.

(** *** The theme of the document *)

Lemma get_set_same k v a : get_attr k (set_attr k v a) = Some v.
Proof.
  induction a as [|[k' v'] r IH]; simpl.
  - rewrite String.eqb_refl. reflexivity.
  - destruct (String.eqb k k') eqn:E; simpl.
    + rewrite String.eqb_refl. reflexivity.
    + rewrite E. exact IH.
Qed.

(** One guarded assignment of a style variable. *)
Lemma guarded_setProperty k field w :
  exists w',
    (if truthy_string field then setProperty k (to_string field)
     else ret tt) w = (Normal tt, w')
    /\ root w' = root w /\ console w' = console w
    /\ style_engine w' = style_engine w /\ body_font w' = body_font w
    /\ get_attr k (style_vars w')
       = (if truthy_string field
          then match style_engine w k (to_string field) with
               | Some stored => Some stored
               | None => get_attr k (style_vars w)
               end
          else get_attr k (style_vars w))
    /\ (forall k', String.eqb k' k = false ->
                   get_attr k' (style_vars w')
                   = get_attr k' (style_vars w)).
Proof.
  destruct (truthy_string field) eqn:E.
  - destruct (truthy_to_string _ E) as [_ Hne].
    apply String.eqb_neq in Hne.
    unfold setProperty. rewrite Hne.
    destruct (style_engine w k (to_string field)) as [stored|].
    + eexists. split; [reflexivity|]. simpl.
      repeat split; try reflexivity.
      * apply get_set_same.
      * intros k' Hk. apply get_set_other, Hk.
    + exists w. repeat split; reflexivity.
  - exists w. repeat split; reflexivity.
Qed.

Lemma guarded_set_font field w :
  exists w',
    (if truthy_string field then set_font (to_string field)
     else ret tt) w = (Normal tt, w')
    /\ root w' = root w /\ console w' = console w
    /\ style_engine w' = style_engine w /\ style_vars w' = style_vars w
    /\ body_font w'
       = (if truthy_string field
          then match style_engine w "font-family" (to_string field) with
               | Some stored => Some stored
               | None => body_font w
               end
          else body_font w).
Proof.
  destruct (truthy_string field) eqn:E.
  - destruct (truthy_to_string _ E) as [_ Hne].
    apply String.eqb_neq in Hne.
    unfold set_font. rewrite Hne.
    destruct (style_engine w "font-family" (to_string field)) as [stored|].
    + eexists. split; [reflexivity|]. simpl. repeat split; reflexivity.
    + exists w. repeat split; reflexivity.
  - exists w. repeat split; reflexivity.
Qed.

(** X11: [applyTheme] touches the three style variables and the body font
    and nothing else: the document and the console stay, and so does
    every other style variable.  For a theme field that is present and
    not empty the value goes to the style engine of the browser: the
    variable, or the font, then holds what the engine stores for it, and
    keeps what it held when the engine rejects the value.  With the field
    absent or empty it keeps what it held.  Without a theme nothing
    changes. *)
Theorem applyTheme_effect d w :
  (doc_theme d = None -> applyTheme (Some d) w = (Normal tt, w))
  /\ (forall t,
         doc_theme d = Some t ->
         let w' := snd (applyTheme (Some d) w) in
         let declared (k : string) (field old : option string) :=
           if truthy_string field
           then match style_engine w k (to_string field) with
                | Some stored => Some stored
                | None => old
                end
           else old in
         fst (applyTheme (Some d) w) = Normal tt
         /\ (root w' = root w /\ console w' = console w)
         /\ get_attr "--accent-color" (style_vars w')
            = declared "--accent-color" (primary t)
                (get_attr "--accent-color" (style_vars w))
         /\ get_attr "--dark-accent-color" (style_vars w')
            = declared "--dark-accent-color" (primaryDark t)
                (get_attr "--dark-accent-color" (style_vars w))
         /\ get_attr "--container-width" (style_vars w')
            = declared "--container-width" (containerWidth t)
                (get_attr "--container-width" (style_vars w))
         /\ body_font w'
            = declared "font-family" (fonts_primary t) (body_font w)
         /\ (forall k,
                String.eqb k "--accent-color" = false ->
                String.eqb k "--dark-accent-color" = false ->
                String.eqb k "--container-width" = false ->
                get_attr k (style_vars w') = get_attr k (style_vars w))).
Proof.
  split.
  - intros H. unfold applyTheme. rewrite H. reflexivity.
  - intros t H w' declared. unfold w', declared, applyTheme. rewrite H.
    unfold bind.
    destruct (guarded_setProperty "--accent-color" (primary t) w)
      as (w1 & E1 & R1 & C1 & G1 & F1 & V1 & O1).
    rewrite E1.
    destruct (guarded_setProperty "--dark-accent-color" (primaryDark t) w1)
      as (w2 & E2 & R2 & C2 & G2 & F2 & V2 & O2).
    rewrite E2.
    destruct (guarded_set_font (fonts_primary t) w2)
      as (w3 & E3 & R3 & C3 & G3 & S3 & F3).
    rewrite E3.
    destruct (guarded_setProperty "--container-width" (containerWidth t) w3)
      as (w4 & E4 & R4 & C4 & G4 & F4 & V4 & O4).
    rewrite E4. cbn [fst snd].
    split; [reflexivity|]. split; [split; congruence|].
    split; [|split; [|split; [|split]]].
    + rewrite (O4 "--accent-color" eq_refl), S3,
        (O2 "--accent-color" eq_refl). exact V1.
    + rewrite (O4 "--dark-accent-color" eq_refl), S3, V2, G1,
        (O1 "--dark-accent-color" eq_refl). reflexivity.
    + rewrite V4, G3, G2, G1, S3, (O2 "--container-width" eq_refl),
        (O1 "--container-width" eq_refl).
      reflexivity.
    + rewrite F4, F3, G2, G1, F2, F1. reflexivity.
    + intros k K1 K2 K3.
      rewrite (O4 _ K3), S3, (O2 _ K2), (O1 _ K1). reflexivity.
Qed.

Lemma applyTheme_witness :
  get_attr "--accent-color"
           (style_vars (snd (applyTheme (Some Sample2.resume) Sample.world0)))
  = Some "#ff0000"
  /\ get_attr "--container-width"
              (style_vars (snd (applyTheme (Some Sample2.resume)
                                           Sample.world0)))
     = None
  /\ body_font (snd (applyTheme (Some Sample2.resume) Sample.world0))
     = Some "Inter".
Proof.
  destruct (applyTheme_effect Sample2.resume Sample.world0) as [_ B].
  destruct (B _ eq_refl) as (_ & _ & A & _ & C & F & _).
  split; [exact A|]. split; [exact C|exact F].
Defined.
End HeaderFacts.


(** * Timeline, cards and text *)

Module ContentFacts.
Import Dom DomFacts PortfolioRenderer LinkedTextFacts.

(** The optional pieces of a timeline entry. *)
Lemma renderTimelineItem_shape item :
  renderTimelineItem item
  = Element "div" [("class", "job")]
      ([Element "h3" [] (text_children (item_title item))]
       ++ match item_subtitle item with
          | Some st =>
              [Element "h4" []
                 match sub_links st with
                 | Some (l :: ls) =>
                     markup_children (renderLinkedText (sub_text st) (l :: ls))
                 | _ => text_children (sub_text st)
                 end]
          | None => []
          end
       ++ (if truthy_string (item_period item)
           then [Element "p" [("class", "date")]
                   (text_children (to_string (item_period item)))]
           else [])
       ++ match item_details item with
          | Some (d :: ds) => [Element "ul" [] (map renderDetail (d :: ds))]
          | _ => []
          end).
Proof.
  unfold renderTimelineItem.
  destruct (item_subtitle item) as [[tx [[|l ls]|]]|];
    destruct (item_period item) as [pd|]; simpl;
    try destruct (negb (String.eqb pd ""));
    destruct (item_details item) as [[|d ds]|]; simpl;
    try reflexivity;
    try (change (createElement "ul" []) with (Element "ul" [] []);
         change (appendChild (renderDetail d) (Element "ul" [] []))
           with (Element "ul" [] [renderDetail d]);
         rewrite fold_appendChild; reflexivity).
Qed.

(** A list entry of the timeline. *)
Lemma renderDetail_shape d :
  renderDetail d
  = Element "li" []
      (match detail_link d with
       | Some l =>
           let suffix :=
             (" (" ++ anchorHtml (link_url l) (link_text l) ++ ")")%string in
           [Markup (if String.eqb (detail_text d) "" then Html suffix
                    else Reread (detail_text d) suffix)]
       | None => markup_children (detail_text d)
       end
       ++ match detail_tags d with
          | Some (tag :: tags) =>
              [Element "br" [] [];
               Element "em" []
                 [TextNode ("Tech Stack: "
                            ++ JsString.join ", " (tag :: tags))]]
          | _ => []
          end).
Proof.
  unfold renderDetail, append_innerHTML.
  destruct (detail_link d) as [l|], (detail_tags d) as [[|tag tags]|];
    simpl; unfold markup_children;
    destruct (String.eqb (detail_text d) ""); simpl;
    rewrite <- ?app_assoc, ?app_nil_r; reflexivity.
Qed.

(** X12: the timeline renderer appends one [div.job] per item, in order,
    after what the container holds, and nothing when there are no items.
    An entry holds, in this order and nothing else: the title; the
    subheading when there is a subtitle, as markup with its links when
    it has at least one and as text otherwise; the date line when the
    period is present and not empty; the list when there is at least one
    detail, with one entry per detail in order.  A list entry holds the
    detail text as markup; when the detail has a link, the markup is what
    is read back of the detail text, with the link in parentheses put
    behind it, parsed again; the entry ends with a line break and the
    technology line, the tags joined in order, exactly when the detail
    has at least one tag. *)
Theorem timeline_structure i ttl t a cs :
  renderTimelineSection (Element t a cs)
    {| id := i; title := ttl; body := Timeline None |}
  = Element t a cs
  /\ (forall items,
         renderTimelineSection (Element t a cs)
           {| id := i; title := ttl; body := Timeline (Some items) |}
         = Element t a (cs ++ map renderTimelineItem items))
  /\ (forall item,
         renderTimelineItem item
         = Element "div" [("class", "job")]
             ([Element "h3" [] (text_children (item_title item))]
              ++ match item_subtitle item with
                 | Some st =>
                     [Element "h4" []
                        match sub_links st with
                        | Some (l :: ls) =>
                            markup_children
                              (renderLinkedText (sub_text st) (l :: ls))
                        | _ => text_children (sub_text st)
                        end]
                 | None => []
                 end
              ++ match item_period item with
                 | Some period =>
                     if String.eqb period "" then []
                     else [Element "p" [("class", "date")]
                             [TextNode period]]
                 | None => []
                 end
              ++ match item_details item with
                 | Some (d :: ds) =>
                     [Element "ul" [] (map renderDetail (d :: ds))]
                 | _ => []
                 end))
  /\ (forall d,
         renderDetail d
         = Element "li" []
             (match detail_link d with
              | Some l =>
                  let suffix :=
                    (" (" ++ anchorHtml (link_url l) (link_text l)
                     ++ ")")%string in
                  [Markup (if String.eqb (detail_text d) "" then Html suffix
                           else Reread (detail_text d) suffix)]
              | None =>
                  if String.eqb (detail_text d) "" then []
                  else [Markup (detail_text d)]
              end
              ++ match detail_tags d with
                 | Some (tag :: tags) =>
                     [Element "br" [] [];
                      Element "em" []
                        [TextNode ("Tech Stack: "
                                   ++ JsString.join ", " (tag :: tags))]]
                 | _ => []
                 end)).
Proof.
  split; [reflexivity|]. split; [|split; [|apply renderDetail_shape]].
  - intros items. unfold renderTimelineSection; simpl.
    apply fold_appendChild.
  - intros item. rewrite renderTimelineItem_shape.
    do 3 f_equal.
    destruct (item_period item) as [period|]; simpl; [|reflexivity].
    unfold text_children.
    destruct (String.eqb period ""); reflexivity.
Qed.

(** X13: the cards renderer appends one [div.project] per card, in order,
    and nothing when there are no items.  A card holds its title and its
    content as text, and a third paragraph with the technology line
    exactly when it has at least one tag. *)
Theorem cards_structure i ttl t a cs :
  renderCardsSection (Element t a cs)
    {| id := i; title := ttl; body := Cards None |}
  = Element t a cs
  /\ (forall items,
         renderCardsSection (Element t a cs)
           {| id := i; title := ttl; body := Cards (Some items) |}
         = Element t a (cs ++ map renderCard items))
  /\ (forall item,
         renderCard item
         = Element "div" [("class", "project")]
             ([Element "h3" [] (text_children (card_title item));
               Element "p" [] (text_children (card_content item))]
              ++ match card_tags item with
                 | Some (tag :: tags) =>
                     [Element "p" []
                        [Element "em" []
                           [TextNode ("Tech Stack: "
                                      ++ JsString.join ", " (tag :: tags))]]]
                 | _ => []
                 end)).
Proof.
  split; [reflexivity|]. split.
  - intros items. unfold renderCardsSection; simpl. apply fold_appendChild.
  - intros item. unfold renderCard.
    destruct (card_tags item) as [[|tag tags]|]; reflexivity.
Qed.

(** The text renderer appends exactly one paragraph after what the
    container holds.  The content is its markup, unescaped; an empty
    content gives an empty paragraph, and a section without content gives
    a paragraph reading [undefined]. *)
Lemma text_structure i ttl t a cs :
  (forall c,
      renderTextSection (Element t a cs)
        {| id := i; title := ttl; body := Text (Some c) |}
      = Element t a (cs ++ [Element "p" [] (if String.eqb c "" then []
                                           else [Markup c])]))
  /\ renderTextSection (Element t a cs)
       {| id := i; title := ttl; body := Text None |}
     = Element t a (cs ++ [Element "p" [] [Markup "undefined"]]).
Proof. split; [intros c|]; reflexivity. Qed.

(** *** Inline links *)

Lemma replace_absent s pat rep :
  includes s pat = false -> JsString.replace s pat rep = s.
Proof.
  unfold includes, JsString.replace.
  destruct (JsString.split_first pat s) as [[b a]|]; [discriminate|].
  reflexivity.
Qed.

(** X14: links whose text does not occur in the subtitle leave it as it
    is, however many there are. *)
Theorem renderLinkedText_without_match text links :
  Forall (fun l => includes text (link_text l) = false) links ->
  renderLinkedText text links = text.
Proof.
  intros H. unfold renderLinkedText.
  assert (G : fold_left
                (fun result l =>
                   let linkHtml := anchorHtml (link_url l) (link_text l) in
                   if includes text "(" && includes text ")"
                   then JsString.replace result (link_text l) linkHtml
                   else JsString.replace result (link_text l) linkHtml)
                links text = text).
  { induction H as [|l r Hl _ IH]; simpl; [reflexivity|].
    rewrite (replace_absent _ _ _ Hl).
    destruct (includes text "(" && includes text ")"); exact IH. }
  exact G.
Qed.

Lemma renderLinkedText_without_match_witness :
  renderLinkedText "Acme Corp"
    [ {| link_text := "Initech"; link_url := "https://initech.example" |} ]
  = "Acme Corp".
Proof.
  apply renderLinkedText_without_match.
  repeat constructor.
Defined.

(** X15: one link whose url and text hold no dollar sign.  When the link
    text occurs in the subtitle, the result is the subtitle with the
    first occurrence, and only that one, replaced by the anchor; when it
    does not occur, the subtitle is returned as it is. *)
Theorem renderLinkedText_wraps_first text l :
  JsString.has_dollar (anchorHtml (link_url l) (link_text l)) = false ->
  (includes text (link_text l) = false -> renderLinkedText text [l] = text)
  /\ (includes text (link_text l) = true ->
      exists before after,
        text = (before ++ link_text l ++ after)%string
        /\ renderLinkedText text [l]
           = (before ++ anchorHtml (link_url l) (link_text l) ++ after)%string
        /\ forall before' after',
            text = (before' ++ link_text l ++ after')%string ->
            String.length before <= String.length before').
Proof.
  intros Hd. split.
  - intros H. apply renderLinkedText_without_match.
    constructor; [exact H|constructor].
  - intros H. unfold includes in H.
    destruct (JsString.split_first (link_text l) text) as [[b a]|] eqn:E;
      [|discriminate H].
    exists b, a. split; [apply (@split_first_sound _ _ _ _ E)|]. split.
    + rewrite renderLinkedText_literal by (constructor; [exact Hd|constructor]).
      simpl. unfold JsString.replace_literal. rewrite E. reflexivity.
    + apply (@split_first_least _ _ _ _ E).
Qed.

Lemma renderLinkedText_wraps_witness :
  renderLinkedText "Acme and Acme"
    [ {| link_text := "Acme"; link_url := "https://acme.example" |} ]
  = ("" ++ anchorHtml "https://acme.example" "Acme" ++ " and Acme")%string.
Proof.
  destruct (@renderLinkedText_wraps_first "Acme and Acme"
              {| link_text := "Acme"; link_url := "https://acme.example" |}
              eq_refl) as [_ B].
  destruct (B eq_refl) as (b & a & E & R & L).
  rewrite R.
  assert (Hb : b = ""%string).
  { specialize (L ""%string " and Acme"%string eq_refl).
    destruct b; [reflexivity|simpl in L; inversion L]. }
  subst b. simpl in E. injection E as <-. reflexivity.
Defined.
End ContentFacts.


(** * The theme manager over time *)

Module ThemeOverTime.
Import ThemeManager ThemeInvariant.

Lemma settled_construct st dark icon : settled (construct (fresh st dark icon)).
Proof.
  unfold settled, construct, getDefaultTheme, fresh.
  destruct st as [|[t|]]; simpl.
  - destruct dark as [[]|], icon; simpl;
      repeat split; try discriminate; intros x [= <-]; reflexivity.
  - destruct (String.eqb t "") eqn:Et; simpl.
    + destruct dark as [[]|], icon; simpl;
        repeat split; try discriminate; intros x [= <-]; reflexivity.
    + destruct icon; simpl; repeat split;
        try (intros E; rewrite E in Et; discriminate Et);
        intros x [= <-]; reflexivity.
  - destruct dark as [[]|], icon; simpl;
      repeat split; try discriminate; intros x [= <-]; reflexivity.
Qed.

Lemma settled_handle s e : settled s -> settled (handle s e).
Proof.
  destruct s as [c st pd dt ti ws]. unfold settled; simpl.
  intros (Hd & Hc & Hs & Hi).
  destruct e as [|m]; simpl.
  - unfold toggleTheme, setTheme, setItem; simpl.
    destruct st as [|p], ti, (String.eqb c "light"); simpl;
      repeat split; try discriminate; intros x [= <-]; reflexivity.
  - unfold handleSystemThemeChange; simpl.
    destruct st as [|[t|]]; simpl.
    + destruct m, ti; simpl;
        repeat split; try discriminate; intros x [= <-]; reflexivity.
    + assert (Et : String.eqb t "" = false).
      { apply String.eqb_neq. rewrite (Hs t eq_refl). exact Hc. }
      rewrite Et. simpl. repeat split; assumption.
    + destruct m, ti; simpl;
        repeat split; try discriminate; intros x [= <-]; reflexivity.
Qed.

(** X16: whatever the storage held at the start and whatever happens
    afterwards, clicks on the toggle and changes of the system preference
    in any order, the page follows the manager: the [data-theme] attribute
    is the current theme, the icon is the sun exactly in the dark theme,
    and a persisted value, when there is one, is the current theme. *)
Theorem page_follows_theme st dark icon events :
  let s := run events (construct (fresh st dark icon)) in
  data_theme s = Some (currentTheme s)
  /\ currentTheme s <> ""
  /\ (forall t, localStorage s = Available (Some t) -> t = currentTheme s)
  /\ (forall c, theme_icon s = Some c ->
                c = if String.eqb (currentTheme s) "dark"
                    then "fas fa-sun" else "fas fa-moon").
Proof.
  unfold run.
  pose proof (settled_construct st dark icon) as H.
  revert H. generalize (construct (fresh st dark icon)).
  induction events as [|e r IH]; intros s H; simpl; [exact H|].
  apply IH, settled_handle, H.
Qed.

(** X17: a change of the system preference is ignored while a preference
    is stored: the state stays exactly as it is.  With nothing stored, or
    with the storage out of reach, the theme follows the system and
    nothing is written to the storage. *)
Theorem system_change_respects_preference m s :
  (forall t, localStorage s = Available (Some t) -> t <> "" ->
             handleSystemThemeChange m s = s)
  /\ (localStorage s = Available None \/ localStorage s = Unavailable ->
      currentTheme (handleSystemThemeChange m s)
      = (if m then "dark" else "light")
      /\ data_theme (handleSystemThemeChange m s)
         = Some (if m then "dark" else "light")
      /\ localStorage (handleSystemThemeChange m s) = localStorage s).
Proof.
  destruct s as [c st pd dt ti ws]; simpl. split.
  - intros t -> Ht. apply String.eqb_neq in Ht.
    unfold handleSystemThemeChange; simpl. rewrite Ht. reflexivity.
  - intros [-> | ->]; unfold handleSystemThemeChange; simpl;
      destruct m, ti; simpl; repeat split.
Qed.

Lemma system_change_witness :
  handleSystemThemeChange true
    (construct (fresh (Available (Some "light")) (Some false) None))
  = construct (fresh (Available (Some "light")) (Some false) None)
  /\ currentTheme (handleSystemThemeChange true
                     (construct (fresh (Available None) (Some false) None)))
     = "dark".
Proof.
  split.
  - apply (system_change_respects_preference true
             (construct (fresh (Available (Some "light")) (Some false) None))
           ) with (t := "light"); [reflexivity|discriminate].
  - apply (system_change_respects_preference true
             (construct (fresh (Available None) (Some false) None))).
    left. reflexivity.
Defined.

(** X18: one toggle always lands on a theme value: [light] becomes [dark]
    and anything else, a foreign stored value included, becomes [light].
    The new theme is written to the page and, when the storage is in
    reach, persisted; when it is not, the toggle still takes effect and one
    warning is logged. *)
Theorem toggle_lands_on_theme_value s :
  theme_value (currentTheme (toggleTheme s))
  /\ currentTheme (toggleTheme s)
     = (if String.eqb (currentTheme s) "light" then "dark" else "light")
  /\ data_theme (toggleTheme s) = Some (currentTheme (toggleTheme s))
  /\ (forall p, localStorage s = Available p ->
                localStorage (toggleTheme s)
                = Available (Some (currentTheme (toggleTheme s)))
                /\ warnings (toggleTheme s) = warnings s)
  /\ (localStorage s = Unavailable ->
      localStorage (toggleTheme s) = Unavailable
      /\ warnings (toggleTheme s)
         = warnings s ++ ["Could not save theme preference:"]).
Proof.
  destruct s as [c st pd dt ti ws]. unfold toggleTheme, setTheme, setItem.
  simpl.
  destruct (String.eqb c "light"), st as [|p], ti; simpl;
    unfold theme_value;
    (split; [auto|]); (split; [reflexivity|]); (split; [reflexivity|]);
    (split; [intros q E; try discriminate E; split; reflexivity|]);
    intros E; try discriminate E; split; reflexivity.
Qed.

Lemma toggle_lands_witness :
  currentTheme
    (toggleTheme (construct (fresh (Available (Some "blue")) None None)))
  = "light"
  /\ localStorage
       (toggleTheme (construct (fresh (Available (Some "blue")) None None)))
     = Available (Some "light").
Proof.
  destruct (toggle_lands_on_theme_value
              (construct (fresh (Available (Some "blue")) None None)))
    as (_ & C & _ & P & _).
  split; [exact C|].
  destruct (P (Some "blue") eq_refl) as [E _]. exact E.
Defined.

(** X19: the theme the manager starts with.  A stored value that is not
    empty wins; otherwise the theme is [dark] when the system prefers dark
    and [light] in every other case, an unavailable media query included.
    The start writes to the storage exactly when the storage held a value:
    a stored empty string is overwritten by the theme the system gave. *)
Theorem initial_theme st dark icon :
  let system := match dark with Some true => "dark" | _ => "light" end in
  let s := construct (fresh st dark icon) in
  currentTheme s
  = match st with
    | Available (Some t) => if String.eqb t "" then system else t
    | _ => system
    end
  /\ localStorage s
     = match st with
       | Available (Some _) => Available (Some (currentTheme s))
       | _ => st
       end
  /\ warnings s
     = match st with
       | Unavailable => ["localStorage not available:";
                         "Could not check stored preference:"]
       | _ => []
       end.
Proof.
  unfold construct, getDefaultTheme, fresh.
  destruct st as [|[t|]]; simpl.
  - destruct dark as [[]|], icon; repeat split.
  - destruct (String.eqb t ""); simpl.
    + destruct dark as [[]|], icon; repeat split.
    + destruct icon; repeat split.
  - destruct dark as [[]|], icon; repeat split.
Qed.
End ThemeOverTime.

(** * The mobile menu over time *)

Module MenuFacts.
Import MobileNav.

Lemma contains_app t l1 l2 :
  contains t (l1 ++ l2) = contains t l1 || contains t l2.
Proof. unfold contains. apply existsb_app. Qed.

Lemma contains_remove x t l :
  contains x (remove t l)
  = if String.eqb x t then false else contains x l.
Proof.
  unfold contains, remove.
  induction l as [|y r IH]; simpl.
  - destruct (String.eqb x t); reflexivity.
  - destruct (String.eqb t y) eqn:Ety; simpl; rewrite IH;
      destruct (String.eqb x t) eqn:Ext; try reflexivity.
    + apply String.eqb_eq in Ety. subst y. rewrite Ext. reflexivity.
    + apply String.eqb_eq in Ext. subst x. rewrite Ety. reflexivity.
Qed.

Lemma remove_idem t l : remove t (remove t l) = remove t l.
Proof.
  unfold remove. induction l as [|y r IH]; simpl; [reflexivity|].
  destruct (negb (String.eqb t y)) eqn:E; simpl; [rewrite E, IH|];
    [reflexivity|exact IH].
Qed.

Lemma contains_add x t l :
  contains x (add t l) = if String.eqb x t then true else contains x l.
Proof.
  unfold add. destruct (contains t l) eqn:E.
  - destruct (String.eqb_spec x t) as [->|_]; [exact E|reflexivity].
  - rewrite contains_app. unfold contains at 2. simpl.
    rewrite Bool.orb_false_r.
    destruct (String.eqb_spec x t) as [->|_].
    + apply Bool.orb_true_r.
    + apply Bool.orb_false_r.
Qed.

Lemma contains_toggle x t l :
  contains x (toggle_token t l)
  = if String.eqb x t then negb (contains t l) else contains x l.
Proof.
  unfold toggle_token. destruct (contains t l) eqn:E.
  - rewrite contains_remove. destruct (String.eqb x t); reflexivity.
  - rewrite contains_add. destruct (String.eqb x t); reflexivity.
Qed.

Lemma agrees_handle s c : agrees s -> agrees (handle s c).
Proof.
  destruct s as [o [button|] [bar|] ov]; unfold agrees, handle; simpl;
    try (intros; exact I).
  intros (Hb & Hn & Ho).
  destruct c; simpl.
  - rewrite !contains_toggle. simpl. rewrite Hb, Hn.
    destruct o; repeat split.
  - rewrite !contains_remove. repeat split.
  - destruct o; simpl.
    + rewrite !contains_remove. repeat split.
    + repeat split; assumption.
  - repeat split; assumption.
Qed.

(** X20: on a page whose button and bar do not carry [active] and whose
    body scrolls, the menu and the page agree after every sequence of
    clicks: the button and the bar carry [active], and the body is kept
    from scrolling, exactly while the menu is open. *)
Theorem menu_agrees_with_page button bar clicks :
  contains "active" button = false ->
  contains "active" bar = false ->
  let s := run clicks (construct (Some button) (Some bar) "") in
  exists button' bar',
    navToggle s = Some button' /\ navbar s = Some bar'
    /\ contains "active" button' = isOpen s
    /\ contains "active" bar' = isOpen s
    /\ overflow s = (if isOpen s then "hidden" else "").
Proof.
  intros Hb Hn s.
  assert (A : agrees s /\ listening s = true).
  { unfold s, run.
    assert (A0 : agrees (construct (Some button) (Some bar) "")
                 /\ listening (construct (Some button) (Some bar) "") = true).
    { split; [|reflexivity]. unfold agrees; simpl. repeat split; assumption. }
    revert A0. generalize (construct (Some button) (Some bar) "").
    induction clicks as [|c r IH]; intros s0 A0; simpl; [exact A0|].
    apply IH. destruct A0 as [Ag Li]. split; [apply agrees_handle, Ag|].
    destruct s0 as [o [b0|] [n0|] ov]; try discriminate Li.
    unfold handle; simpl. destruct c; simpl; try reflexivity.
    destruct o; reflexivity. }
  destruct A as [Ag Li]. unfold agrees in Ag. unfold listening in Li.
  destruct (navToggle s) as [b'|]; [|discriminate Li].
  destruct (navbar s) as [n'|]; [|discriminate Li].
  exists b', n'. destruct Ag as (A1 & A2 & A3).
  repeat split; assumption.
Qed.

Lemma menu_agrees_witness :
  let s := run [OnToggle; InsideBar; Outside; OnToggle]
               (construct (Some ["nav-toggle"]) (Some ["navbar"]) "") in
  exists button' bar',
    navToggle s = Some button' /\ navbar s = Some bar'
    /\ contains "active" button' = isOpen s
    /\ contains "active" bar' = isOpen s
    /\ overflow s = (if isOpen s then "hidden" else "").
Proof.
  apply (@menu_agrees_with_page ["nav-toggle"] ["navbar"]
           [OnToggle; InsideBar; Outside; OnToggle]); reflexivity.
Defined.

(** X21: two toggles in a row bring the menu back: [isOpen] and, for
    every token, its presence on the button and on the bar are what they
    were.  Closing is idempotent, and closing after anything leaves the
    menu closed and [active] off both elements. *)
Theorem toggle_twice_and_close s :
  isOpen (toggle (toggle s)) = isOpen s
  /\ (forall x button button2,
         navToggle s = Some button ->
         navToggle (toggle (toggle s)) = Some button2 ->
         contains x button2 = contains x button)
  /\ (forall x bar bar2,
         navbar s = Some bar ->
         navbar (toggle (toggle s)) = Some bar2 ->
         contains x bar2 = contains x bar)
  /\ close (close s) = close s
  /\ (forall button bar,
         navToggle s = Some button -> navbar s = Some bar ->
         isOpen (close s) = false
         /\ (forall button', navToggle (close s) = Some button' ->
                             contains "active" button' = false)
         /\ (forall bar', navbar (close s) = Some bar' ->
                          contains "active" bar' = false)
         /\ overflow (close s) = "").
Proof.
  destruct s as [o [button|] [bar|] ov]; unfold toggle, close; simpl.
  all: split; [try apply Bool.negb_involutive; reflexivity|].
  all: split;
    [intros x b b2 E1 E2; try discriminate E1;
     injection E1 as <-; injection E2 as <-;
     rewrite ?contains_toggle;
     destruct (String.eqb x "active") eqn:Ex;
     rewrite ?contains_toggle, ?String.eqb_refl, ?Bool.negb_involutive;
     try reflexivity;
     apply String.eqb_eq in Ex; subst x; reflexivity|].
  all: split;
    [intros x b b2 E1 E2; try discriminate E1;
     injection E1 as <-; injection E2 as <-;
     rewrite ?contains_toggle;
     destruct (String.eqb x "active") eqn:Ex;
     rewrite ?contains_toggle, ?String.eqb_refl, ?Bool.negb_involutive;
     try reflexivity;
     apply String.eqb_eq in Ex; subst x; reflexivity|].
  all: split.
  all: try reflexivity.
  all: try (intros b n E1 E2; discriminate).
  - rewrite !remove_idem. reflexivity.
  - intros b n _ _. split; [reflexivity|]. split; [|split; [|reflexivity]].
    + intros b' [= <-]. rewrite contains_remove. reflexivity.
    + intros n' [= <-]. rewrite contains_remove. reflexivity.
Qed.

(** X22: on a page that lacks the button or the bar the menu does
    nothing at all: [toggle] and [close] leave the state as it is, and so
    does every sequence of clicks. *)
Theorem menu_without_elements_is_inert s :
  navToggle s = None \/ navbar s = None ->
  toggle s = s /\ close s = s /\ forall clicks, run clicks s = s.
Proof.
  intros H.
  assert (L : listening s = false).
  { unfold listening. destruct H as [-> | ->]; [reflexivity|].
    destruct (navToggle s); reflexivity. }
  split; [|split].
  - unfold toggle. destruct H as [H|H]; rewrite H;
      [destruct (navbar s)|]; reflexivity.
  - unfold close. destruct H as [H|H]; rewrite H;
      [destruct (navbar s)|]; reflexivity.
  - intros clicks. unfold run.
    induction clicks as [|c r IH]; simpl; [reflexivity|].
    unfold handle at 2. rewrite L. exact IH.
Qed.

Lemma menu_without_elements_witness :
  run [OnToggle; Outside; OnLink] (construct None (Some ["navbar"]) "")
  = construct None (Some ["navbar"]) "".
Proof.
  apply (@menu_without_elements_is_inert (construct None (Some ["navbar"]) "")).
  left. reflexivity.
Defined.
End MenuFacts.

(** * The render pass, run twice *)

Unset Implicit Arguments.

Module PlaceFacts.
Import Dom DomFacts PortfolioRenderer Place.

(** *** Paths *)

Lemma prefix_refl p : prefix p p = true.
Proof. induction p as [|i p IH]; simpl; [reflexivity|]. rewrite Nat.eqb_refl. exact IH. Qed.

Lemma path_prefix_app p q : prefix p (p ++ q) = true.
Proof. induction p as [|i p IH]; simpl; [reflexivity|]. rewrite Nat.eqb_refl. exact IH. Qed.

Lemma prefix_app_inv p q : prefix p q = true -> exists u, q = p ++ u.
Proof.
  revert q. induction p as [|i p IH]; intros q; simpl.
  - intros _. exists q. reflexivity.
  - destruct q as [|j q]; [discriminate|].
    intros H. apply andb_prop in H as [E H]. apply Nat.eqb_eq in E. subst j.
    destruct (IH _ H) as [u ->]. exists u. reflexivity.
Qed.

Lemma prefix_trans p q u :
  prefix p q = true -> prefix q u = true -> prefix p u = true.
Proof.
  intros H1 H2. destruct (prefix_app_inv _ _ H1) as [a ->].
  destruct (prefix_app_inv _ _ H2) as [b ->].
  rewrite <- app_assoc. apply path_prefix_app.
Qed.

Lemma nth_map_nth_same i f l :
  nth_error (map_nth i f l) i = option_map f (nth_error l i).
Proof.
  revert i. induction l as [|c r IH]; intros [|i]; simpl; try reflexivity.
  apply IH.
Qed.

Lemma nth_map_nth_other i j f l :
  i <> j -> nth_error (map_nth i f l) j = nth_error l j.
Proof.
  revert i j. induction l as [|c r IH]; intros [|i] [|j] H; simpl;
    try reflexivity; try congruence.
  apply IH. congruence.
Qed.

Lemma map_nth_fixed i f l c :
  nth_error l i = Some c -> f c = c -> map_nth i f l = l.
Proof.
  revert i. induction l as [|c0 r IH]; intros [|i]; simpl; try discriminate.
  - intros [= ->] ->. reflexivity.
  - intros H Hf. rewrite (IH _ H Hf). reflexivity.
Qed.

Lemma map_nth_none i f l : nth_error l i = None -> map_nth i f l = l.
Proof.
  revert i. induction l as [|c0 r IH]; intros [|i]; simpl; try discriminate;
    try reflexivity.
  intros H. rewrite (IH _ H). reflexivity.
Qed.

Lemma map_nth_ext i f g l c :
  nth_error l i = Some c -> f c = g c -> map_nth i f l = map_nth i g l.
Proof.
  revert i. induction l as [|c0 r IH]; intros [|i]; simpl; try discriminate.
  - intros [= ->] ->. reflexivity.
  - intros H Hf. rewrite (IH _ H Hf). reflexivity.
Qed.

Lemma sub_leaf p n : is_element n = false -> p <> [] -> sub p n = None.
Proof.
  destruct p as [|i p]; [congruence|].
  destruct n; simpl; try discriminate; intros _ _; destruct i; reflexivity.
Qed.

Lemma sub_graft_same p g n x :
  sub p n = Some x -> sub p (graft p g n) = Some (g x).
Proof.
  revert n. induction p as [|i p IH]; intros n; simpl.
  - intros [= ->]. reflexivity.
  - destruct n as [t a cs| |]; simpl; try (destruct i; discriminate).
    rewrite nth_map_nth_same.
    destruct (nth_error cs i) as [c|]; simpl; [|discriminate].
    apply IH.
Qed.

Lemma sub_graft_apart p q g n :
  prefix p q = false -> prefix q p = false ->
  sub q (graft p g n) = sub q n.
Proof.
  revert q n. induction p as [|i p IH]; intros q n; simpl; [discriminate|].
  destruct q as [|j q]; simpl; [discriminate|].
  intros H1 H2.
  destruct n as [t a cs| |]; simpl; try reflexivity.
  destruct (Nat.eqb_spec i j) as [->|Hij].
  - rewrite Nat.eqb_refl in H2. simpl in H1, H2.
    rewrite nth_map_nth_same.
    destruct (nth_error cs j) as [c|]; simpl; [|reflexivity].
    apply IH; assumption.
  - rewrite nth_map_nth_other by exact Hij. reflexivity.
Qed.

Lemma graft_fixed p g n x :
  sub p n = Some x -> g x = x -> graft p g n = n.
Proof.
  revert n. induction p as [|i p IH]; intros n; simpl.
  - intros [= ->] H. exact H.
  - destruct n as [t a cs| |]; simpl; try reflexivity.
    destruct (nth_error cs i) as [c|] eqn:E; [|discriminate].
    intros H Hg. f_equal.
    apply (map_nth_fixed _ _ _ _ E). apply (IH _ H Hg).
Qed.

Lemma graft_ext p f g n x :
  sub p n = Some x -> f x = g x -> graft p f n = graft p g n.
Proof.
  revert n. induction p as [|i p IH]; intros n; simpl.
  - intros [= ->] H. exact H.
  - destruct n as [t a cs| |]; simpl; try reflexivity.
    destruct (nth_error cs i) as [c|] eqn:E; [|discriminate].
    intros H Hg. f_equal.
    apply (map_nth_ext _ _ _ _ _ E). apply (IH _ H Hg).
Qed.

Lemma graft_invalid p g n : sub p n = None -> graft p g n = n.
Proof.
  revert n. induction p as [|i p IH]; intros n; simpl; [discriminate|].
  destruct n as [t a cs| |]; simpl; try reflexivity.
  destruct (nth_error cs i) as [c|] eqn:E.
  - intros H. f_equal.
    apply (map_nth_fixed _ _ _ _ E). apply (IH _ H).
  - intros _. rewrite map_nth_none by exact E. reflexivity.
Qed.

Lemma sub_app p q n :
  sub (p ++ q) n = match sub p n with Some x => sub q x | None => None end.
Proof.
  revert n. induction p as [|i p IH]; intros n; simpl; [reflexivity|].
  destruct (nth_error (children_of n) i); [apply IH|reflexivity].
Qed.

Lemma graft_app p q g n :
  graft (p ++ q) g n = graft p (graft q g) n.
Proof.
  revert n. induction p as [|i p IH]; intros n; simpl; [reflexivity|].
  destruct n as [t a cs| |]; try reflexivity.
  f_equal. clear t a. revert i.
  induction cs as [|c r IHr]; intros [|i]; simpl; try reflexivity.
  - rewrite IH. reflexivity.
  - rewrite IHr. reflexivity.
Qed.

Lemma graft_tag p g n :
  (forall x, tag_of (g x) = tag_of x) -> tag_of (graft p g n) = tag_of n.
Proof.
  intros H. destruct p as [|i p]; simpl; [apply H|].
  destruct n; reflexivity.
Qed.

Lemma graft_attrs p g n :
  (forall x, attrs_of (g x) = attrs_of x) ->
  attrs_of (graft p g n) = attrs_of n.
Proof.
  intros H. destruct p as [|i p]; simpl; [apply H|].
  destruct n; reflexivity.
Qed.

(** *** Places and what [find] and [update] do *)

Section Walk.
Variable P : node -> bool.

Lemma locate_Element t a cs :
  locate P (Element t a cs)
  = if P (Element t a cs) then Some [] else locate_list P cs.
Proof.
  simpl. destruct (P (Element t a cs)); [reflexivity|].
  induction cs as [|c r IH]; simpl; [reflexivity|].
  destruct (locate P c); [reflexivity|]. rewrite IH. reflexivity.
Qed.

Lemma locate_leaf n :
  is_element n = false -> locate P n = if P n then Some [] else None.
Proof. destruct n; simpl; intros H; try discriminate; reflexivity. Qed.

Lemma sub_list_shift p c r :
  p <> [] -> sub_list (shift p) (c :: r) = sub_list p r.
Proof. destruct p as [|i q]; [congruence|reflexivity]. Qed.

Lemma locate_list_cons_path l p : locate_list P l = Some p -> p <> [].
Proof.
  revert p. induction l as [|c r IH]; intros p; simpl; [discriminate|].
  destruct (locate P c); [intros [= <-]; discriminate|].
  destruct (locate_list P r) as [q|]; simpl; [|discriminate].
  intros [= <-]. specialize (IH _ eq_refl).
  destruct q; [congruence|discriminate].
Qed.

Lemma locate_list_sub_aux l :
  Forall (fun n => forall p, locate P n = Some p ->
                   exists x, sub p n = Some x /\ P x = true) l ->
  forall p, locate_list P l = Some p ->
  exists x, sub_list p l = Some x /\ P x = true.
Proof.
  intros IH. induction IH as [|c r Hc _ IHr]; intros p; simpl;
    [discriminate|].
  destruct (locate P c) as [q|] eqn:Ec.
  - intros [= <-]. simpl. apply Hc. reflexivity.
  - destruct (locate_list P r) as [q|] eqn:Er; simpl; [|discriminate].
    intros [= <-].
    rewrite sub_list_shift by apply (locate_list_cons_path _ _ Er).
    apply IHr. reflexivity.
Qed.

Lemma locate_sub n p :
  locate P n = Some p -> exists x, sub p n = Some x /\ P x = true.
Proof.
  revert p. induction n as [t a cs IH| |] using node_ind2; intros p.
  - rewrite locate_Element. destruct (P (Element t a cs)) eqn:EP.
    + intros [= <-]. exists (Element t a cs). split; [reflexivity|exact EP].
    + intros H. destruct (locate_list_sub_aux _ IH _ H) as (x & Hx & Px).
      exists x. split; [|exact Px].
      destruct p as [|i q]; [discriminate Hx|exact Hx].
  - rewrite locate_leaf by reflexivity.
    destruct (P (TextNode s)) eqn:EP; [|discriminate].
    intros [= <-]. eexists; split; [reflexivity|exact EP].
  - rewrite locate_leaf by reflexivity.
    destruct (P (Markup s)) eqn:EP; [|discriminate].
    intros [= <-]. eexists; split; [reflexivity|exact EP].
Qed.

Lemma locate_list_sub l p :
  locate_list P l = Some p ->
  exists x, sub_list p l = Some x /\ P x = true.
Proof.
  apply locate_list_sub_aux.
  apply Forall_forall. intros n _ q. apply locate_sub.
Qed.

Lemma locate_find n :
  find P n = match locate P n with Some p => sub p n | None => None end.
Proof.
  induction n as [t a cs IH| |] using node_ind2.
  - rewrite find_Element, locate_Element.
    destruct (P (Element t a cs)); [reflexivity|].
    assert (E : find_list P cs
                = match locate_list P cs with
                  | Some p => sub_list p cs
                  | None => None
                  end).
    { induction IH as [|c r Hc _ IHr]; simpl; [reflexivity|].
      rewrite Hc. destruct (locate P c) as [p|] eqn:Ec.
      - simpl. destruct (locate_sub _ _ Ec) as (x & -> & _). reflexivity.
      - rewrite IHr.
        destruct (locate_list P r) as [q|] eqn:Er; simpl; [|reflexivity].
        rewrite sub_list_shift; [reflexivity|].
        apply (locate_list_cons_path _ _ Er). }
    rewrite E. destruct (locate_list P cs) as [[|i q]|] eqn:El; try reflexivity.
    exfalso. apply (locate_list_cons_path _ _ El). reflexivity.
  - rewrite find_leaf, locate_leaf by reflexivity.
    destruct (P (TextNode s)); reflexivity.
  - rewrite find_leaf, locate_leaf by reflexivity.
    destruct (P (Markup s)); reflexivity.
Qed.

Lemma locate_list_find l :
  find_list P l = match locate_list P l with
                  | Some p => sub_list p l
                  | None => None
                  end.
Proof.
  induction l as [|c r IH]; simpl; [reflexivity|].
  rewrite locate_find. destruct (locate P c) as [p|] eqn:Ec.
  - simpl. destruct (locate_sub _ _ Ec) as (x & -> & _). reflexivity.
  - rewrite IH.
    destruct (locate_list P r) as [q|] eqn:Er; simpl; [|reflexivity].
    rewrite sub_list_shift; [reflexivity|].
    apply (locate_list_cons_path _ _ Er).
Qed.

Lemma locate_None_find n : locate P n = None <-> find P n = None.
Proof.
  rewrite locate_find. destruct (locate P n) as [p|] eqn:E.
  - destruct (locate_sub _ _ E) as (x & -> & _). split; discriminate.
  - split; reflexivity.
Qed.

Lemma locate_list_None_find l :
  locate_list P l = None <-> find_list P l = None.
Proof.
  rewrite locate_list_find. destruct (locate_list P l) as [p|] eqn:E.
  - destruct (locate_list_sub _ _ E) as (x & -> & _). split; discriminate.
  - split; reflexivity.
Qed.

Lemma graft_list_shift p g c r :
  p <> [] -> graft_list (shift p) g (c :: r) = c :: graft_list p g r.
Proof. destruct p as [|i q]; [congruence|reflexivity]. Qed.

(** [update] rewrites at the place of the first match. *)
Lemma update_list_graft_aux X (f : node -> node * X) l :
  Forall (fun n =>
            update P f n
            = match locate P n with
              | Some p =>
                  match sub p n with
                  | Some x => Some (graft p (fun y => fst (f y)) n, snd (f x))
                  | None => None
                  end
              | None => None
              end) l ->
  update_list P f l
  = match locate_list P l with
    | Some p =>
        match sub_list p l with
        | Some x => Some (graft_list p (fun y => fst (f y)) l, snd (f x))
        | None => None
        end
    | None => None
    end.
Proof.
  intros IH. induction IH as [|c r Hc _ IHr]; simpl; [reflexivity|].
  rewrite Hc. destruct (locate P c) as [p|] eqn:Ec.
  - destruct (locate_sub _ _ Ec) as (x & Ex & _). rewrite Ex. simpl.
    rewrite Ex. reflexivity.
  - rewrite IHr.
    destruct (locate_list P r) as [q|] eqn:Er; simpl; [|reflexivity].
    pose proof (locate_list_cons_path _ _ Er) as Hq.
    rewrite sub_list_shift by exact Hq.
    destruct (sub_list q r); [|reflexivity].
    rewrite graft_list_shift by exact Hq. reflexivity.
Qed.

Lemma update_graft X (f : node -> node * X) n :
  update P f n
  = match locate P n with
    | Some p =>
        match sub p n with
        | Some x => Some (graft p (fun y => fst (f y)) n, snd (f x))
        | None => None
        end
    | None => None
    end.
Proof.
  induction n as [t a cs IH| |] using node_ind2.
  - rewrite update_Element, locate_Element.
    destruct (P (Element t a cs)).
    + simpl. destruct (f (Element t a cs)); reflexivity.
    + rewrite (update_list_graft_aux _ f _ IH).
      destruct (locate_list P cs) as [[|i q]|] eqn:El.
      * exfalso. apply (locate_list_cons_path _ _ El). reflexivity.
      * simpl. destruct (nth_error cs i) as [c|]; [|reflexivity].
        destruct (sub q c); reflexivity.
      * reflexivity.
  - rewrite update_leaf, locate_leaf by reflexivity.
    destruct (P (TextNode s)); [|reflexivity].
    simpl. destruct (f (TextNode s)); reflexivity.
  - rewrite update_leaf, locate_leaf by reflexivity.
    destruct (P (Markup s)); [|reflexivity].
    simpl. destruct (f (Markup s)); reflexivity.
Qed.

Lemma update_list_graft X (f : node -> node * X) l :
  update_list P f l
  = match locate_list P l with
    | Some p =>
        match sub_list p l with
        | Some x => Some (graft_list p (fun y => fst (f y)) l, snd (f x))
        | None => None
        end
    | None => None
    end.
Proof.
  apply update_list_graft_aux. apply Forall_forall.
  intros n _. apply update_graft.
Qed.

Lemma modify_graft g r :
  modify P g r
  = match locate P r with Some p => graft p g r | None => r end.
Proof.
  unfold modify. rewrite update_graft.
  destruct (locate P r) as [p|] eqn:E; [|reflexivity].
  destruct (locate_sub _ _ E) as (x & -> & _). reflexivity.
Qed.

(** No match in a tree: none at any of its places. *)
Lemma locate_unfold n :
  locate P n = if P n then Some [] else locate_list P (children_of n).
Proof.
  destruct n as [t a cs|s|s].
  - apply locate_Element.
  - rewrite locate_leaf by reflexivity. destruct (P (TextNode s)); reflexivity.
  - rewrite locate_leaf by reflexivity. destruct (P (Markup s)); reflexivity.
Qed.

Lemma locate_None_sub n :
  locate P n = None -> forall p x, sub p n = Some x -> P x = false.
Proof.
  induction n as [t a cs IH|s|s] using node_ind2; intros H p x.
  - rewrite locate_Element in H.
    destruct (P (Element t a cs)) eqn:EP; [discriminate|].
    destruct p as [|i p]; simpl.
    + intros [= <-]. exact EP.
    + clear EP. revert i H.
      induction IH as [|c r Hc _ IHr]; intros i H; simpl in *.
      * destruct i; discriminate.
      * destruct (locate P c) eqn:Ec; [discriminate|].
        destruct (locate_list P r) eqn:Er; [discriminate|].
        destruct i as [|i]; simpl.
        -- apply Hc. reflexivity.
        -- apply IHr. reflexivity.
  - rewrite locate_leaf in H by reflexivity.
    destruct p as [|i p]; simpl.
    + intros [= <-]. destruct (P (TextNode s)); [discriminate|reflexivity].
    + destruct i; discriminate.
  - rewrite locate_leaf in H by reflexivity.
    destruct p as [|i p]; simpl.
    + intros [= <-]. destruct (P (Markup s)); [discriminate|reflexivity].
    + destruct i; discriminate.
Qed.

Lemma locate_list_None_sub l :
  locate_list P l = None ->
  forall p x, sub_list p l = Some x -> P x = false.
Proof.
  induction l as [|c r IH]; intros H [|i p] x; simpl in *; try discriminate.
  - destruct i; discriminate.
  - destruct (locate P c) eqn:Ec; [discriminate|].
    destruct (locate_list P r) eqn:Er; [discriminate|].
    destruct i as [|i]; simpl.
    + apply (locate_None_sub _ Ec).
    + apply (IH eq_refl (i :: p)).
Qed.

Lemma locate_list_app_none k l :
  locate_list P l = None ->
  locate_list P (k ++ l) = locate_list P k.
Proof.
  intros H. induction k as [|c r IH]; simpl; [exact H|].
  destruct (locate P c); [reflexivity|]. rewrite IH. reflexivity.
Qed.

Lemma locate_list_all_none l :
  (forall c, In c l -> locate P c = None) -> locate_list P l = None.
Proof.
  induction l as [|c r IH]; intros H; simpl; [reflexivity|].
  rewrite (H c (or_introl eq_refl)). rewrite IH; [reflexivity|].
  intros c' Hc'. apply H. right. exact Hc'.
Qed.

Hypothesis P_shallow :
  forall t a cs cs', P (Element t a cs) = P (Element t a cs').

(** *** The first match after a write elsewhere *)

Lemma locate_list_map_nth_local i f l c :
  nth_error l i = Some c -> locate P (f c) = locate P c ->
  locate_list P (map_nth i f l) = locate_list P l.
Proof.
  revert i. induction l as [|c0 r IH]; intros [|i]; simpl; try discriminate.
  - intros [= ->] ->. reflexivity.
  - intros H Hf. rewrite (IH _ H Hf). reflexivity.
Qed.

(** A write that keeps the first match of the rewritten element where it
    is keeps the first match of the tree where it is. *)
Lemma locate_graft_local p g n x :
  sub p n = Some x -> locate P (g x) = locate P x ->
  locate P (graft p g n) = locate P n.
Proof.
  revert n. induction p as [|i p IH]; intros n; simpl.
  - intros [= ->] H. exact H.
  - destruct n as [t a cs|s|s]; simpl; try (destruct i; discriminate).
    destruct (nth_error cs i) as [c|] eqn:E; [|discriminate].
    intros H Hg.
    change (locate P (Element t a (map_nth i (graft p g) cs))
            = locate P (Element t a cs)).
    rewrite !locate_Element.
    rewrite (P_shallow t a _ cs).
    destruct (P (Element t a cs)); [reflexivity|].
    apply (locate_list_map_nth_local _ _ _ _ E). apply (IH _ H Hg).
Qed.

Lemma locate_list_graft_local p g l x :
  sub_list p l = Some x -> locate P (g x) = locate P x ->
  locate_list P (graft_list p g l) = locate_list P l.
Proof.
  destruct p as [|i p]; simpl; [discriminate|].
  destruct (nth_error l i) as [c|] eqn:E; [|discriminate].
  intros H Hg.
  apply (locate_list_map_nth_local _ _ _ _ E).
  apply (locate_graft_local _ _ _ _ H Hg).
Qed.

Lemma shift_prefix k p q :
  q <> [] -> prefix (S k :: p) (shift q) = prefix (k :: p) q.
Proof. destruct q as [|j q]; [congruence|reflexivity]. Qed.

Lemma locate_list_map_nth_clear i p f l c :
  nth_error l i = Some c ->
  ((forall q, locate P c = Some q -> prefix p q = false) ->
   locate P (f c) = locate P c) ->
  (forall q, locate_list P l = Some q -> prefix (i :: p) q = false) ->
  locate_list P (map_nth i f l) = locate_list P l.
Proof.
  revert i. induction l as [|c0 r IH]; intros [|i]; simpl; try discriminate.
  - intros [= ->] Hf Hq.
    destruct (locate P c) as [q|] eqn:Ec.
    + rewrite Hf; [reflexivity|].
      intros q' [= <-]. specialize (Hq _ eq_refl). simpl in Hq. exact Hq.
    + rewrite Hf; [reflexivity|]. intros q' Hq'. discriminate Hq'.
  - intros H Hf Hq.
    destruct (locate P c0) as [q|] eqn:Ec; [reflexivity|].
    rewrite (IH _ H Hf); [reflexivity|].
    intros q Eq. rewrite Eq in Hq.
    specialize (Hq (shift q) eq_refl).
    destruct q as [|j q]; [exact Hq|exact Hq].
Qed.

(** A write that replaces the children of an element by nodes without a
    match keeps the first match where it is, when that is not in the
    element. *)
Lemma locate_graft_clear p g n x :
  sub p n = Some x ->
  P (g x) = P x ->
  (locate_list P (children_of x) = None ->
   locate_list P (children_of (g x)) = None) ->
  (forall q, locate P n = Some q -> prefix p q = false) ->
  locate P (graft p g n) = locate P n.
Proof.
  intros Hx Hs Hc. revert n Hx.
  induction p as [|i p IH]; intros n Hx Hq; simpl in *.
  - injection Hx as ->.
    destruct (locate P x) as [q|] eqn:E.
    + specialize (Hq _ eq_refl). discriminate Hq.
    + rewrite locate_unfold in E |- *. rewrite Hs.
      destruct (P x); [discriminate E|]. apply Hc, E.
  - destruct n as [t a cs|s|s]; simpl in Hx; try (destruct i; discriminate).
    destruct (nth_error cs i) as [c|] eqn:E; [|discriminate].
    change (locate P (Element t a (map_nth i (graft p g) cs))
            = locate P (Element t a cs)).
    rewrite locate_Element in Hq. rewrite !locate_Element.
    rewrite (P_shallow t a _ cs).
    destruct (P (Element t a cs)); [reflexivity|].
    apply (locate_list_map_nth_clear i p _ _ _ E).
    + intros Hq'. apply (IH _ Hx Hq').
    + exact Hq.
Qed.

Lemma locate_list_graft_clear p g l x :
  sub_list p l = Some x ->
  P (g x) = P x ->
  (locate_list P (children_of x) = None ->
   locate_list P (children_of (g x)) = None) ->
  (forall q, locate_list P l = Some q -> prefix p q = false) ->
  locate_list P (graft_list p g l) = locate_list P l.
Proof.
  destruct p as [|i p]; simpl; [discriminate|].
  destruct (nth_error l i) as [c|] eqn:E; [|discriminate].
  intros Hx Hs Hc Hq.
  apply (locate_list_map_nth_clear i p _ _ _ E).
  - intros Hq'. apply (locate_graft_clear _ _ _ _ Hx Hs Hc Hq').
  - exact Hq.
Qed.

(** A first match above the write stays. *)
Lemma locate_list_map_nth_above i q f l c :
  nth_error l i = Some c ->
  locate_list P l = Some (i :: q) ->
  locate P (f c) = Some q ->
  locate_list P (map_nth i f l) = Some (i :: q).
Proof.
  revert i. induction l as [|c0 r IH]; intros [|i]; simpl; try discriminate.
  - intros [= ->] _ ->. reflexivity.
  - intros H. destruct (locate P c0) eqn:Ec; [discriminate|].
    destruct (locate_list P r) as [[|j u]|] eqn:Er; simpl; try discriminate.
    intros [= -> ->] Hf. rewrite (IH _ H eq_refl Hf). reflexivity.
Qed.

Lemma locate_list_first i q l :
  locate_list P l = Some (i :: q) ->
  exists c, nth_error l i = Some c /\ locate P c = Some q.
Proof.
  revert i. induction l as [|c0 r IH]; intros i; simpl; [discriminate|].
  destruct (locate P c0) as [u|] eqn:Ec.
  - intros [= <- <-]. exists c0. split; [reflexivity|exact Ec].
  - destruct (locate_list P r) as [[|j u]|] eqn:Er; simpl; try discriminate.
    intros [= <- <-]. apply (IH _ eq_refl).
Qed.

Lemma locate_graft_above q u g n :
  locate P n = Some q -> u <> [] ->
  locate P (graft (q ++ u) g n) = Some q.
Proof.
  revert n. induction q as [|j q IH]; intros n H Hu.
  - simpl. destruct u as [|i u]; [congruence|]. simpl.
    destruct n as [t a cs|s|s]; try exact H.
    rewrite locate_Element in H |- *.
    rewrite (P_shallow t a _ cs).
    destruct (P (Element t a cs)); [reflexivity|].
    exfalso. apply (locate_list_cons_path _ _ H). reflexivity.
  - simpl. destruct n as [t a cs|s|s].
    + rewrite locate_Element in H |- *.
      rewrite (P_shallow t a _ cs).
      destruct (P (Element t a cs)); [discriminate H|].
      destruct (locate_list_first _ _ _ H) as (c & Ec & Lc).
      apply (locate_list_map_nth_above _ _ _ _ _ Ec H).
      apply (IH _ Lc Hu).
    + exact H.
    + exact H.
Qed.

End Walk.
End PlaceFacts.

Module UnderFacts.
Import Dom DomFacts PortfolioRenderer Place PlaceFacts.

Section UnderWalk.
Variables A B : node -> bool.

Lemma locate_under_unfold inside n :
  locate_under A B inside n
  = if inside && B n then Some []
    else locate_under_list A B (inside || A n) (children_of n).
Proof.
  destruct n as [t a cs|s|s]; simpl.
  - destruct (inside && B (Element t a cs)); [reflexivity|].
    generalize (inside || A (Element t a cs)). intros i'.
    induction cs as [|c r IH]; simpl; [reflexivity|].
    destruct (locate_under A B i' c); [reflexivity|].
    rewrite <- IH. reflexivity.
  - destruct (inside && B (TextNode s)); reflexivity.
  - destruct (inside && B (Markup s)); reflexivity.
Qed.

Lemma update_under_unfold f inside n :
  update_under A B f inside n
  = if inside && B n then Some (f n)
    else match n with
         | Element t a cs =>
             option_map (Element t a)
               (update_under_list A B f (inside || A n) cs)
         | _ => None
         end.
Proof.
  destruct n as [t a cs|s|s]; simpl; try reflexivity.
  destruct (inside && B (Element t a cs)); [reflexivity|].
  set (i' := inside || A (Element t a cs)).
  assert (E : forall l,
             (fix go (l : list node) : option (list node) :=
                match l with
                | [] => None
                | c :: r =>
                    match update_under A B f i' c with
                    | Some c' => Some (c' :: r)
                    | None => match go r with
                              | Some r' => Some (c :: r')
                              | None => None
                              end
                    end
                end) l = update_under_list A B f i' l).
  { induction l as [|c r IH]; simpl; [reflexivity|].
    destruct (update_under A B f i' c); [reflexivity|].
    rewrite IH. destruct (update_under_list A B f i' r); reflexivity. }
  rewrite E. destruct (update_under_list A B f i' cs); reflexivity.
Qed.

Lemma locate_under_list_cons_path inside l p :
  locate_under_list A B inside l = Some p -> p <> [].
Proof.
  revert p. induction l as [|c r IH]; intros p; simpl; [discriminate|].
  destruct (locate_under A B inside c); [intros [= <-]; discriminate|].
  destruct (locate_under_list A B inside r) as [[|i q]|]; simpl.
  - exfalso. apply (IH _ eq_refl). reflexivity.
  - intros [= <-]. discriminate.
  - discriminate.
Qed.

Lemma locate_under_list_first inside i q l :
  locate_under_list A B inside l = Some (i :: q) ->
  exists c, nth_error l i = Some c /\ locate_under A B inside c = Some q.
Proof.
  revert i. induction l as [|c0 r IH]; intros i; simpl; [discriminate|].
  destruct (locate_under A B inside c0) as [u|] eqn:Ec.
  - intros [= <- <-]. exists c0. split; [reflexivity|exact Ec].
  - destruct (locate_under_list A B inside r) as [[|j u]|] eqn:Er; simpl;
      try discriminate.
    intros [= <- <-]. apply (IH _ eq_refl).
Qed.

Lemma locate_under_sub n :
  forall inside p,
    locate_under A B inside n = Some p ->
    exists x, sub p n = Some x /\ B x = true.
Proof.
  induction n as [t a cs IH|s|s] using node_ind2; intros inside p;
    rewrite locate_under_unfold.
  - destruct (inside && B (Element t a cs)) eqn:E.
    + intros [= <-]. exists (Element t a cs). split; [reflexivity|].
      apply andb_prop in E. apply E.
    + simpl children_of. intros H.
      destruct p as [|i q];
        [exfalso; apply (locate_under_list_cons_path _ _ _ H); reflexivity|].
      destruct (locate_under_list_first _ _ _ _ H) as (c & Ec & Lc).
      simpl. rewrite Ec.
      rewrite Forall_forall in IH.
      apply (IH c (nth_error_In _ _ Ec) _ _ Lc).
  - destruct (inside && B (TextNode s)) eqn:E; [|discriminate].
    intros [= <-]. exists (TextNode s). split; [reflexivity|].
    apply andb_prop in E. apply E.
  - destruct (inside && B (Markup s)) eqn:E; [|discriminate].
    intros [= <-]. exists (Markup s). split; [reflexivity|].
    apply andb_prop in E. apply E.
Qed.

(** [update_under] rewrites at the place [locate_under] gives. *)
Lemma update_under_graft f n :
  forall inside,
    update_under A B f inside n
    = option_map (fun p => graft p f n) (locate_under A B inside n).
Proof.
  induction n as [t a cs IH|s|s] using node_ind2; intros inside;
    rewrite update_under_unfold, locate_under_unfold.
  - destruct (inside && B (Element t a cs)); [reflexivity|].
    simpl children_of.
    generalize (inside || A (Element t a cs)). intros i'.
    assert (E : update_under_list A B f i' cs
                = option_map (fun p => graft_list p f cs)
                    (locate_under_list A B i' cs)).
    { induction IH as [|c r Hc _ IHr]; simpl; [reflexivity|].
      rewrite Hc. destruct (locate_under A B i' c); [reflexivity|].
      simpl. rewrite IHr.
      destruct (locate_under_list A B i' r) as [q|] eqn:Er;
        [|reflexivity].
      simpl.
      rewrite graft_list_shift
        by apply (locate_under_list_cons_path _ _ _ Er).
      reflexivity. }
    rewrite E.
    destruct (locate_under_list A B i' cs) as [[|i q]|] eqn:El;
      try reflexivity.
    exfalso. apply (locate_under_list_cons_path _ _ _ El). reflexivity.
  - destruct (inside && B (TextNode s)); reflexivity.
  - destruct (inside && B (Markup s)); reflexivity.
Qed.

End UnderWalk.

(** *** The head *)

Lemma append_in_head_graft m cs :
  append_in_head m cs
  = option_map (fun i => map_nth i (appendChild m) cs) (head_index cs).
Proof.
  induction cs as [|c r IH]; simpl; [reflexivity|].
  destruct c as [t a k|s|s].
  - destruct (String.eqb t "head"); [reflexivity|].
    rewrite IH. destruct (head_index r); reflexivity.
  - rewrite IH. destruct (head_index r); reflexivity.
  - rewrite IH. destruct (head_index r); reflexivity.
Qed.

Lemma head_append_graft m r :
  head_append m r
  = option_map (fun p => graft p (appendChild m) r) (head_place r).
Proof.
  destruct r as [t a cs|s|s]; simpl; try reflexivity.
  destruct (String.eqb t "html"); [|reflexivity].
  rewrite append_in_head_graft. destruct (head_index cs); reflexivity.
Qed.

Lemma head_index_nth cs i :
  head_index cs = Some i ->
  exists a k, nth_error cs i = Some (Element "head" a k).
Proof.
  revert i. induction cs as [|c r IH]; intros i; simpl; [discriminate|].
  destruct c as [t a k|s|s].
  - destruct (String.eqb_spec t "head") as [->|_].
    + intros [= <-]. exists a, k. reflexivity.
    + destruct (head_index r) as [j|]; [|discriminate].
      intros [= <-]. apply (IH _ eq_refl).
  - destruct (head_index r) as [j|]; [|discriminate].
    intros [= <-]. apply (IH _ eq_refl).
  - destruct (head_index r) as [j|]; [|discriminate].
    intros [= <-]. apply (IH _ eq_refl).
Qed.

Lemma head_place_sub r p :
  head_place r = Some p ->
  exists i a k, p = [i] /\ sub p r = Some (Element "head" a k).
Proof.
  destruct r as [t a cs|s|s]; simpl; try discriminate.
  destruct (String.eqb t "html"); [|discriminate].
  destruct (head_index cs) as [i|] eqn:E; [|discriminate].
  intros [= <-]. destruct (head_index_nth _ _ E) as (a' & k & Ek).
  exists i, a', k. split; [reflexivity|]. simpl. rewrite Ek. reflexivity.
Qed.

(** *** A lookup below the first match of another *)

Lemma modify_desc_graft P g el :
  modify_desc P g el
  = match locate_list P (children_of el) with
    | Some q => graft q g el
    | None => el
    end.
Proof.
  unfold modify_desc, update_desc.
  destruct el as [t a cs|s|s]; try reflexivity.
  rewrite update_list_graft. simpl children_of.
  destruct (locate_list P cs) as [[|i q]|] eqn:E; try reflexivity.
  - exfalso. apply (locate_list_cons_path _ _ _ E). reflexivity.
  - destruct (locate_list_sub _ _ _ E) as (x & Ex & _). rewrite Ex.
    reflexivity.
Qed.

Lemma within_graft a b g r :
  modify (matches a) (modify_desc (matches b) g) r
  = match place (Within a b) r with
    | Some p => graft p g r
    | None => r
    end.
Proof.
  rewrite modify_graft. simpl.
  destruct (locate (matches a) r) as [p|] eqn:E; [|reflexivity].
  destruct (locate_sub _ _ _ E) as (el & Eel & _). rewrite Eel.
  destruct (locate_list (matches b) (children_of el)) as [q|] eqn:Eq; simpl.
  - rewrite graft_app.
    apply (graft_ext _ _ _ _ _ Eel).
    rewrite modify_desc_graft, Eq. reflexivity.
  - apply (graft_fixed _ _ _ _ Eel).
    rewrite modify_desc_graft, Eq. reflexivity.
Qed.

End UnderFacts.

Module FrameFacts.
Import Dom DomFacts PortfolioRenderer Place PlaceFacts UnderFacts.

(** *** A lookup below an ancestor, after a write elsewhere *)

Section UnderFrame.
Variables A B : node -> bool.
Hypothesis A_shallow :
  forall t a cs cs', A (Element t a cs) = A (Element t a cs').
Hypothesis B_shallow :
  forall t a cs cs', B (Element t a cs) = B (Element t a cs').

Lemma locate_under_list_map_nth_local inside i f l c :
  nth_error l i = Some c ->
  locate_under A B inside (f c) = locate_under A B inside c ->
  locate_under_list A B inside (map_nth i f l)
  = locate_under_list A B inside l.
Proof.
  revert i. induction l as [|c0 r IH]; intros [|i]; simpl; try discriminate.
  - intros [= ->] ->. reflexivity.
  - intros H Hf. rewrite (IH _ H Hf). reflexivity.
Qed.

Lemma locate_under_graft_local p g n x :
  sub p n = Some x ->
  under A p n = false ->
  A (g x) = A x ->
  locate_under_list A B false (children_of (g x))
  = locate_under_list A B false (children_of x) ->
  locate_under A B false (graft p g n) = locate_under A B false n.
Proof.
  intros Hx Hu Ha Hc. revert n Hx Hu.
  induction p as [|i p IH]; intros n Hx Hu.
  - simpl in Hx. injection Hx as ->. simpl in Hu |- *.
    rewrite orb_false_r in Hu.
    rewrite !locate_under_unfold. simpl. rewrite Ha, Hu. exact Hc.
  - destruct n as [t a cs|s|s]; try reflexivity.
    simpl in Hx, Hu.
    destruct (nth_error cs i) as [c|] eqn:E; [|discriminate].
    apply orb_false_elim in Hu as [Hn Hu].
    change (locate_under A B false
              (Element t a (map_nth i (graft p g) cs))
            = locate_under A B false (Element t a cs)).
    rewrite !locate_under_unfold. simpl.
    rewrite (A_shallow t a _ cs), Hn.
    apply (locate_under_list_map_nth_local _ _ _ _ _ E).
    apply (IH _ Hx Hu).
Qed.

Lemma locate_under_list_map_nth_clear inside i p f l c :
  nth_error l i = Some c ->
  ((forall q, locate_under A B inside c = Some q -> prefix p q = false) ->
   locate_under A B inside (f c) = locate_under A B inside c) ->
  (forall q, locate_under_list A B inside l = Some q ->
             prefix (i :: p) q = false) ->
  locate_under_list A B inside (map_nth i f l)
  = locate_under_list A B inside l.
Proof.
  revert i. induction l as [|c0 r IH]; intros [|i]; simpl; try discriminate.
  - intros [= ->] Hf Hq.
    destruct (locate_under A B inside c) as [q|] eqn:Ec.
    + rewrite Hf; [reflexivity|].
      intros q' [= <-]. specialize (Hq _ eq_refl). simpl in Hq. exact Hq.
    + rewrite Hf; [reflexivity|]. intros q' Hq'. discriminate Hq'.
  - intros H Hf Hq.
    destruct (locate_under A B inside c0) as [q|] eqn:Ec; [reflexivity|].
    rewrite (IH _ H Hf); [reflexivity|].
    intros q Eq. rewrite Eq in Hq.
    specialize (Hq (shift q) eq_refl).
    destruct q as [|j q]; [exact Hq|exact Hq].
Qed.

Lemma locate_under_graft_clear p g n x :
  sub p n = Some x ->
  under A p n = false ->
  A (g x) = A x ->
  (locate_under_list A B false (children_of x) = None ->
   locate_under_list A B false (children_of (g x)) = None) ->
  (forall q, locate_under A B false n = Some q -> prefix p q = false) ->
  locate_under A B false (graft p g n) = locate_under A B false n.
Proof.
  intros Hx Hu Ha Hc. revert n Hx Hu.
  induction p as [|i p IH]; intros n Hx Hu Hq.
  - simpl in Hx. injection Hx as ->. simpl in Hu |- *.
    rewrite orb_false_r in Hu.
    destruct (locate_under A B false x) as [q|] eqn:E.
    + specialize (Hq _ eq_refl). discriminate Hq.
    + rewrite locate_under_unfold in E |- *. simpl in E |- *.
      rewrite Ha, Hu. rewrite Hu in E. apply Hc, E.
  - destruct n as [t a cs|s|s]; try reflexivity.
    simpl in Hx, Hu.
    destruct (nth_error cs i) as [c|] eqn:E; [|discriminate].
    apply orb_false_elim in Hu as [Hn Hu].
    change (locate_under A B false
              (Element t a (map_nth i (graft p g) cs))
            = locate_under A B false (Element t a cs)).
    rewrite locate_under_unfold in Hq. simpl in Hq. rewrite Hn in Hq.
    rewrite !locate_under_unfold. simpl.
    rewrite (A_shallow t a _ cs), Hn.
    apply (locate_under_list_map_nth_clear false i p _ _ _ E).
    + intros Hq'. apply (IH _ Hx Hu Hq').
    + exact Hq.
Qed.

Lemma locate_under_list_map_nth_above inside i q f l c :
  nth_error l i = Some c ->
  locate_under_list A B inside l = Some (i :: q) ->
  locate_under A B inside (f c) = Some q ->
  locate_under_list A B inside (map_nth i f l) = Some (i :: q).
Proof.
  revert i. induction l as [|c0 r IH]; intros [|i]; simpl; try discriminate.
  - intros [= ->] _ ->. reflexivity.
  - intros H. destruct (locate_under A B inside c0) eqn:Ec; [discriminate|].
    destruct (locate_under_list A B inside r) as [[|j u]|] eqn:Er; simpl;
      try discriminate.
    intros [= -> ->] Hf. rewrite (IH _ H eq_refl Hf). reflexivity.
Qed.

(** The element found is found again after it was rewritten, when it
    still satisfies [B]. *)
Lemma locate_under_graft_self g p :
  forall n inside x,
    locate_under A B inside n = Some p ->
    sub p n = Some x ->
    B (g x) = true ->
    locate_under A B inside (graft p g n) = Some p.
Proof.
  induction p as [|i p IH]; intros n inside x H Hx Hb.
  - simpl in Hx. injection Hx as ->. simpl.
    rewrite locate_under_unfold in H |- *.
    destruct (inside && B x) eqn:E.
    + apply andb_prop in E as [-> _]. rewrite Hb. reflexivity.
    + exfalso. apply (locate_under_list_cons_path _ _ _ _ _ H).
      reflexivity.
  - destruct n as [t a cs|s|s].
    + change (locate_under A B inside
                (Element t a (map_nth i (graft p g) cs)) = Some (i :: p)).
      rewrite locate_under_unfold in H |- *.
      rewrite (B_shallow t a _ cs).
      destruct (inside && B (Element t a cs)); [discriminate H|].
      simpl children_of in *. rewrite (A_shallow t a _ cs).
      destruct (locate_under_list_first _ _ _ _ _ _ H) as (c & Ec & Lc).
      apply (locate_under_list_map_nth_above _ _ _ _ _ _ Ec H).
      simpl in Hx. rewrite Ec in Hx.
      apply (IH _ _ _ Lc Hx Hb).
    + exact H.
    + exact H.
Qed.

End UnderFrame.

(** *** The nodes on a path, after a write elsewhere *)

Lemma nth_error_app_keep (l : list node) m i c :
  nth_error l i = Some c -> nth_error (l ++ [m]) i = Some c.
Proof.
  intros H. rewrite nth_error_app1; [exact H|].
  apply nth_error_Some. rewrite H. discriminate.
Qed.

(** The node at a place is kept by a write at another place, when the
    write is not in the node and keeps the node if the node is in what
    the write rewrites. *)
Lemma sub_graft_keep p g :
  forall q n y,
    sub q n = Some y ->
    prefix q p = false ->
    (forall u x, q = p ++ u -> sub p n = Some x -> sub u x = Some y ->
                 sub u (g x) = Some y) ->
    sub q (graft p g n) = Some y.
Proof.
  induction p as [|j p IH]; intros q n y Hy Hp Hl.
  - simpl. apply (Hl q n eq_refl eq_refl Hy).
  - destruct q as [|i q]; [discriminate Hp|].
    destruct n as [t a cs|s|s]; try exact Hy.
    simpl in Hy |- *.
    destruct (Nat.eqb_spec i j) as [->|Hij].
    + simpl in Hp. rewrite Nat.eqb_refl in Hp. simpl in Hp.
      rewrite nth_map_nth_same.
      destruct (nth_error cs j) as [c|] eqn:E; [|discriminate].
      simpl. apply (IH _ _ _ Hy Hp).
      intros u x -> Hx Hu. apply (Hl u x eq_refl); [|exact Hu].
      simpl. rewrite E. exact Hx.
    + rewrite nth_map_nth_other by congruence. exact Hy.
Qed.

Lemma alike_refl x : alike x x.
Proof. intros s _. reflexivity. Qed.

Lemma alike_children t a cs cs' : alike (Element t a cs) (Element t a cs').
Proof. intros s _. apply matches_shallow. Qed.

Lemma alike_trans x y z : alike x y -> alike y z -> alike x z.
Proof. intros H1 H2 s Hs. rewrite (H2 s Hs). apply (H1 s Hs). Qed.

(** What plain selectors see of the node at a place is kept by a write
    at another place, when the write keeps it if the node is in what the
    write rewrites. *)
Lemma sub_graft_alike p g :
  forall q n y,
    sub q n = Some y ->
    (forall u x, q = p ++ u -> sub p n = Some x -> sub u x = Some y ->
                 exists y', sub u (g x) = Some y' /\ alike y y') ->
    exists y', sub q (graft p g n) = Some y' /\ alike y y'.
Proof.
  induction p as [|j p IH]; intros q n y Hy Hl.
  - simpl. apply (Hl q n eq_refl eq_refl Hy).
  - destruct n as [t a cs|s|s];
      try (exists y; split; [exact Hy|apply alike_refl]).
    destruct q as [|i q].
    + simpl in Hy. injection Hy as <-. eexists. split; [reflexivity|].
      apply alike_children.
    + simpl in Hy |- *.
      destruct (Nat.eqb_spec i j) as [->|Hij].
      * rewrite nth_map_nth_same.
        destruct (nth_error cs j) as [c|] eqn:E; [|discriminate].
        simpl. apply (IH _ _ _ Hy).
        intros u x -> Hx Hu. apply (Hl u x eq_refl); [|exact Hu].
        simpl. rewrite E. exact Hx.
      * rewrite nth_map_nth_other by congruence.
        exists y. split; [exact Hy|apply alike_refl].
Qed.

(** Whether a place is under an element that satisfies [A], after a
    write elsewhere. *)
Lemma under_graft A p g :
  (forall t a cs cs', A (Element t a cs) = A (Element t a cs')) ->
  forall q n y,
    sub q n = Some y ->
    (forall u x z, q = p ++ u -> sub p n = Some x -> sub u x = Some z ->
                   under A u (g x) = under A u x) ->
    under A q (graft p g n) = under A q n.
Proof.
  intros A_shallow.
  induction p as [|j p IH]; intros q n y Hy Hl.
  - simpl. apply (Hl q n y eq_refl eq_refl Hy).
  - destruct n as [t a cs|s|s]; try reflexivity.
    change (under A q (Element t a (map_nth j (graft p g) cs))
            = under A q (Element t a cs)).
    destruct q as [|i q]; simpl.
    + rewrite (A_shallow t a _ cs). reflexivity.
    + rewrite (A_shallow t a _ cs). f_equal.
      simpl in Hy.
      destruct (Nat.eqb_spec i j) as [->|Hij].
      * rewrite nth_map_nth_same.
        destruct (nth_error cs j) as [c|] eqn:E; [|discriminate].
        simpl. apply (IH _ _ _ Hy).
        intros u x z -> Hx Hu. apply (Hl u x z eq_refl); [|exact Hu].
        simpl. rewrite E. exact Hx.
      * rewrite nth_map_nth_other by congruence. reflexivity.
Qed.

Lemma under_app A p u n x :
  sub p n = Some x ->
  under A (p ++ u) n = under A p n || under A u x.
Proof.
  revert n. induction p as [|i p IH]; intros n; simpl.
  - intros [= ->]. rewrite orb_false_r.
    destruct u as [|j u]; simpl.
    + rewrite orb_false_r, orb_diag. reflexivity.
    + destruct (A x); reflexivity.
  - destruct (nth_error (children_of n) i) as [c|]; [|discriminate].
    intros H. rewrite (IH _ H). rewrite orb_assoc. reflexivity.
Qed.

(** *** The head, after a write *)

Lemma head_index_cons c r :
  head_index (c :: r)
  = if matches (ByTag "head") c then Some 0
    else option_map S (head_index r).
Proof. destruct c; reflexivity. Qed.

Lemma head_index_map_nth i f cs :
  (forall c, nth_error cs i = Some c ->
             matches (ByTag "head") (f c) = matches (ByTag "head") c) ->
  head_index (map_nth i f cs) = head_index cs.
Proof.
  revert i. induction cs as [|c r IH]; intros [|i] H;
    try reflexivity.
  - change (head_index (f c :: r) = head_index (c :: r)).
    rewrite !head_index_cons, (H c eq_refl). reflexivity.
  - change (head_index (c :: map_nth i f r) = head_index (c :: r)).
    rewrite !head_index_cons, (IH i) by exact H. reflexivity.
Qed.

Lemma head_index_none cs :
  (forall c, In c cs -> matches (ByTag "head") c = false) ->
  head_index cs = None.
Proof.
  induction cs as [|c r IH]; intros H; [reflexivity|].
  rewrite head_index_cons, (H c (or_introl eq_refl)).
  rewrite IH by (intros c' Hc'; apply H; right; exact Hc').
  reflexivity.
Qed.

Lemma head_place_graft p g r :
  p <> [] ->
  (forall x, sub p r = Some x -> alike x (g x)) ->
  head_place (graft p g r) = head_place r.
Proof.
  destruct p as [|i p]; [congruence|]. intros _ H.
  destruct r as [t a cs|s|s]; try reflexivity.
  simpl. destruct (String.eqb t "html"); [|reflexivity].
  f_equal. apply head_index_map_nth.
  intros c Ec.
  destruct (sub p c) as [x|] eqn:Ex.
  - destruct p as [|j p].
    + simpl in Ex. injection Ex as Ex. subst x.
      assert (Hc : sub [i] (Element t a cs) = Some c)
        by (simpl; rewrite Ec; reflexivity).
      exact (H c Hc (ByTag "head") eq_refl).
    + destruct c as [t' a' cs'|s|s]; reflexivity.
  - rewrite (graft_invalid _ _ _ Ex). reflexivity.
Qed.

End FrameFacts.

Module WriterFacts.
Import Dom DomFacts PortfolioRenderer Place PlaceFacts UnderFacts
       FrameFacts.

Lemma matches_leaf s n : is_element n = false -> matches s n = false.
Proof. destruct n; simpl; [discriminate|reflexivity|reflexivity]. Qed.

Lemma clears_alike l x y :
  plain_lookup l = true -> alike x y -> clears l y = clears l x.
Proof.
  intros Hl H. destruct l as [s|a b|a b|s]; try reflexivity.
  simpl. apply (H s Hl).
Qed.

Lemma clears_false l x :
  clears l x = false -> exists s, l = FirstOrHead s /\ matches s x = false.
Proof.
  destruct l as [s|a b|a b|s]; simpl; try discriminate.
  intros H. exists s. split; [reflexivity|exact H].
Qed.

Lemma leaves_unmatched s ks :
  forallb (fun k => negb (is_element k)) ks = true ->
  locate_list (matches s) ks = None.
Proof.
  intros H. apply locate_list_all_none. intros k Hk.
  rewrite forallb_forall in H. specialize (H k Hk).
  apply negb_true_iff in H.
  rewrite locate_leaf by exact H. rewrite (matches_leaf s k H). reflexivity.
Qed.

Lemma locate_under_list_all_none A B inside l :
  (forall c, In c l -> locate_under A B inside c = None) ->
  locate_under_list A B inside l = None.
Proof.
  induction l as [|c r IH]; intros H; simpl; [reflexivity|].
  rewrite (H c (or_introl eq_refl)). rewrite IH; [reflexivity|].
  intros c' Hc'. apply H. right. exact Hc'.
Qed.

Lemma locate_under_list_app_none A B inside k l :
  locate_under_list A B inside l = None ->
  locate_under_list A B inside (k ++ l) = locate_under_list A B inside k.
Proof.
  intros H. induction k as [|c r IH]; simpl; [exact H|].
  destruct (locate_under A B inside c); [reflexivity|]. rewrite IH.
  reflexivity.
Qed.

Lemma leaves_unmatched_under a b inside ks :
  forallb (fun k => negb (is_element k)) ks = true ->
  locate_under_list (matches a) (matches b) inside ks = None.
Proof.
  intros H. apply locate_under_list_all_none. intros k Hk.
  rewrite forallb_forall in H. specialize (H k Hk).
  apply negb_true_iff in H.
  rewrite locate_under_unfold. rewrite (matches_leaf b k H).
  rewrite andb_false_r. destruct k; [discriminate H|reflexivity|reflexivity].
Qed.

(** *** Where a lookup leads *)

Lemma place_valid l r q :
  place l r = Some q -> exists t a cs, sub q r = Some (Element t a cs).
Proof.
  destruct l as [s|a b|a b|s]; simpl.
  - intros H. destruct (locate_sub _ _ _ H) as (x & Hx & Mx).
    destruct (matches_element _ _ Mx) as (t & a' & cs & ->). eauto.
  - intros H. destruct (locate_under_sub _ _ _ _ _ H) as (x & Hx & Mx).
    destruct (matches_element _ _ Mx) as (t & a' & cs & ->). eauto.
  - destruct (locate (matches a) r) as [p|] eqn:E; [|discriminate].
    destruct (locate_sub _ _ _ E) as (el & Hel & _). rewrite Hel.
    destruct (locate_list (matches b) (children_of el)) as [u|] eqn:Eu;
      [|discriminate].
    intros [= <-].
    destruct (locate_list_sub _ _ _ Eu) as (x & Hx & Mx).
    destruct (matches_element _ _ Mx) as (t & a' & cs & ->).
    exists t, a', cs. rewrite sub_app, Hel.
    destruct u as [|i u]; [discriminate Hx|exact Hx].
  - destruct (locate (matches s) r) as [p|] eqn:E.
    + intros [= <-]. destruct (locate_sub _ _ _ E) as (x & Hx & Mx).
      destruct (matches_element _ _ Mx) as (t & a' & cs & ->). eauto.
    + intros H. destruct (head_place_sub _ _ H) as (i & a' & k & _ & Hk).
      eauto.
Qed.

Lemma anchor_place l r q : place l r = Some q -> anchor l r = Some q.
Proof. unfold anchor. intros ->. destruct l; reflexivity. Qed.

Lemma anchor_valid l r q :
  anchor l r = Some q -> exists y, sub q r = Some y.
Proof.
  unfold anchor. destruct (place l r) as [q'|] eqn:E.
  - intros H. assert (q' = q) by (destruct l; congruence). subst q'.
    destruct (place_valid _ _ _ E) as (t & a & cs & H'). eauto.
  - destruct l as [s|a b|a b|s]; try discriminate.
    intros H. destruct (locate_sub _ _ _ H) as (x & Hx & _). eauto.
Qed.

(** *** What a sound step does to the lookups of others *)

Section Writer.
Variables (lw : lookup) (g : node -> node) (made : list node).
Variables (tw nw : bool).
Hypothesis W_sound : sound (Fill lw g made tw nw).
Variables (t : string) (a : list (string * string)) (cs : list node).

Lemma writer_alike : alike (Element t a cs) (g (Element t a cs)).
Proof.
  destruct W_sound as (_ & HC & HN).
  destruct (clears lw (Element t a cs)) eqn:E.
  - destruct (HC _ _ _ E) as (a' & cs' & -> & Ha & _). exact Ha.
  - destruct (HN _ _ _ E) as (m & _ & -> & _). apply alike_children.
Qed.

Lemma writer_children s :
  plain_selector s = true ->
  (forall m, In m made -> locate (matches s) m = None) ->
  clears lw (Element t a cs) = true ->
  locate_list (matches s) cs = None ->
  locate_list (matches s) (children_of (g (Element t a cs))) = None.
Proof.
  intros Hs Hm E Hn.
  destruct W_sound as (_ & HC & _).
  destruct (HC _ _ _ E) as (a' & cs' & -> & _ & [->|Hc] & _);
    [exact Hn|].
  simpl. apply locate_list_all_none. intros c Hin.
  rewrite Forall_forall in Hc.
  destruct (Hc c Hin) as [Hc'|(u & a1 & ks & ks' & Hu & -> & Hk)].
  - apply (Hm c Hc').
  - rewrite locate_Element.
    rewrite (matches_shallow s "h2" a1 ks' ks).
    rewrite (locate_list_None_sub _ _ Hn _ _ Hu).
    apply (leaves_unmatched s ks' Hk).
Qed.

Lemma writer_append s :
  (forall m, In m made -> locate (matches s) m = None) ->
  clears lw (Element t a cs) = false ->
  locate (matches s) (g (Element t a cs))
  = locate (matches s) (Element t a cs).
Proof.
  intros Hm E.
  destruct W_sound as (_ & _ & HN).
  destruct (HN _ _ _ E) as (m & Hin & -> & _).
  rewrite !locate_Element.
  rewrite (matches_shallow s t a (cs ++ [m]) cs).
  destruct (matches s (Element t a cs)); [reflexivity|].
  apply locate_list_app_none. simpl. rewrite (Hm m Hin). reflexivity.
Qed.

(** The first match of a plain selector in a tree, after the step wrote
    at the place [u] of the tree. *)
Lemma locate_frame_at s u n :
  sub u n = Some (Element t a cs) ->
  plain_selector s = true ->
  (forall m, In m made -> locate (matches s) m = None) ->
  (forall q, locate (matches s) n = Some q ->
             clears lw (Element t a cs) && prefix u q = false) ->
  locate (matches s) (graft u g n) = locate (matches s) n.
Proof.
  intros Hu Hs Hm Hq.
  destruct (clears lw (Element t a cs)) eqn:E.
  - apply (locate_graft_clear _ (matches_shallow s) _ _ _ _ Hu).
    + apply (writer_alike s Hs).
    + apply (writer_children s Hs Hm E).
    + intros q H. apply (Hq q H).
  - apply (locate_graft_local _ (matches_shallow s) _ _ _ _ Hu).
    apply (writer_append s Hm E).
Qed.

Lemma locate_list_frame_at s u l :
  sub_list u l = Some (Element t a cs) ->
  plain_selector s = true ->
  (forall m, In m made -> locate (matches s) m = None) ->
  (forall q, locate_list (matches s) l = Some q ->
             clears lw (Element t a cs) && prefix u q = false) ->
  locate_list (matches s) (graft_list u g l) = locate_list (matches s) l.
Proof.
  intros Hu Hs Hm Hq.
  destruct (clears lw (Element t a cs)) eqn:E.
  - apply (locate_list_graft_clear _ (matches_shallow s) _ _ _ _ Hu).
    + apply (writer_alike s Hs).
    + apply (writer_children s Hs Hm E).
    + intros q H. apply (Hq q H).
  - apply (locate_list_graft_local _ (matches_shallow s) _ _ _ _ Hu).
    apply (writer_append s Hm E).
Qed.

Lemma locate_under_frame_at sa sb u n :
  sub u n = Some (Element t a cs) ->
  plain_selector sa = true ->
  (forall m, In m made ->
             locate_under (matches sa) (matches sb) false m = None) ->
  under (matches sa) u n = false ->
  (forall q, locate_under (matches sa) (matches sb) false n = Some q ->
             clears lw (Element t a cs) && prefix u q = false) ->
  locate_under (matches sa) (matches sb) false (graft u g n)
  = locate_under (matches sa) (matches sb) false n.
Proof.
  intros Hu Hs Hm Hun Hq.
  destruct W_sound as (_ & HC & HN).
  destruct (clears lw (Element t a cs)) eqn:E.
  - apply (locate_under_graft_clear _ _ (matches_shallow sa) _ _ _ _
             Hu Hun).
    + apply (writer_alike sa Hs).
    + intros Hn.
      destruct (HC _ _ _ E) as (a' & cs' & -> & _ & [->|Hc] & _);
        [exact Hn|].
      simpl. apply locate_under_list_all_none. intros c Hin.
      rewrite Forall_forall in Hc.
      destruct (Hc c Hin) as [Hc'|(u' & a1 & ks & ks' & _ & -> & Hk)].
      * apply (Hm c Hc').
      * rewrite locate_under_unfold. simpl.
        apply (leaves_unmatched_under sa sb _ ks' Hk).
    + intros q H. apply (Hq q H).
  - apply (locate_under_graft_local _ _ (matches_shallow sa) _ _ _ _
             Hu Hun).
    + apply (writer_alike sa Hs).
    + destruct (HN _ _ _ E) as (m & Hin & -> & _). simpl.
      apply locate_under_list_app_none. simpl.
      rewrite (Hm m Hin). reflexivity.
Qed.

(** The node at the place [q], after the step wrote at the place [u]. *)
Lemma sub_frame_alike u n q y :
  sub u n = Some (Element t a cs) ->
  sub q n = Some y ->
  clears lw (Element t a cs) && prefix u q = false ->
  exists y', sub q (graft u g n) = Some y' /\ alike y y'.
Proof.
  intros Hu Hy Hq. apply (sub_graft_alike _ _ _ _ _ Hy).
  intros v x -> Hx Hv. rewrite Hu in Hx. injection Hx as <-.
  rewrite path_prefix_app, andb_true_r in Hq.
  destruct W_sound as (_ & _ & HN).
  destruct (HN _ _ _ Hq) as (m & _ & -> & _).
  destruct v as [|i v].
  - simpl in Hv. injection Hv as <-. eexists. split; [reflexivity|].
    apply alike_children.
  - exists y. split; [|apply alike_refl]. simpl in Hv |- *.
    destruct (nth_error cs i) as [c|] eqn:Ec; [|discriminate].
    rewrite (nth_error_app_keep _ _ _ _ Ec). exact Hv.
Qed.

Lemma sub_frame_keep u n q y :
  sub u n = Some (Element t a cs) ->
  sub q n = Some y ->
  prefix q u = false ->
  clears lw (Element t a cs) && prefix u q = false ->
  sub q (graft u g n) = Some y.
Proof.
  intros Hu Hy Hp Hq. apply (sub_graft_keep _ _ _ _ _ Hy Hp).
  intros v x -> Hx Hv. rewrite Hu in Hx. injection Hx as <-.
  rewrite path_prefix_app, andb_true_r in Hq.
  destruct W_sound as (_ & _ & HN).
  destruct (HN _ _ _ Hq) as (m & _ & -> & _).
  destruct v as [|i v].
  - rewrite app_nil_r, prefix_refl in Hp. discriminate Hp.
  - simpl in Hv |- *.
    destruct (nth_error cs i) as [c|] eqn:Ec; [|discriminate].
    rewrite (nth_error_app_keep _ _ _ _ Ec). exact Hv.
Qed.

Lemma under_frame sa u n q y :
  plain_selector sa = true ->
  sub u n = Some (Element t a cs) ->
  sub q n = Some y ->
  clears lw (Element t a cs) && prefix u q = false ->
  under (matches sa) q (graft u g n) = under (matches sa) q n.
Proof.
  intros Hs Hu Hy Hq.
  apply (under_graft _ _ _ (matches_shallow sa) _ _ _ Hy).
  intros v x z -> Hx Hv. rewrite Hu in Hx. injection Hx as <-.
  rewrite path_prefix_app, andb_true_r in Hq.
  destruct W_sound as (_ & _ & HN).
  destruct (HN _ _ _ Hq) as (m & _ & -> & _).
  destruct v as [|i v]; simpl; [reflexivity|].
  simpl in Hv.
  destruct (nth_error cs i) as [c|] eqn:Ec; [|discriminate].
  rewrite (nth_error_app_keep _ _ _ _ Ec). reflexivity.
Qed.

End Writer.

Arguments writer_alike {lw g made tw nw} W_sound {t a cs}.
Arguments locate_frame_at {lw g made tw nw} W_sound {t a cs s} u n.
Arguments locate_list_frame_at {lw g made tw nw} W_sound {t a cs} s u l.
Arguments locate_under_frame_at {lw g made tw nw} W_sound {t a cs sa}
  sb u n.
Arguments sub_frame_alike {lw g made tw nw} W_sound {t a cs u} n q y.
Arguments sub_frame_keep {lw g made tw nw} W_sound {t a cs u} n q y.
Arguments under_frame {lw g made tw nw} W_sound {t a cs} sa {u} n q y.

End WriterFacts.

Module RunnerFacts.
Import Dom DomFacts PortfolioRenderer Place PlaceFacts UnderFacts
       FrameFacts WriterFacts.

Lemma prefix_app_cancel p u v : prefix (p ++ u) (p ++ v) = prefix u v.
Proof.
  induction p as [|i p IH]; simpl; [reflexivity|].
  rewrite Nat.eqb_refl. exact IH.
Qed.

Lemma prefix_app_longer p u : u <> [] -> prefix (p ++ u) p = false.
Proof.
  intros Hu. induction p as [|i p IH]; simpl.
  - destruct u; [congruence|reflexivity].
  - rewrite Nat.eqb_refl. exact IH.
Qed.

Lemma path_cases p q :
  (exists u, q = p ++ u)
  \/ (exists u, u <> [] /\ p = q ++ u)
  \/ (prefix p q = false /\ prefix q p = false).
Proof.
  destruct (prefix p q) eqn:E1.
  - left. apply (prefix_app_inv _ _ E1).
  - destruct (prefix q p) eqn:E2.
    + right. left. destruct (prefix_app_inv _ _ E2) as [u ->].
      exists u. split; [|reflexivity]. intros ->.
      rewrite app_nil_r, prefix_refl in E1. discriminate E1.
    + right. right. split; reflexivity.
Qed.

Lemma sub_graft_above p u g n :
  sub p (graft (p ++ u) g n) = option_map (graft u g) (sub p n).
Proof.
  revert n. induction p as [|i p IH]; intros n; simpl; [reflexivity|].
  destruct n as [t a cs|s|s]; simpl.
  - rewrite nth_map_nth_same.
    destruct (nth_error cs i) as [c|]; simpl; [apply IH|reflexivity].
  - destruct i; reflexivity.
  - destruct i; reflexivity.
Qed.

Lemma is_none_true {A} (o : option A) : is_none o = true -> o = None.
Proof. destruct o; [discriminate|reflexivity]. Qed.

Lemma anchor_simple l r :
  (forall a b, l <> Within a b) -> anchor l r = place l r.
Proof.
  intros H. unfold anchor. destruct (place l r); destruct l; try reflexivity.
  exfalso. apply (H a b). reflexivity.
Qed.

Lemma prefix_through p q v :
  prefix p q = true -> prefix p (q ++ v) = true.
Proof.
  intros H. apply (prefix_trans _ _ _ H). apply path_prefix_app.
Qed.

(** *** A sound step that found its place *)

Lemma runner_not_root lw g made tw nw r p t a cs
  (W_sound : sound (Fill lw g made tw nw))
  (W_place : place lw r = Some p)
  (W_sub : sub p r = Some (Element t a cs)) :
  clears lw (Element t a cs) = false -> p <> [].
Proof.
  intros E Ep. pose proof W_sub as Hs. pose proof W_place as Hp.
  rewrite Ep in Hs, Hp. simpl in Hs. injection Hs as Hs.
  destruct (clears_false _ _ E) as (s & El & Ms).
  rewrite El, Hs in Hp. unfold place in Hp.
  destruct (locate (matches s) (Element t a cs)) as [q|] eqn:Eq.
  - injection Hp as ->.
    destruct (locate_sub _ _ _ Eq) as (x & Hx & Mx).
    simpl in Hx. injection Hx as <-. congruence.
  - destruct (head_place_sub _ _ Hp) as (i & _ & _ & H & _).
    discriminate H.
Qed.

Lemma head_frame lw g made tw nw r p t a cs
  (W_sound : sound (Fill lw g made tw nw))
  (W_place : place lw r = Some p)
  (W_sub : sub p r = Some (Element t a cs)) s :
  forallb (unmatched (FirstOrHead s)) made = true ->
  (forall q, head_place r = Some q ->
             clears lw (Element t a cs) && prefix p q = false) ->
  head_place (graft p g r) = head_place r.
Proof.
  intros Hm Hq. pose proof W_sub as Hs.
  destruct p as [|i p'].
  - simpl in Hs. injection Hs as ->.
    change (head_place (g (Element t a cs)) = head_place (Element t a cs)).
    destruct (clears lw (Element t a cs)) eqn:E.
    + destruct (head_place (Element t a cs)) as [q|] eqn:Eh.
      * specialize (Hq q eq_refl). discriminate Hq.
      * pose proof W_sound as HS0; destruct HS0 as (_ & HC & _).
        destruct (HC _ _ _ E) as (a' & cs' & -> & _ & [->|Hc] & _);
          [exact Eh|].
        simpl in Eh |- *. destruct (String.eqb t "html"); [|reflexivity].
        rewrite head_index_none; [reflexivity|].
        intros c Hin. rewrite Forall_forall in Hc.
        rewrite forallb_forall in Hm.
        destruct (Hc c Hin) as [Hc'|(u & a1 & ks & ks' & _ & -> & _)].
        -- specialize (Hm c Hc'). simpl in Hm.
           apply andb_prop in Hm as [_ Hm].
           apply negb_true_iff in Hm. exact Hm.
        -- reflexivity.
    + exfalso. apply (runner_not_root _ _ _ _ _ _ _ _ _ _ W_sound W_place W_sub E). reflexivity.
  - apply head_place_graft; [discriminate|].
    intros x Hx. rewrite Hs in Hx.
    injection Hx as <-. apply (writer_alike W_sound).
Qed.

Lemma unmatched_first (made : list node) s m :
  forallb (unmatched (First s)) made = true -> In m made ->
  locate (matches s) m = None.
Proof.
  intros H Hin. rewrite forallb_forall in H.
  apply is_none_true. apply (H m Hin).
Qed.

Lemma unmatched_fallback (made : list node) s m :
  forallb (unmatched (FirstOrHead s)) made = true -> In m made ->
  locate (matches s) m = None.
Proof.
  intros H Hin. rewrite forallb_forall in H.
  specialize (H m Hin). simpl in H. apply andb_prop in H as [H _].
  apply is_none_true. exact H.
Qed.

Lemma unmatched_within (made : list node) sa sb m :
  forallb (unmatched (Within sa sb)) made = true -> In m made ->
  locate (matches sa) m = None /\ locate (matches sb) m = None.
Proof.
  intros H Hin. rewrite forallb_forall in H.
  specialize (H m Hin). simpl in H. apply andb_prop in H as [H1 H2].
  split; apply is_none_true; assumption.
Qed.

Lemma unmatched_below (made : list node) sa sb m :
  forallb (unmatched (Below sa sb)) made = true -> In m made ->
  locate (matches sa) m = None
  /\ locate_under (matches sa) (matches sb) false m = None.
Proof.
  intros H Hin. rewrite forallb_forall in H.
  specialize (H m Hin). simpl in H. apply andb_prop in H as [H1 H2].
  split; apply is_none_true; assumption.
Qed.

(** The lookup of another step finds after the write what it found
    before. *)
Lemma place_frame lw g made tw nw r p t a cs
  (W_sound : sound (Fill lw g made tw nw))
  (W_place : place lw r = Some p)
  (W_sub : sub p r = Some (Element t a cs)) l :
  plain_lookup l = true ->
  forallb (unmatched l) made = true ->
  (forall sa sb, l = Below sa sb -> under (matches sa) p r = false) ->
  (forall q, anchor l r = Some q ->
             clears lw (Element t a cs) && prefix p q = false) ->
  place l (graft p g r) = place l r
  /\ anchor l (graft p g r) = anchor l r.
Proof.
  intros Hl Hm Hu Hq.
  destruct l as [s|sa sb|sa sb|s].
  - assert (E : place (First s) (graft p g r) = place (First s) r).
    { simpl. apply (locate_frame_at W_sound _ _ W_sub Hl).
      - intros m Hin. apply (unmatched_first _ _ _ Hm Hin).
      - intros q H. apply Hq. apply anchor_place. exact H. }
    split; [exact E|]. rewrite !anchor_simple by discriminate. exact E.
  - simpl in Hl. apply andb_prop in Hl as [Ha Hb].
    assert (E : place (Below sa sb) (graft p g r) = place (Below sa sb) r).
    { simpl. apply (locate_under_frame_at W_sound _ _ _ W_sub Ha).
      - intros m Hin. apply (unmatched_below _ _ _ _ Hm Hin).
      - apply (Hu sa sb eq_refl).
      - intros q H. apply Hq. apply anchor_place. exact H. }
    split; [exact E|]. rewrite !anchor_simple by discriminate. exact E.
  - simpl in Hl. apply andb_prop in Hl as [Ha Hb].
    assert (Fa : forall m, In m made -> locate (matches sa) m = None)
      by (intros m Hin; apply (unmatched_within _ _ _ _ Hm Hin)).
    assert (Fb : forall m, In m made -> locate (matches sb) m = None)
      by (intros m Hin; apply (unmatched_within _ _ _ _ Hm Hin)).
    unfold anchor. simpl.
    destruct (locate (matches sa) r) as [pm|] eqn:E.
    + destruct (locate_sub _ _ _ E) as (el & Hel & _).
      assert (Hpm : clears lw (Element t a cs) && prefix p pm = false).
      { destruct (clears lw (Element t a cs)) eqn:Ec; [|reflexivity].
        simpl. destruct (prefix p pm) eqn:Ep; [|reflexivity].
        unfold anchor in Hq. simpl in Hq. rewrite E, Hel in Hq.
        destruct (locate_list (matches sb) (children_of el)) as [qc|];
          simpl in Hq.
        - specialize (Hq _ eq_refl).
          rewrite (prefix_through _ _ qc Ep) in Hq. exact Hq.
        - specialize (Hq _ eq_refl). rewrite Ep in Hq. exact Hq. }
      assert (E1 : locate (matches sa) (graft p g r) = Some pm).
      { rewrite <- E. apply (locate_frame_at W_sound _ _ W_sub Ha Fa).
        intros q H. rewrite E in H. injection H as <-. exact Hpm. }
      rewrite E1, Hel.
      assert (E2 : exists el',
                 sub pm (graft p g r) = Some el'
                 /\ locate_list (matches sb) (children_of el')
                    = locate_list (matches sb) (children_of el)).
      { destruct (path_cases p pm) as [[u ->]|[(u & Hne & Ep)|[P1 P2]]].
        - rewrite path_prefix_app, andb_true_r in Hpm.
          pose proof W_sound as HS0; destruct HS0 as (_ & _ & HN).
          destruct (HN _ _ _ Hpm) as (m & Hin & Eg & _).
          destruct u as [|i u].
          + rewrite app_nil_r in *. rewrite W_sub in Hel.
            injection Hel as <-.
            rewrite (sub_graft_same _ _ _ _ W_sub), Eg.
            eexists. split; [reflexivity|]. simpl.
            apply locate_list_app_none. simpl. rewrite (Fb m Hin).
            reflexivity.
          + exists el. split; [|reflexivity].
            apply (sub_frame_keep W_sound _ _ _ W_sub Hel).
            * apply prefix_app_longer. discriminate.
            * rewrite Hpm. reflexivity.
        - subst p. rewrite sub_graft_above, Hel. simpl.
          eexists. split; [reflexivity|].
          rewrite sub_app, Hel in W_sub.
          destruct u as [|i u]; [congruence|].
          destruct el as [te ae ce|s|s];
            try (simpl in W_sub; destruct i; discriminate W_sub).
          change (locate_list (matches sb)
                    (graft_list (i :: u) g ce)
                  = locate_list (matches sb) ce).
          assert (Hsl : sub_list (i :: u) ce = Some (Element t a cs))
            by exact W_sub.
          apply (locate_list_frame_at W_sound _ _ _ Hsl Hb Fb).
          intros qc Hqc.
          unfold anchor in Hq. simpl in Hq. rewrite E, Hel in Hq.
          simpl in Hq. rewrite Hqc in Hq. simpl in Hq.
          specialize (Hq _ eq_refl).
          rewrite prefix_app_cancel in Hq. exact Hq.
        - exists el. split; [|reflexivity].
          rewrite (sub_graft_apart _ _ _ _ P1 P2). exact Hel. }
      destruct E2 as (el' & -> & ->).
      destruct (locate_list (matches sb) (children_of el)); split;
        reflexivity.
    + assert (E1 : locate (matches sa) (graft p g r) = None).
      { rewrite <- E. apply (locate_frame_at W_sound _ _ W_sub Ha Fa).
        intros q H. rewrite E in H. discriminate H. }
      rewrite E1. split; reflexivity.
  - simpl in Hl.
    assert (E1 : locate (matches s) (graft p g r) = locate (matches s) r).
    { apply (locate_frame_at W_sound _ _ W_sub Hl).
      - intros m Hin. apply (unmatched_fallback _ _ _ Hm Hin).
      - intros q H. apply Hq. apply anchor_place. simpl. rewrite H.
        reflexivity. }
    assert (E : place (FirstOrHead s) (graft p g r)
                = place (FirstOrHead s) r).
    { simpl. rewrite E1.
      destruct (locate (matches s) r) as [q|] eqn:El; [reflexivity|].
      apply (head_frame _ _ _ _ _ _ _ _ _ _ W_sound W_place W_sub _ Hm).
      intros q H. apply Hq. apply anchor_place. simpl. rewrite El.
      exact H. }
    split; [exact E|]. rewrite !anchor_simple by discriminate. exact E.
Qed.

End RunnerFacts.

Module CalmFacts.
Import Dom DomFacts PortfolioRenderer Place PlaceFacts UnderFacts
       FrameFacts WriterFacts RunnerFacts.

Lemma under_cons A i q n :
  under A (i :: q) n
  = A n || match nth_error (children_of n) i with
           | Some c => under A q c
           | None => false
           end.
Proof. reflexivity. Qed.

Lemma under_nil A n : under A [] n = A n.
Proof. simpl. apply orb_false_r. Qed.

Lemma under_single A i n c :
  nth_error (children_of n) i = Some c -> under A [i] n = A n || A c.
Proof. intros H. simpl. rewrite H, orb_false_r. reflexivity. Qed.

Lemma under_end A p n x :
  sub p n = Some x -> under A p n = false -> A x = false.
Proof.
  intros Hx Hu. pose proof (under_app A p [] n x Hx) as H.
  rewrite app_nil_r, Hu in H. simpl in H. rewrite orb_false_r in H.
  symmetry. exact H.
Qed.

Lemma prefix_new p q r y t a cs :
  sub q r = Some y -> sub p r = Some (Element t a cs) ->
  prefix (p ++ [length cs]) q = false.
Proof.
  intros Hy Hx. destruct (prefix (p ++ [length cs]) q) eqn:E;
    [|reflexivity].
  destruct (prefix_app_inv _ _ E) as [w ->].
  rewrite <- app_assoc, sub_app, Hx in Hy. simpl in Hy.
  assert (N : nth_error cs (length cs) = None)
    by (apply nth_error_None; lia).
  rewrite N in Hy. discriminate Hy.
Qed.

Lemma prefix_snoc q p k :
  prefix q (p ++ [k]) = true -> prefix q p = true \/ q = p ++ [k].
Proof.
  revert p. induction q as [|i q IH]; intros p; simpl.
  - intros _. left. reflexivity.
  - destruct p as [|j p]; simpl.
    + destruct (Nat.eqb_spec i k) as [-> | _]; [|discriminate].
      destruct q; [|discriminate]. intros _. right. reflexivity.
    + destruct (Nat.eqb_spec i j) as [-> | _]; [|discriminate]. simpl.
      intros H. destruct (IH _ H) as [H' | ->].
      * left. exact H'.
      * right. reflexivity.
Qed.

Lemma locate_list_app_new P k m q :
  locate_list P k = None -> locate P m = Some q ->
  locate_list P (k ++ [m]) = Some (length k :: q).
Proof.
  intros Hk Hm. induction k as [|c r IH]; simpl in *.
  - rewrite Hm. reflexivity.
  - destruct (locate P c); [discriminate|].
    destruct (locate_list P r); [discriminate|].
    rewrite (IH eq_refl). reflexivity.
Qed.

Lemma locate_list_map_nth_new P i f l c q :
  locate_list P l = None -> nth_error l i = Some c ->
  locate P (f c) = Some q ->
  locate_list P (map_nth i f l) = Some (i :: q).
Proof.
  revert i. induction l as [|c0 r IH]; intros [|i]; simpl; try discriminate.
  - intros _ [= ->] ->. reflexivity.
  - destruct (locate P c0); [discriminate|].
    destruct (locate_list P r) eqn:Er; [discriminate|].
    intros _ H Hf. rewrite (IH _ eq_refl H Hf). reflexivity.
Qed.

(** The node a step appends is the first match of a selector that had
    none, when it satisfies the selector. *)
Lemma locate_graft_new P g m t a cs :
  (forall t a cs cs', P (Element t a cs) = P (Element t a cs')) ->
  g (Element t a cs) = Element t a (cs ++ [m]) ->
  P m = true ->
  forall p n,
    locate P n = None -> sub p n = Some (Element t a cs) ->
    locate P (graft p g n) = Some (p ++ [length cs]).
Proof.
  intros P_shallow Hg Hm.
  induction p as [|i p IH]; intros n Hn Hx.
  - simpl in Hx. injection Hx as ->. simpl. rewrite Hg.
    rewrite locate_Element in Hn |- *.
    rewrite (P_shallow t a _ cs).
    destruct (P (Element t a cs)); [discriminate|].
    apply (locate_list_app_new _ _ _ _ Hn).
    rewrite locate_unfold, Hm. reflexivity.
  - destruct n as [tn an cn|s|s]; try (simpl in Hx; destruct i;
      discriminate Hx).
    simpl in Hx.
    destruct (nth_error cn i) as [c|] eqn:Ec; [|discriminate].
    change (locate P (Element tn an (map_nth i (graft p g) cn))
            = Some (i :: p ++ [length cs])).
    rewrite locate_Element in Hn |- *.
    rewrite (P_shallow tn an _ cn).
    destruct (P (Element tn an cn)); [discriminate|].
    apply (locate_list_map_nth_new _ _ _ _ _ _ Hn Ec).
    apply IH; [|exact Hx].
    destruct (locate P c) as [q|] eqn:Eq; [|reflexivity].
    exfalso.
    destruct (locate_sub _ _ _ Eq) as (z & Hz & Pz).
    assert (Hs : sub_list (i :: q) cn = Some z)
      by (simpl; rewrite Ec; exact Hz).
    rewrite (locate_list_None_sub _ _ Hn _ _ Hs) in Pz. discriminate Pz.
Qed.

(** *** What two steps ask of each other *)

Lemma undisturbed_found r l gb mb tb nb lw g made tw nw p x :
  undisturbed r (Fill l gb mb tb nb) (Fill lw g made tw nw) = true ->
  place lw r = Some p -> sub p r = Some x ->
  forallb (unmatched l) made = true
  /\ (forall sa sb, l = Below sa sb -> under (matches sa) p r = false)
  /\ (forall q, anchor l r = Some q -> clears lw x && prefix p q = false).
Proof.
  unfold undisturbed. intros H Hp Hx. rewrite Hp, Hx in H.
  apply andb_prop in H as [H H3]. apply andb_prop in H as [H1 H2].
  split; [exact H1|]. split.
  - intros sa sb ->. apply negb_true_iff. exact H2.
  - intros q Hq. rewrite Hq in H3. apply negb_true_iff. exact H3.
Qed.

Lemma calm_sym r s o : calm r s o = calm r o s.
Proof. unfold calm. apply andb_comm. Qed.

Lemma kept_same r s : kept r r s.
Proof.
  destruct s as [l g made tw nw|]; simpl; [|exact I].
  split; [reflexivity|]. split; [reflexivity|].
  intros q y _ Hy. exists y. split; [exact Hy|]. split; [apply alike_refl|].
  reflexivity.
Qed.

(** A step that is left alone by the writer depends after the write on
    what it depended on before. *)
Lemma kept_calm lw g made tw nw r p t a cs b
  (W_sound : sound (Fill lw g made tw nw))
  (W_place : place lw r = Some p)
  (W_sub : sub p r = Some (Element t a cs)) :
  sound b ->
  undisturbed r b (Fill lw g made tw nw) = true ->
  kept r (graft p g r) b.
Proof.
  destruct b as [l gb mb tb nb|]; [|intros _ _; exact I].
  intros (Hl & _) U.
  destruct (undisturbed_found _ _ _ _ _ _ _ _ _ _ _ _ _ U W_place W_sub)
    as (H1 & H2 & H3).
  destruct (place_frame _ _ _ _ _ _ _ _ _ _ W_sound W_place W_sub
              l Hl H1 H2 H3) as [E1 E2].
  simpl. split; [exact E1|]. split; [exact E2|].
  intros q y Hq Hy.
  pose proof (H3 q (anchor_place _ _ _ Hq)) as Hc.
  destruct (sub_frame_alike W_sound _ _ _ W_sub Hy Hc) as (y' & Hy' & Ha).
  exists y'. split; [exact Hy'|]. split; [exact Ha|].
  intros sa Hsa. apply (under_frame W_sound sa _ _ _ Hsa W_sub Hy Hc).
Qed.

Lemma undisturbed_kept r r1 a b :
  sound a -> sound b -> kept r r1 a -> kept r r1 b ->
  undisturbed r1 a b = undisturbed r a b.
Proof.
  destruct a as [la ga ma ta na|]; [|reflexivity].
  destruct b as [lb gb mb tb nb|]; [|reflexivity].
  intros (Hla & _) (Hlb & _) (_ & Ea & _) (Eb & _ & Kb).
  unfold undisturbed. rewrite Ea, Eb.
  destruct (place lb r) as [pb|] eqn:Epb.
  - destruct (place_valid _ _ _ Epb) as (t & a' & cs & Hy).
    destruct (Kb _ _ eq_refl Hy) as (y' & Hy' & Hal & Hun).
    rewrite Hy, Hy', (clears_alike _ _ _ Hlb Hal).
    f_equal. f_equal.
    destruct la as [s|sa sb|sa sb|s]; try reflexivity.
    simpl in Hla. apply andb_prop in Hla as [Hsa _].
    rewrite (Hun sa Hsa). reflexivity.
  - reflexivity.
Qed.

Lemma calm_kept r r1 a b :
  sound a -> sound b -> kept r r1 a -> kept r r1 b ->
  calm r1 a b = calm r a b.
Proof.
  intros Sa Sb Ka Kb. unfold calm.
  rewrite (undisturbed_kept r r1 a b Sa Sb Ka Kb).
  rewrite (undisturbed_kept r r1 b a Sb Sa Kb Ka). reflexivity.
Qed.

(** *** The step that ran *)

Lemma runner_place_kept lw g made tw nw r p t a cs
  (W_sound : sound (Fill lw g made tw nw))
  (W_place : place lw r = Some p)
  (W_sub : sub p r = Some (Element t a cs)) :
  clears lw (Element t a cs) = true ->
  place lw (graft p g r) = Some p.
Proof.
  intros E. pose proof W_sound as (Hl & _).
  pose proof (writer_alike W_sound (t := t) (a := a) (cs := cs)) as Ha.
  destruct lw as [s|sa sb|sa sb|s]; unfold place, clears in *;
    simpl plain_lookup in Hl.
  - rewrite <- W_place.
    apply (locate_graft_local _ (matches_shallow s) _ _ _ _ W_sub).
    destruct (locate_sub _ _ _ W_place) as (x & Hx & Mx).
    rewrite W_sub in Hx. injection Hx as <-.
    rewrite !locate_unfold, (Ha s Hl), Mx. reflexivity.
  - apply andb_prop in Hl as [Hsa Hsb].
    apply (locate_under_graft_self _ _ (matches_shallow sa)
             (matches_shallow sb) _ _ _ _ _ W_place W_sub).
    destruct (locate_under_sub _ _ _ _ _ W_place) as (x & Hx & Mx).
    rewrite W_sub in Hx. injection Hx as <-.
    rewrite (Ha sb Hsb). exact Mx.
  - apply andb_prop in Hl as [Hsa Hsb].
    destruct (locate (matches sa) r) as [pm|] eqn:Em; [|discriminate].
    destruct (locate_sub _ _ _ Em) as (el & Hel & _).
    rewrite Hel in W_place.
    destruct (locate_list (matches sb) (children_of el)) as [qc|] eqn:Ec;
      [|discriminate].
    simpl in W_place. injection W_place as <-.
    pose proof (locate_list_cons_path _ _ _ Ec) as Hne.
    rewrite (locate_graft_above _ (matches_shallow sa) _ _ _ _ Em Hne).
    rewrite sub_graft_above, Hel. simpl.
    destruct (locate_list_sub _ _ _ Ec) as (x & Hx & Mx).
    assert (Hx' : sub_list qc (children_of el) = Some (Element t a cs)).
    { rewrite sub_app, Hel in W_sub.
      destruct qc as [|i qc]; [congruence|exact W_sub]. }
    rewrite Hx' in Hx. injection Hx as <-.
    destruct el as [te ae ce|s|s]; try discriminate Ec.
    destruct qc as [|i qc]; [congruence|].
    change (option_map (app pm)
              (locate_list (matches sb) (graft_list (i :: qc) g ce))
            = Some (pm ++ i :: qc)).
    rewrite (locate_list_graft_local _ (matches_shallow sb) _ _ _ _ Hx').
    + rewrite Ec. reflexivity.
    + rewrite !locate_unfold, (Ha sb Hsb), Mx. reflexivity.
  - destruct (locate (matches s) r) as [q|] eqn:Eq.
    + injection W_place as ->.
      assert (L : locate (matches s) (graft p g r) = Some p).
      { rewrite <- Eq.
        apply (locate_graft_local _ (matches_shallow s) _ _ _ _ W_sub).
        rewrite !locate_unfold, (Ha s Hl), E. reflexivity. }
      rewrite L. reflexivity.
    + rewrite (locate_None_sub _ _ Eq _ _ W_sub) in E. discriminate E.
Qed.

Lemma kept_self lw g made tw nw r p t a cs
  (W_sound : sound (Fill lw g made tw nw))
  (W_place : place lw r = Some p)
  (W_sub : sub p r = Some (Element t a cs)) :
  clears lw (Element t a cs) = true ->
  kept r (graft p g r) (Fill lw g made tw nw).
Proof.
  intros E.
  pose proof (runner_place_kept _ _ _ _ _ _ _ _ _ _ W_sound W_place W_sub E)
    as Hp.
  simpl. split; [congruence|]. split.
  - rewrite (anchor_place _ _ _ Hp), (anchor_place _ _ _ W_place).
    reflexivity.
  - intros q y Hq Hy. rewrite W_place in Hq. injection Hq as <-.
    rewrite W_sub in Hy. injection Hy as <-.
    exists (g (Element t a cs)). split; [apply (sub_graft_same _ _ _ _ W_sub)|].
    split; [apply (writer_alike W_sound)|].
    intros sa Hsa.
    apply (under_graft _ _ _ (matches_shallow sa) _ _ _ W_sub).
    intros u x z Hu Hx _. rewrite W_sub in Hx. injection Hx as <-.
    assert (u = []).
    { apply (f_equal (@length nat)) in Hu. rewrite length_app in Hu.
      destruct u; [reflexivity|simpl in Hu; lia]. }
    subst u. simpl. f_equal. apply (writer_alike W_sound sa Hsa).
Qed.

Lemma runner_place_new lw g made tw nw r p t a cs
  (W_sound : sound (Fill lw g made tw nw))
  (W_place : place lw r = Some p)
  (W_sub : sub p r = Some (Element t a cs)) :
  clears lw (Element t a cs) = false ->
  exists m,
    In m made
    /\ g (Element t a cs) = Element t a (cs ++ [m])
    /\ clears lw m = true /\ g m = m
    /\ place lw (graft p g r) = Some (p ++ [length cs])
    /\ sub (p ++ [length cs]) (graft p g r) = Some m.
Proof.
  intros E. pose proof W_sound as (Hl & _ & HN).
  destruct (HN _ _ _ E) as (m & Hin & Hg & _ & Hc & Hm).
  exists m. split; [exact Hin|]. split; [exact Hg|].
  split; [exact Hc|]. split; [exact Hm|]. split.
  - destruct (clears_false _ _ E) as (s & -> & Ms).
    simpl in W_place, Hc |- *.
    destruct (locate (matches s) r) as [q|] eqn:Eq.
    + injection W_place as ->.
      destruct (locate_sub _ _ _ Eq) as (x & Hx & Mx).
      rewrite W_sub in Hx. injection Hx as <-. congruence.
    + rewrite (locate_graft_new _ g m t a cs (matches_shallow s) Hg Hc
                 p r Eq W_sub).
      reflexivity.
  - rewrite sub_app, (sub_graft_same _ _ _ _ W_sub), Hg. simpl.
    rewrite nth_error_app2 by lia. rewrite Nat.sub_diag. reflexivity.
Qed.

(** The step that ran does nothing when it runs again on the page it
    left. *)
Lemma run_again lw g made tw nw r p
  (W_sound : sound (Fill lw g made tw nw))
  (W_place : place lw r = Some p) :
  run (Fill lw g made tw nw) (graft p g r) = (graft p g r, tw).
Proof.
  destruct (place_valid _ _ _ W_place) as (t & a & cs & W_sub).
  destruct (clears lw (Element t a cs)) eqn:E.
  - simpl.
    rewrite (runner_place_kept _ _ _ _ _ _ _ _ _ _ W_sound W_place W_sub E).
    f_equal.
    apply (graft_fixed _ _ _ _ (sub_graft_same _ g _ _ W_sub)).
    pose proof W_sound as (_ & HC & _).
    destruct (HC _ _ _ E) as (a' & cs' & Hg & _ & _ & Hgg).
    rewrite Hg. exact Hgg.
  - destruct (runner_place_new _ _ _ _ _ _ _ _ _ _ W_sound W_place W_sub E)
      as (m & _ & _ & _ & Hm & Hp & Hs).
    simpl. rewrite Hp. f_equal.
    apply (graft_fixed _ _ _ _ Hs Hm).
Qed.

(** A step that did nothing before the write, and is left alone by the
    writer as the writer by it, does nothing after the write. *)
Lemma fixed_kept lw g made tw nw r p b
  (W_sound : sound (Fill lw g made tw nw))
  (W_place : place lw r = Some p) :
  sound b ->
  calm r b (Fill lw g made tw nw) = true ->
  run b r = (r, false) ->
  run b (graft p g r) = (graft p g r, false).
Proof.
  destruct (place_valid _ _ _ W_place) as (t & a & cs & W_sub).
  destruct b as [l gb mb tb nb|]; [|intros _ _ H; discriminate H].
  intros Sb C Hr. unfold calm in C. apply andb_prop in C as [U1 U2].
  pose proof (kept_calm _ _ _ _ _ _ _ _ _ _ _ W_sound W_place W_sub Sb U1)
    as (E1 & _ & K).
  simpl in Hr |- *. rewrite E1.
  destruct (place l r) as [q|] eqn:Eq.
  - injection Hr as Hg ->. f_equal.
    destruct (place_valid _ _ _ Eq) as (ty & ay & cy & Hy).
    assert (Hgy : gb (Element ty ay cy) = Element ty ay cy).
    { pose proof (sub_graft_same _ gb _ _ Hy) as H.
      rewrite Hg, Hy in H. injection H as H. symmetry. exact H. }
    assert (Ec : clears l (Element ty ay cy) = true).
    { destruct (clears l (Element ty ay cy)) eqn:Ec; [reflexivity|].
      exfalso. destruct Sb as (_ & _ & HN).
      destruct (HN _ _ _ Ec) as (m & _ & Hm & _).
      rewrite Hgy in Hm. injection Hm as Hm.
      apply (f_equal (@length node)) in Hm. rewrite length_app in Hm.
      simpl in Hm. lia. }
    destruct (undisturbed_found _ _ _ _ _ _ _ _ _ _ _ _ _ U1 W_place W_sub)
      as (_ & _ & H3).
    destruct (undisturbed_found _ _ _ _ _ _ _ _ _ _ _ _ _ U2 Eq Hy)
      as (_ & _ & H3').
    pose proof (H3 q (anchor_place _ _ _ Eq)) as Hc.
    pose proof (H3' p (anchor_place _ _ _ W_place)) as Hc'.
    rewrite Ec in Hc'. simpl in Hc'.
    apply (graft_fixed _ _ _ _
             (sub_frame_keep W_sound _ _ _ W_sub Hy Hc' Hc) Hgy).
  - injection Hr as ->. reflexivity.
Qed.

(** After a step appended a node, it and a step it was calm with are
    calm with each other. *)
Lemma calm_new lw g made tw nw r p t a cs b
  (W_sound : sound (Fill lw g made tw nw))
  (W_place : place lw r = Some p)
  (W_sub : sub p r = Some (Element t a cs)) :
  clears lw (Element t a cs) = false ->
  sound b ->
  calm r b (Fill lw g made tw nw) = true ->
  calm (graft p g r) b (Fill lw g made tw nw) = true.
Proof.
  intros E Sb C.
  destruct b as [l gb mb tb nb|]; [|reflexivity].
  unfold calm in C |- *. apply andb_prop in C as [U1 U2].
  pose proof (kept_calm _ _ _ _ _ _ _ _ _ _ _ W_sound W_place W_sub Sb U1)
    as (E1 & E2 & K).
  destruct (runner_place_new _ _ _ _ _ _ _ _ _ _ W_sound W_place W_sub E)
    as (m & Hin & Hg & Hc & Hm & Hp & Hs).
  destruct (undisturbed_found _ _ _ _ _ _ _ _ _ _ _ _ _ U1 W_place W_sub)
    as (H1 & H2 & H3).
  pose proof Sb as (Hl & _).
  destruct (clears_false _ _ E) as (s & -> & Ms).
  apply andb_true_intro. split.
  - unfold undisturbed. rewrite Hp, Hs, Hc, E2, H1. simpl.
    apply andb_true_intro. split.
    + destruct l as [s'|sa sb|sa sb|s']; try reflexivity.
      apply negb_true_iff.
      simpl in Hl. apply andb_prop in Hl as [Hsa _].
      rewrite (under_app _ _ _ _ _ (sub_graft_same _ g _ _ W_sub)).
      rewrite (under_frame W_sound sa _ _ _ Hsa W_sub W_sub)
        by (rewrite E; reflexivity).
      rewrite (H2 sa sb eq_refl). rewrite Hg.
      assert (N : nth_error (children_of (Element t a (cs ++ [m])))
                    (length cs) = Some m).
      { simpl. rewrite nth_error_app2 by lia. rewrite Nat.sub_diag.
        reflexivity. }
      rewrite (under_single _ _ _ _ N).
      rewrite (matches_shallow sa t a (cs ++ [m]) cs).
      rewrite (under_end _ _ _ _ W_sub (H2 sa sb eq_refl)).
      destruct (unmatched_below _ _ _ _ H1 Hin) as [Lm _].
      rewrite locate_unfold in Lm.
      destruct (matches sa m); [discriminate Lm|reflexivity].
    + destruct (anchor l r) as [q|] eqn:Ea; [|reflexivity].
      destruct (anchor_valid _ _ _ Ea) as (y & Hy).
      rewrite (prefix_new _ _ _ _ _ _ _ Hy W_sub). reflexivity.
  - unfold undisturbed in U2 |- *.
    rewrite (anchor_place _ _ _ Hp), E1.
    rewrite (anchor_place _ _ _ W_place) in U2.
    apply andb_prop in U2 as [U2 U3]. apply andb_prop in U2 as [U2 _].
    rewrite U2. simpl.
    destruct (place l r) as [q|] eqn:Eq; [|reflexivity].
    destruct (place_valid _ _ _ Eq) as (ty & ay & cy & Hy).
    destruct (K _ _ eq_refl Hy) as (y' & Hy' & Hal & _).
    rewrite Hy', (clears_alike _ _ _ Hl Hal).
    rewrite Hy in U3.
    destruct (clears l (Element ty ay cy)); [|reflexivity].
    simpl in U3 |- *. apply negb_true_iff in U3. apply negb_true_iff.
    destruct (prefix q (p ++ [length cs])) eqn:Epq; [|reflexivity].
    destruct (prefix_snoc _ _ _ Epq) as [H | ->]; [congruence|].
    rewrite sub_app, W_sub in Hy. simpl in Hy.
    assert (N : nth_error cs (length cs) = None)
      by (apply nth_error_None; lia).
    rewrite N in Hy. discriminate Hy.
Qed.

End CalmFacts.

Module PassAgain.
Import Dom DomFacts PortfolioRenderer Place PlaceFacts UnderFacts
       FrameFacts WriterFacts RunnerFacts CalmFacts.

Lemma pairs_middle {A} (R : A -> A -> Prop) D w rest :
  ForallOrdPairs R (D ++ w :: rest) <->
  ForallOrdPairs R (D ++ rest)
  /\ Forall (fun a => R a w) D /\ Forall (R w) rest.
Proof.
  induction D as [|d D IH]; simpl.
  - split.
    + intros H. inversion H; subst. split; [assumption|].
      split; [constructor|assumption].
    + intros (H1 & _ & H3). constructor; assumption.
  - split.
    + intros H. inversion H as [|x l H1 H2]; subst.
      apply IH in H2 as (P1 & P2 & P3).
      apply Forall_app in H1 as [F1 F2].
      inversion F2; subst.
      split; [constructor; [apply Forall_app; split; assumption|exact P1]|].
      split; [constructor; assumption|exact P3].
    + intros (H1 & H2 & H3).
      inversion H1 as [|x l F1 P1]; subst.
      inversion H2; subst.
      constructor.
      * apply Forall_app in F1 as [F1 F2].
        apply Forall_app. split; [exact F1|]. constructor; assumption.
      * apply IH. split; [exact P1|]. split; assumption.
Qed.

Lemma pairs_impl_in {A} (R R' : A -> A -> Prop) l :
  (forall a b, In a l -> In b l -> R a b -> R' a b) ->
  ForallOrdPairs R l -> ForallOrdPairs R' l.
Proof.
  intros H P. induction P as [|a l F P IH]; [constructor|].
  constructor.
  - rewrite Forall_forall in F |- *. intros b Hb.
    apply H; [left; reflexivity|right; exact Hb|apply F, Hb].
  - apply IH. intros x y Hx Hy. apply H; right; assumption.
Qed.

Lemma undisturbed_by_all r s others :
  undisturbed_by r s others = true <->
  Forall (fun o => calm r s o = true) others.
Proof.
  induction others as [|o rest IH]; simpl.
  - split; [constructor|reflexivity].
  - split.
    + intros H. apply andb_prop in H as [H1 H2].
      constructor; [exact H1|apply IH, H2].
    + intros H. inversion H; subst. apply andb_true_intro.
      split; [assumption|apply IH; assumption].
Qed.

Lemma steady_pairs r l :
  steady r l = true <-> ForallOrdPairs (fun s o => calm r s o = true) l.
Proof.
  induction l as [|s rest IH]; simpl.
  - split; [constructor|reflexivity].
  - split.
    + intros H. apply andb_prop in H as [H1 H2].
      constructor; [apply undisturbed_by_all, H1|apply IH, H2].
    + intros H. inversion H; subst. apply andb_true_intro.
      split; [apply undisturbed_by_all; assumption|apply IH; assumption].
Qed.

(** After a step ran, it and a step it was calm with are calm with each
    other. *)
Lemma calm_runner lw g made tw nw r p b
  (W_sound : sound (Fill lw g made tw nw))
  (W_place : place lw r = Some p) :
  sound b ->
  calm r b (Fill lw g made tw nw) = true ->
  calm (graft p g r) b (Fill lw g made tw nw) = true.
Proof.
  intros Sb C.
  destruct (place_valid _ _ _ W_place) as (t & a & cs & W_sub).
  destruct (clears lw (Element t a cs)) eqn:E.
  - rewrite <- C. apply (calm_kept _ _ _ _ Sb W_sound).
    + unfold calm in C. apply andb_prop in C as [U1 _].
      apply (kept_calm _ _ _ _ _ _ _ _ _ _ _ W_sound W_place W_sub Sb U1).
    + apply (kept_self _ _ _ _ _ _ _ _ _ _ W_sound W_place W_sub E).
  - apply (calm_new _ _ _ _ _ _ _ _ _ _ _ W_sound W_place W_sub E Sb C).
Qed.

(** One step of the pass: the steps stay calm with each other, the
    steps that did nothing still do nothing, and the step that ran does
    nothing when run again. *)
Lemma run_step D W rest r :
  Forall sound (D ++ W :: rest) ->
  ForallOrdPairs (fun s o => calm r s o = true) (D ++ W :: rest) ->
  Forall (fun b => run b r = (r, false)) D ->
  ForallOrdPairs (fun s o => calm (fst (run W r)) s o = true)
    (D ++ W :: rest)
  /\ Forall (fun b => run b (fst (run W r)) = (fst (run W r), false)) D
  /\ run W (fst (run W r)) = (fst (run W r), snd (run W r)).
Proof.
  intros HS HP HD.
  destruct W as [lw g made tw nw|];
    [|split; [exact HP|split; [exact HD|reflexivity]]].
  simpl. destruct (place lw r) as [p|] eqn:W_place; simpl.
  2:{ split; [exact HP|]. split; [exact HD|]. rewrite W_place.
      reflexivity. }
  destruct (place_valid _ _ _ W_place) as (t & a & cs & W_sub).
  apply Forall_app in HS as [SD HS].
  inversion HS as [|x l W_sound SR]; subst.
  apply pairs_middle in HP as (P1 & P2 & P3).
  assert (K : forall b, In b (D ++ rest) ->
                        sound b /\ calm r b (Fill lw g made tw nw) = true).
  { intros b Hb. apply in_app_or in Hb as [Hb|Hb].
    - rewrite Forall_forall in SD, P2. split; [apply SD, Hb|apply P2, Hb].
    - rewrite Forall_forall in SR, P3. split; [apply SR, Hb|].
      rewrite calm_sym. apply P3, Hb. }
  assert (K' : forall b, In b (D ++ rest) -> kept r (graft p g r) b).
  { intros b Hb. destruct (K b Hb) as [Sb C].
    unfold calm in C. apply andb_prop in C as [U1 _].
    apply (kept_calm _ _ _ _ _ _ _ _ _ _ _ W_sound W_place W_sub Sb U1). }
  split; [|split].
  - apply pairs_middle. split; [|split].
    + apply (pairs_impl_in _ _ _ (fun x y Hx Hy (C : calm r x y = true) =>
               eq_trans (calm_kept r (graft p g r) x y
                           (proj1 (K x Hx)) (proj1 (K y Hy))
                           (K' x Hx) (K' y Hy)) C) P1).
    + rewrite Forall_forall. intros b Hb.
      destruct (K b (in_or_app _ _ _ (or_introl Hb))) as [Sb C].
      apply (calm_runner _ _ _ _ _ _ _ _ W_sound W_place Sb C).
    + rewrite Forall_forall. intros b Hb.
      destruct (K b (in_or_app _ _ _ (or_intror Hb))) as [Sb C].
      rewrite calm_sym.
      apply (calm_runner _ _ _ _ _ _ _ _ W_sound W_place Sb C).
  - rewrite Forall_forall in HD |- *. intros b Hb.
    destruct (K b (in_or_app _ _ _ (or_introl Hb))) as [Sb C].
    apply (fixed_kept _ _ _ _ _ _ _ _ W_sound W_place Sb C (HD b Hb)).
  - apply (run_again _ _ _ _ _ _ _ W_sound W_place).
Qed.

(** The pass run again on the page it left does nothing, when its steps
    are sound and leave the lookups of each other alone. *)
Lemma exec_again L :
  forall D r,
    Forall sound (D ++ L) ->
    ForallOrdPairs (fun s o => calm r s o = true) (D ++ L) ->
    Forall (fun b => run b r = (r, false)) D ->
    Forall (fun b => run b (fst (exec L r)) = (fst (exec L r), false)) D
    /\ exec L (fst (exec L r)) = exec L r.
Proof.
  induction L as [|W rest IH]; intros D r HS HP HD.
  - simpl. split; [exact HD|reflexivity].
  - destruct (run_step D W rest r HS HP HD) as (P1 & D1 & R1).
    simpl. destruct (run W r) as [r1 h] eqn:ER. simpl in P1, D1, R1.
    destruct h.
    + simpl. split; [exact D1|]. rewrite R1. reflexivity.
    + assert (E : (D ++ [W]) ++ rest = D ++ W :: rest)
        by (rewrite <- app_assoc; reflexivity).
      destruct (IH (D ++ [W]) r1) as (D2 & E2).
      * rewrite E. exact HS.
      * rewrite E. exact P1.
      * apply Forall_app. split; [exact D1|]. constructor; [exact R1|].
        constructor.
      * apply Forall_app in D2 as [D2 DW]. inversion DW as [|x l RW _]; subst.
        split; [exact D2|].
        simpl. rewrite RW. exact E2.
Qed.

Lemma steady_pass L r :
  Forall sound L -> steady r L = true ->
  exec L (fst (exec L r)) = exec L r.
Proof.
  intros HS HP.
  apply (exec_again L [] r HS).
  - apply steady_pairs. exact HP.
  - constructor.
Qed.

End PassAgain.

Module StepFacts.
Import Dom DomFacts PortfolioRenderer Place PlaceFacts UnderFacts
       FrameFacts WriterFacts RunnerFacts CalmFacts PassAgain.

(** *** The steps of the pass are sound *)

Lemma alike_content t a cs v :
  alike (Element t a cs) (Element t (set_attr "content" v a) cs).
Proof.
  intros s Hs. destruct s as [i|c|t'|t' k v']; simpl.
  - rewrite IdempotenceFacts.get_set_other by reflexivity. reflexivity.
  - unfold has_class.
    rewrite IdempotenceFacts.get_set_other by reflexivity. reflexivity.
  - reflexivity.
  - simpl in Hs. apply negb_true_iff in Hs.
    rewrite IdempotenceFacts.get_set_other by exact Hs. reflexivity.
Qed.

Lemma text_children_leaves v :
  forallb (fun k => negb (is_element k)) (text_children v) = true.
Proof. unfold text_children. destruct (String.eqb v ""); reflexivity. Qed.

Lemma sound_replace l g made tw nw :
  plain_lookup l = true ->
  (forall x, clears l x = true) ->
  (forall t a cs, g (Element t a cs) = Element t a made) ->
  sound (Fill l g made tw nw).
Proof.
  intros Hl Hc Hg. split; [exact Hl|]. split.
  - intros t a cs _. exists a, made. split; [apply Hg|].
    split; [apply alike_children|]. split; [|apply Hg].
    right. apply Forall_forall. intros c Hin. left. exact Hin.
  - intros t a cs E. rewrite Hc in E. discriminate E.
Qed.

Lemma sound_title t : sound (title_step t).
Proof.
  split; [reflexivity|]. split.
  - intros tg a cs E. simpl in E.
    exists a, (text_children t).
    assert (M : matches (ByTag "title") (Element tg a (text_children t))
                = true) by exact E.
    rewrite M. change (matches (ByTag "title") (Element tg a cs)) with
      (String.eqb tg "title"). rewrite E.
    split; [reflexivity|]. split; [apply alike_children|].
    split; [|reflexivity].
    right. apply Forall_forall. intros c Hin. left. right. exact Hin.
  - intros tg a cs E. simpl in E.
    exists (titleNode t).
    change (matches (ByTag "title") (Element tg a cs)) with
      (String.eqb tg "title"). rewrite E.
    split; [left; reflexivity|]. split; [reflexivity|].
    split; [reflexivity|]. split; reflexivity.
Qed.

Lemma sound_description v : sound (description_step v).
Proof.
  split; [reflexivity|]. split.
  - intros tg a cs E.
    exists (set_attr "content" v a), cs.
    assert (M : isDescription (Element tg (set_attr "content" v a) cs)
                = true).
    { unfold isDescription.
      rewrite (alike_content tg a cs v
                 (ByTagAttr "meta" "name" "description") eq_refl).
      exact E. }
    cbv beta. rewrite M.
    change (isDescription (Element tg a cs)) with
      (clears (FirstOrHead (ByTagAttr "meta" "name" "description"))
              (Element tg a cs)).
    rewrite E.
    split; [reflexivity|]. split; [apply alike_content|].
    split; [left; reflexivity|].
    simpl. rewrite IdempotenceFacts.set_attr_idem. reflexivity.
  - intros tg a cs E.
    exists (descriptionTag v).
    cbv beta.
    change (isDescription (Element tg a cs)) with
      (clears (FirstOrHead (ByTagAttr "meta" "name" "description"))
              (Element tg a cs)).
    rewrite E.
    split; [left; reflexivity|]. split; [reflexivity|].
    split; [reflexivity|]. split; reflexivity.
Qed.

Lemma sound_content q isHTML v :
  plain_lookup (match q with
                | Simple s => First s
                | Inside a b => Below a b
                end) = true ->
  sound (content_step q isHTML v).
Proof.
  intros Hl. unfold content_step. apply sound_replace.
  - exact Hl.
  - intros x. destruct q; reflexivity.
  - intros t a cs. destruct isHTML; reflexivity.
Qed.

Lemma sound_strip i mk cs : sound (strip_step i mk cs).
Proof.
  apply sound_replace; [reflexivity|reflexivity|].
  intros t a old. apply LinkFacts.refill_Element.
Qed.

Lemma sound_menu l : sound (menu_step l).
Proof.
  apply sound_replace; [reflexivity|reflexivity|].
  intros t a old. apply LinkFacts.refill_Element.
Qed.

Lemma heading_of_cases s t a cs :
  heading_of s (Element t a cs)
  = createElement "h2" [("textContent", Some (title s))]
  \/ heading (heading_of s (Element t a cs)) cs.
Proof.
  unfold heading_of, find_desc. simpl children_of.
  rewrite locate_list_find.
  destruct (locate_list (matches (ByTag "h2")) cs) as [u|] eqn:E;
    [|left; reflexivity].
  destruct (locate_list_sub _ _ _ E) as (h & Hh & Mh).
  rewrite Hh. right.
  destruct (RenderFacts.matches_h2 _ Mh) as (ha & hcs & ->).
  exists u, ha, hcs, (text_children (title s)).
  split; [exact Hh|]. split; [reflexivity|]. apply text_children_leaves.
Qed.

Lemma sound_section d s : sound (section_step d s).
Proof.
  unfold section_step. destruct (Css.hash (id s)); try exact I.
  split; [reflexivity|]. split.
  - intros t a cs _.
    exists a, (heading_of s (Element t a cs) :: extra d s).
    split; [apply RenderFacts.renderContainer_fst|].
    split; [apply alike_children|]. split.
    + right. constructor.
      * destruct (heading_of_cases s t a cs) as [->|H].
        -- left. left. reflexivity.
        -- right. exact H.
      * apply Forall_forall. intros c Hin. left. right. exact Hin.
    + rewrite RenderFacts.renderContainer_fst. f_equal. f_equal.
      destruct (RenderFacts.heading_of_h2 s (Element t a cs)) as [ha ->].
      reflexivity.
  - intros t a cs E. discriminate E.
Qed.

Lemma sound_guarded field step :
  (forall v, sound (step v)) -> Forall sound (guarded field step).
Proof.
  intros H. unfold guarded. destruct (truthy_string field); constructor.
  - apply H.
  - constructor.
Qed.

Lemma sound_steps d : Forall sound (steps d).
Proof.
  unfold steps. repeat (apply Forall_app; split).
  - unfold meta_steps. destruct (doc_meta d); [|constructor].
    apply Forall_app. split; apply sound_guarded.
    + apply sound_title.
    + apply sound_description.
  - unfold header_steps. destruct (doc_personal d); [|constructor].
    repeat (apply Forall_app; split).
    + apply sound_guarded. intros v. apply sound_content. reflexivity.
    + apply sound_guarded. intros v. apply sound_content. reflexivity.
    + apply sound_guarded. intros v. apply sound_content. reflexivity.
    + destruct (contacts d); [|constructor].
      constructor; [apply sound_strip|].
      constructor; [apply sound_strip|constructor].
  - unfold section_steps. destruct (sections d); [|constructor].
    apply Forall_forall. intros x Hx. apply in_map_iff in Hx as (s & <- & _).
    apply sound_section.
  - unfold menu_steps. destruct (truthy_bool (navigation_enabled d));
      [|constructor].
    destruct (sections d); [|constructor].
    constructor; [apply sound_menu|constructor].
Qed.

End StepFacts.

Module StepsOfThePass.
Import Dom DomFacts PortfolioRenderer Place PlaceFacts UnderFacts
       FrameFacts WriterFacts RunnerFacts CalmFacts PassAgain StepFacts.

(** *** The pass does what its steps do *)

Lemma exec_app l1 l2 r :
  exec (l1 ++ l2) r
  = if snd (exec l1 r) then (fst (exec l1 r), true)
    else exec l2 (fst (exec l1 r)).
Proof.
  revert r. induction l1 as [|s l1 IH]; intros r; simpl; [reflexivity|].
  destruct (run s r) as [r1 h]. destruct h; [reflexivity|apply IH].
Qed.

Lemma exec_single s r : exec [s] r = run s r.
Proof. simpl. destruct (run s r) as [r1 h]. destruct h; reflexivity. Qed.

Lemma implements_ret : implements (ret tt) [].
Proof. intros w. split; reflexivity. Qed.

Lemma implements_bind a b l1 l2 :
  implements a l1 -> implements b l2 ->
  implements (bind a (fun _ => b)) (l1 ++ l2).
Proof.
  intros Ha Hb w. unfold bind. rewrite exec_app.
  destruct (Ha w) as [R S]. destruct (a w) as [[[]|e|] w1]; simpl in R, S.
  - rewrite <- S, <- R. apply Hb.
  - rewrite <- S, <- R. split; reflexivity.
  - rewrite <- S, <- R. split; reflexivity.
Qed.

Lemma implements_step a s :
  (forall w, root (snd (a w)) = fst (run s (root w))
             /\ stopped (fst (a w)) = snd (run s (root w))) ->
  implements a [s].
Proof. intros H w. rewrite exec_single. apply H. Qed.

Lemma implements_guarded (a : string -> M unit) s field :
  (forall v, implements (a v) [s v]) ->
  implements (if truthy_string field then a (to_string field) else ret tt)
             (guarded field s).
Proof.
  intros H. unfold guarded. destruct (truthy_string field);
    [apply H|apply implements_ret].
Qed.

Lemma implements_forEach A (f : A -> M unit) s l :
  (forall x, implements (f x) [s x]) ->
  implements (forEach f l) (map s l).
Proof.
  intros H. induction l as [|x l IH]; simpl; [apply implements_ret|].
  apply (implements_bind _ _ [s x] _ (H x) IH).
Qed.

(** The title. *)
Lemma retitle_run t r : retitle t r = fst (run (title_step t) r).
Proof.
  unfold retitle. rewrite update_graft. simpl run. unfold place.
  destruct (locate (matches (ByTag "title")) r) as [p|] eqn:E.
  - destruct (locate_sub _ _ _ E) as (x & Hx & Mx). rewrite Hx. simpl.
    apply (graft_ext _ _ _ _ _ Hx). simpl. rewrite Mx. reflexivity.
  - rewrite head_append_graft.
    destruct (head_place r) as [p|] eqn:Eh; simpl; [|reflexivity].
    destruct (head_place_sub _ _ Eh) as (i & a & k & _ & Hx).
    apply (graft_ext _ _ _ _ _ Hx).
    rewrite (locate_None_sub _ _ E _ _ Hx). reflexivity.
Qed.

Lemma implements_title t : implements (set_title t) [title_step t].
Proof.
  apply implements_step. intros w. split.
  - apply retitle_run.
  - unfold title_step, run.
    destruct (place (FirstOrHead (ByTag "title")) (root w));
      reflexivity.
Qed.

(** The description. *)
Lemma implements_description v :
  implements (setDescription v) [description_step v].
Proof.
  apply implements_step. intros w.
  unfold setDescription, bind, get_root. rewrite update_graft.
  simpl run. unfold place, isDescription.
  destruct (locate (matches (ByTagAttr "meta" "name" "description"))
                   (root w)) as [p|] eqn:E.
  - destruct (locate_sub _ _ _ E) as (x & Hx & Mx). rewrite Hx. simpl.
    split; [|reflexivity].
    apply (graft_ext _ _ _ _ _ Hx). unfold isDescription. rewrite Mx.
    reflexivity.
  - unfold head_appendChild, bind, get_root. rewrite head_append_graft.
    destruct (head_place (root w)) as [p|] eqn:Eh; simpl;
      [|split; reflexivity].
    split; [|reflexivity].
    destruct (head_place_sub _ _ Eh) as (i & a & k & _ & Hx).
    apply (graft_ext _ _ _ _ _ Hx). unfold isDescription.
    rewrite (locate_None_sub _ _ E _ _ Hx). reflexivity.
Qed.

Lemma implements_updateMeta d : implements (updateMeta d) (meta_steps d).
Proof.
  unfold updateMeta, meta_steps. destruct (doc_meta d) as [m|];
    [|apply implements_ret].
  apply implements_bind.
  - apply (implements_guarded set_title title_step _ implements_title).
  - apply (implements_guarded setDescription description_step _
             implements_description).
Qed.

(** The header. *)
Lemma modify_run l g made r s :
  l = First s ->
  modify (matches s) g r = fst (run (Fill l g made false false) r).
Proof.
  intros ->. rewrite modify_graft. simpl.
  destruct (locate (matches s) r); reflexivity.
Qed.

Lemma implements_modify s g made :
  implements (bind get_root
                (fun r => set_root (modify (matches s) g r)))
             [Fill (First s) g made false false].
Proof.
  apply implements_step. intros w. split.
  - apply (modify_run _ _ made _ _ eq_refl).
  - simpl. destruct (locate (matches s) (root w)); reflexivity.
Qed.

Lemma implements_content q content isHTML :
  implements (setElementContent q content isHTML)
             (guarded content (content_step q isHTML)).
Proof.
  unfold setElementContent, guarded.
  destruct (truthy_string content); [|intros w; split; reflexivity].
  apply implements_step. intros w. unfold bind, get_root, set_root.
  simpl fst. simpl snd. simpl root.
  unfold content_step. destruct q as [s|sa sb]; simpl run.
  - unfold modify_query. rewrite modify_graft. unfold place.
    destruct (locate (matches s) (root w)); split; reflexivity.
  - unfold modify_query. rewrite update_under_graft. unfold place.
    destruct (locate_under (matches sa) (matches sb) false (root w));
      split; reflexivity.
Qed.

Lemma run_first s g made r :
  run (Fill (First s) g made false false) r = (modify (matches s) g r, false).
Proof.
  rewrite modify_graft. simpl.
  destruct (locate (matches s) r); reflexivity.
Qed.

Lemma implements_contacts d :
  implements (renderContacts d)
    (match contacts d with
     | Some cs => [strip_step "header-contacts" headerContact cs;
                   strip_step "contact-links" contactLink cs]
     | None => []
     end).
Proof.
  unfold renderContacts. destruct (contacts d) as [cs|].
  - intros w. unfold strip_step, exec. rewrite !run_first.
    split; reflexivity.
  - intros w. split; reflexivity.
Qed.

Lemma implements_header d : implements (renderHeader d) (header_steps d).
Proof.
  unfold renderHeader, header_steps. destruct (doc_personal d) as [p|];
    [|apply implements_ret].
  apply implements_bind; [apply implements_content|].
  apply implements_bind; [apply implements_content|].
  apply implements_bind; [apply implements_content|].
  apply implements_contacts.
Qed.

(** The sections. *)
Lemma implements_section d s :
  implements (renderSection d s) [section_step d s].
Proof.
  apply implements_step. intros w. split.
  - rewrite IdempotenceFacts.renderSection_root. unfold section_step.
    destruct (Css.hash (id s)) as [i| |]; try reflexivity.
    rewrite within_graft. unfold run.
    destruct (place (Within (ById i) (ByClass "container")) (root w));
      reflexivity.
  - unfold section_step.
    destruct (RenderFacts.hash_cases (id s))
      as [[E Hi]|[[E Hi]|[E Hi]]]; rewrite E.
    + simpl run. unfold place.
      pose proof (locate_find (matches (ById (id s))) (root w)) as F.
      destruct (locate (matches (ById (id s))) (root w)) as [p|] eqn:El.
      * destruct (locate_sub _ _ _ El) as (el & Hel & _).
        rewrite Hel in F |- *.
        pose proof (locate_list_find (matches (ByClass "container"))
                      (children_of el)) as G.
        destruct (locate_list (matches (ByClass "container"))
                              (children_of el)) as [q|] eqn:Eq.
        -- destruct (locate_list_sub _ _ _ Eq) as (c & Hc & _).
           rewrite Hc in G.
           rewrite (RenderFacts.renderSection_container d s w Hi F G).
           rewrite PassFacts.renderContainer_outcome. simpl.
           destruct (Conformance.failure d s); reflexivity.
        -- rewrite (RenderFacts.renderSection_no_container d s w Hi F G).
           reflexivity.
      * rewrite (RenderFacts.renderSection_no_mount d s w Hi F).
        reflexivity.
    + rewrite (RenderFacts.renderSection_invalid d s w E). reflexivity.
    + unfold renderSection. rewrite E. reflexivity.
Qed.

Lemma implements_sections d :
  implements (renderSections d) (section_steps d).
Proof.
  unfold renderSections, section_steps. destruct (sections d) as [l|];
    [|apply implements_ret].
  apply implements_forEach. intros s. apply implements_section.
Qed.

(** The menu. *)
Lemma implements_navigation d :
  implements (generateNavigation (Some d)) (menu_steps d).
Proof.
  unfold generateNavigation, menu_steps.
  destruct (truthy_bool (navigation_enabled d)); simpl;
    [|apply implements_ret].
  destruct (sections d) as [l|]; [|apply implements_ret].
  apply implements_modify.
Qed.





End StepsOfThePass.

Set Implicit Arguments.

(** * Section ids that are no selectors *)

Module SelectorFacts.
Import Dom PortfolioRenderer Conformance.
Import PassFacts.

(** X26: a section whose id does not start an identifier stops the
    initialization.  The lookup of its mount point throws, whether or
    not an element of that id exists: [init] catches the exception and
    ends normally on the page the pass had reached, with one error more
    on the console; the sections after it are not rendered, the theme is
    not applied and the navigation is not generated. *)
Theorem unselectable_id_stops_init d st w before s after w0 :
  sections d = Some (before ++ s :: after) ->
  (updateMeta d ;; renderHeader d ;; forEach (renderSection d) before)%js w
  = (Normal tt, w0) ->
  Css.hash (id s) = Css.Invalid ->
  init (Response true st (JsonDocument d)) w
  = (Normal tt,
     with_console
       (console w0 ++ [Err "Failed to initialize portfolio:"
                           (Some (SyntaxError ("#" ++ id s)))]) w0)
  /\ style_vars w0 = style_vars w
  /\ body_font w0 = body_font w.
Proof.
  intros Hs H0 Hi.
  assert (Hthrow : renderSection d s w0
                   = (Throw (SyntaxError ("#" ++ id s)), w0))
    by (unfold renderSection; rewrite Hi; reflexivity).
  split.
  - assert (R : renderPortfolio (Some d) w
                = (Throw (SyntaxError ("#" ++ id s)), w0)).
    { unfold renderPortfolio, renderSections. rewrite Hs.
      unfold bind in H0 |- *.
      destruct (updateMeta d w) as [[[]|e1|] wa]; try discriminate H0.
      destruct (renderHeader d wa) as [[[]|e2|] wb]; try discriminate H0.
      rewrite forEach_app.
      destruct (forEach (renderSection d) before wb) as [[[]|e3|] wc];
        try discriminate H0.
      injection H0 as ->.
      simpl. unfold bind. rewrite Hthrow. reflexivity. }
    unfold init. unfold try_catch at 1. unfold bind at 1.
    change (loadData (Response true st (JsonDocument d)) w)
      with (Normal (Some d), w).
    cbv beta iota. unfold bind at 1. rewrite R. reflexivity.
  - assert (K0 : keeps_styles
                   (updateMeta d ;; renderHeader d ;;
                    forEach (renderSection d) before)%js).
    { apply keeps_bind; [apply keeps_updateMeta|intros _].
      apply keeps_bind; [apply keeps_renderHeader|intros _].
      apply keeps_forEach. intros x. apply keeps_renderSection. }
    destruct (K0 w) as [V F]. rewrite H0 in V, F. exact (conj V F).
Qed.

Lemma unselectable_id_witness :
  init (Response true 200
          (JsonDocument (Sample.doc None None
                           (Some [Sample.y2024; Sample.about]))))
       Sample.world3
  = (Normal tt,
     with_console
       [Err "Failed to initialize portfolio:"
            (Some (SyntaxError "#2024"))] Sample.world3).
Proof.
  apply (@unselectable_id_stops_init
           (Sample.doc None None (Some [Sample.y2024; Sample.about]))
           200 Sample.world3 [] Sample.y2024 [Sample.about]
           Sample.world3 eq_refl eq_refl eq_refl).
Defined.

End SelectorFacts.
